(** * EEW: polling client, dispatcher and Discord message sets

    A shallow embedding of [src/client/http.py] (class [HTTPEEWClient]),
    [src/notify/discord.py] (classes [EEWMessages], [DiscordNotification])
    and [src/notification/line.py] (class [LineNotification]).

    Python coroutines are embedded as computations of a state-and-exception
    monad that also records the calls made to the outside world (HTTP
    requests, background computations, messages sent and edited).  An
    exception leaves the mutations made before it in place, as in Python. *)

From Stdlib Require Import ZArith.
From stdpp Require Import gmap strings list fin_maps pretty.

Local Open Scope Z_scope.
Local Open Scope string_scope.

(** ** Data of the alert feed *)

(** Earthquake parameters carried by a feed entry. *)
Record EqParams := {
  eq_location : string;
  eq_mag : Z;
  eq_depth : Z;
  eq_time : Z
}.

(** One element of the JSON array returned by the feed: a [dict] whose
    keys may be missing. *)
Record Payload := {
  p_id : option string;
  p_serial : option Z;
  p_final : option bool;
  p_eq : option EqParams
}.

(** [eew.earthquake]: the parameters and the handle of the background
    computation of the derived data ([_calc_task]). *)
Record EarthquakeData := {
  eq_params : EqParams;
  _calc_task : option nat
}.

(** An [EEW] object. *)
Record EEW := {
  eew_id : string;
  eew_serial : Z;
  eew_final : bool;
  eew_earthquake : EarthquakeData
}.

Definition with_calc_task (e : EEW) (t : option nat) : EEW :=
  {| eew_id := eew_id e; eew_serial := eew_serial e; eew_final := eew_final e;
     eew_earthquake := {| eq_params := eq_params (eew_earthquake e);
                          _calc_task := t |} |}.

#[global] Instance EqParams_eq_dec : EqDecision EqParams.
Proof. solve_decision. Defined.
#[global] Instance EarthquakeData_eq_dec : EqDecision EarthquakeData.
Proof. solve_decision. Defined.
#[global] Instance EEW_eq_dec : EqDecision EEW.
Proof. solve_decision. Defined.

(** ** Exceptions, outcomes and observable calls *)

Inductive Exn :=
| KeyError (key : string)
| IndexError
| AttributeError
| ValueError
| ClientError
| HTTPException.

Inductive Result (A : Type) :=
| Ok (a : A)
| Raise (e : Exn).
Arguments Ok {A} a.
Arguments Raise {A} e.

Definition is_ok {A} (r : Result A) : bool :=
  match r with Ok _ => true | Raise _ => false end.

Inductive EventKind := New | Update | Lift.

#[global] Instance EventKind_eq_dec : EqDecision EventKind.
Proof. solve_decision. Defined.

(** A destination message handle of the chat platform. *)
Definition Message := nat.

(** A rendered embed.  Only what the message-set logic reads or writes is
    kept: which version it renders and, for the intensity embed, the URL
    of its image. *)
Inductive Embed :=
| InfoEmbed (serial : Z) (final : bool)
| IntensityEmbed (serial : Z) (image : string).

(** What the chat platform answers to [message.edit]: it either raises or
    returns the edited message, of which the program reads
    [m.embeds[1].image.url]. *)
Inductive EditOutcome :=
| EditRaises
| EditReturns (image_url : string).

(** The calls a coroutine makes to its collaborators, in program order,
    with the answer where the program reads it.  [Notify i ev] is a call
    made by the [i]-th notification client. *)
Inductive Effect :=
| SessionGet
| SessionCreate (sid : nat)
| LogFetchFailure
| CalcStart (task : nat) (id : string) (serial : Z)
| CalcCancel (task : nat)
| Emit (k : EventKind) (e : EEW)
| ChannelSend (channel : nat) (mention : option string) (embed : option Embed)
    (reply : option Message)
| MessageEdit (m : Message) (embeds : list Embed) (file : option (string * Z))
    (reply : EditOutcome)
| CalcCityMaxIntensity (id : string) (serial : Z)
| DrawMap (id : string) (serial : Z)
| LoopStart
| LoopStop
| Notify (client : nat) (ev : Effect).

(** ** The monad *)

Record Out (St A : Type) := mkOut {
  res : Result A;
  st : St;
  tr : list Effect
}.
Arguments mkOut {St A} res st tr.
Arguments res {St A} o.
Arguments st {St A} o.
Arguments tr {St A} o.

Definition M (St A : Type) : Type := St -> Out St A.

Definition ret {St A} (a : A) : M St A :=
  fun s => mkOut (Ok a) s [].

Definition bind {St A B} (m : M St A) (f : A -> M St B) : M St B :=
  fun s =>
    let o := m s in
    match res o with
    | Ok a => let o' := f a (st o) in mkOut (res o') (st o') (tr o ++ tr o')
    | Raise e => mkOut (Raise e) (st o) (tr o)
    end.

Definition raise {St A} (e : Exn) : M St A :=
  fun s => mkOut (Raise e) s [].

Definition gets {St A} (f : St -> A) : M St A :=
  fun s => mkOut (Ok (f s)) s [].

Definition modify {St} (f : St -> St) : M St unit :=
  fun s => mkOut (Ok tt) (f s) [].

Definition call {St} (ev : Effect) : M St unit :=
  fun s => mkOut (Ok tt) s [ev].

(** [try: ... except Exception:] — the exception becomes a value. *)
Definition try {St A} (m : M St A) : M St (Result A) :=
  fun s => let o := m s in mkOut (Ok (res o)) (st o) (tr o).

Declare Scope py_scope.
Delimit Scope py_scope with py.
Notation "x <- m ;; k" := (bind m (fun x => k))
  (at level 100, m at next level, k at level 200, right associativity) : py_scope.
Notation "m ;; k" := (bind m (fun _ => k))
  (at level 100, k at level 200, right associativity) : py_scope.
Local Open Scope py_scope.

(** Truthiness of [Optional[str]]: [None] and the empty string are falsy. *)
Definition str_truthy (o : option string) : bool :=
  match o with
  | Some s => negb (String.eqb s "")
  | None => false
  end.

(** ** Python [dict] with insertion order (used where [values()] is iterated) *)

Fixpoint dict_get {V} (k : string) (d : list (string * V)) : option V :=
  match d with
  | [] => None
  | (k', v) :: d' => if String.eqb k k' then Some v else dict_get k d'
  end.

Fixpoint dict_set {V} (k : string) (v : V) (d : list (string * V)) : list (string * V) :=
  match d with
  | [] => [(k, v)]
  | (k', v') :: d' =>
      if String.eqb k k' then (k, v) :: d' else (k', v') :: dict_set k v d'
  end.

Fixpoint dict_pop {V} (k : string) (d : list (string * V)) : list (string * V) :=
  match d with
  | [] => []
  | (k', v') :: d' =>
      if String.eqb k k' then d' else (k', v') :: dict_pop k d'
  end.

(** ** [asyncio.gather] *)

(** [await asyncio.gather] over the awaitables [cs]: every awaitable runs
    to completion (a failing one does not cancel its siblings); the first
    exception, if any, is raised to the caller.  The awaitables given to [gather] in this
    program work on disjoint data, so running them in list order stands
    for any interleaving. *)
Fixpoint gather {St A} (cs : list (M St A)) : M St (list A) :=
  match cs with
  | [] => ret []
  | c :: cs' =>
      r <- try c ;;
      rs <- try (gather cs') ;;
      match r, rs with
      | Ok a, Ok l => ret (a :: l)
      | Raise e, _ => raise e
      | Ok _, Raise e => raise e
      end
  end.

(** [await asyncio.gather] with [return_exceptions=True]: exceptions are
    returned in the result list instead of being raised. *)
Fixpoint gather_return_exceptions {St A} (cs : list (M St A)) : M St (list (Result A)) :=
  match cs with
  | [] => ret []
  | c :: cs' =>
      r <- try c ;;
      rs <- gather_return_exceptions cs' ;;
      ret (r :: rs)
  end.

(** Runs a method of the object [obj] from a coroutine with state [St]. *)
Definition with_object {St O A} (obj : O) (m : M O A) : M St (A * O) :=
  fun s =>
    let o := m obj in
    match res o with
    | Ok a => mkOut (Ok (a, st o)) s (tr o)
    | Raise e => mkOut (Raise e) s (tr o)
    end.

(** ** The notification client interface ([NotificationClient]) *)

Record NotificationClient (B : Type) := {
  send_eew : EEW -> M B unit;
  update_eew : EEW -> M B unit;
  lift_eew : EEW -> M B unit
}.
Arguments send_eew {B} n e.
Arguments update_eew {B} n e.
Arguments lift_eew {B} n e.

(** ** [src/notify/discord.py] *)

Module Discord.

(** An element of [notification_channels]. *)
Record Destination := {
  channel : nat;
  mention : option string
}.

Record EEWMessages := {
  eew : EEW;
  messages : list Message;
  _info_embed : option Embed;
  _intensity_embed : option Embed;
  map_url : option string
}.

Definition set_messages (l : list Message) (self : EEWMessages) : EEWMessages :=
  {| eew := eew self; messages := l; _info_embed := _info_embed self;
     _intensity_embed := _intensity_embed self; map_url := map_url self |}.

Definition set_info_embed (e : option Embed) (self : EEWMessages) : EEWMessages :=
  {| eew := eew self; messages := messages self; _info_embed := e;
     _intensity_embed := _intensity_embed self; map_url := map_url self |}.

Definition set_intensity_embed (e : option Embed) (self : EEWMessages) : EEWMessages :=
  {| eew := eew self; messages := messages self; _info_embed := _info_embed self;
     _intensity_embed := e; map_url := map_url self |}.

Definition set_map_url (u : option string) (self : EEWMessages) : EEWMessages :=
  {| eew := eew self; messages := messages self; _info_embed := _info_embed self;
     _intensity_embed := _intensity_embed self; map_url := u |}.

Definition set_eew (e : EEW) (self : EEWMessages) : EEWMessages :=
  {| eew := e; messages := messages self; _info_embed := _info_embed self;
     _intensity_embed := _intensity_embed self; map_url := map_url self |}.

(** [EEWMessages.__init__] *)
Definition __init__ (e : EEW) (msgs : list Message) : EEWMessages :=
  {| eew := e; messages := msgs; _info_embed := None;
     _intensity_embed := None; map_url := None |}.

(** The platform is an oracle: the answer to a send depends on the alert
    and the channel, the answer to an edit on the refresh tick and the
    message (within one tick a message is edited at most once). *)
Record Platform := {
  channel_send : EEW -> nat -> option Message;
  message_edit : nat -> Message -> EditOutcome
}.

Record DiscordNotification := {
  alerts : list (string * EEWMessages);
  notification_channels : list Destination;
  loop_running : bool
}.

Definition set_alerts (a : list (string * EEWMessages)) (s : DiscordNotification) :=
  {| alerts := a; notification_channels := notification_channels s;
     loop_running := loop_running s |}.

Definition set_loop_running (b : bool) (s : DiscordNotification) :=
  {| alerts := alerts s; notification_channels := notification_channels s;
     loop_running := b |}.

Section Methods.

Variable P : Platform.

(** [info_embed]: renders the static view and caches it. *)
Definition info_embed : M EEWMessages Embed :=
  e <- gets (fun self => InfoEmbed (eew_serial (eew self)) (eew_final (eew self))) ;;
  modify (set_info_embed (Some e)) ;;
  ret e.

(** [intensity_embed]: renders the countdown view (its text depends on the
    clock and is left out) with the image [attachment://image.png], and
    caches it. *)
Definition intensity_embed : M EEWMessages Embed :=
  e <- gets (fun self => IntensityEmbed (eew_serial (eew self)) "attachment://image.png") ;;
  modify (set_intensity_embed (Some e)) ;;
  ret e.

(** [embed.set_image(url=...)] *)
Definition set_image (e : Embed) (url : string) : Embed :=
  match e with
  | IntensityEmbed serial _ => IntensityEmbed serial url
  | InfoEmbed serial final => InfoEmbed serial final
  end.

(** [await channel.send(mention, embed=...)] *)
Definition channel_send_call (c : nat) (mention : option string) (embed : option Embed)
  : M EEWMessages Message :=
  fun self =>
    let reply := channel_send P (eew self) c in
    mkOut (match reply with
           | Some m => Ok m
           | None => Raise HTTPException
           end)
          self [ChannelSend c mention embed reply].

(** [await message.edit(embeds=[info, intensity], file=...)]; the value is
    [m.embeds[1].image.url] of the returned message. *)
Definition message_edit_call (now : nat) (msg : Message) (info : option Embed)
    (intensity : Embed) (file : option (string * Z)) : M EEWMessages string :=
  fun self =>
    let reply := message_edit P now msg in
    mkOut (match reply with
           | EditReturns url => Ok url
           | EditRaises => Raise HTTPException
           end)
          self [MessageEdit msg (option_list info ++ [intensity]) file reply].

Definition _send_singal_message (c : nat) (mention : option string)
  : M EEWMessages (option Message) :=
  info <- gets _info_embed ;;
  r <- try (channel_send_call c mention info) ;;
  match r with
  | Ok m => ret (Some m)
  | Raise _ => ret None
  end.

Definition _edit_singal_message (now : nat) (msg : Message) (map_embed : Embed)
  : M EEWMessages (option string) :=
  info <- gets _info_embed ;;
  r <- try (message_edit_call now msg info map_embed None) ;;
  match r with
  | Ok m => ret (Some m)
  | Raise _ => ret None
  end.

(** [filter(None, l)] on a list of [Optional[Message]]. *)
Definition filter_none {A} (l : list (option A)) : list A := omap (fun x => x) l.

(** [EEWMessages.send] (class method): builds the set and sends the info
    view to every destination; destinations whose send failed are dropped. *)
Definition send {St} (e : EEW) (chans : list Destination) : M St EEWMessages :=
  r <- with_object (__init__ e [])
         (info_embed ;;
          ms <- gather (map (fun d => _send_singal_message (channel d) (mention d)) chans) ;;
          modify (set_messages (filter_none ms))) ;;
  ret (snd r).

(** [self.messages[0]] *)
Definition messages_0 : M EEWMessages Message :=
  self <- gets (fun self => self) ;;
  match messages self with
  | m :: _ => ret m
  | [] => raise IndexError
  end.

(** [EEWMessages.edit], run by the refresh tick number [now]. *)
Definition edit (now : nat) : M EEWMessages unit :=
  intensity <- intensity_embed ;;
  url <- gets map_url ;;
  if negb (str_truthy url) then
    m0 <- messages_0 ;;
    info <- gets _info_embed ;;
    file <- gets (fun self => (eew_id (eew self), eew_serial (eew self))) ;;
    u <- message_edit_call now m0 info intensity (Some file) ;;
    modify (set_map_url (Some u)) ;;
    intensity <- intensity_embed ;;
    (* [set_image] mutates the cached embed object *)
    modify (set_intensity_embed (Some (set_image intensity u))) ;;
    rest <- gets (fun self => tail (messages self)) ;;
    gather (map (fun msg => _edit_singal_message now msg (set_image intensity u)) rest) ;;
    ret tt
  else
    m0 <- messages_0 ;;
    (* the primary message gets a copy made before [set_image] *)
    let copy := intensity in
    modify (set_intensity_embed (Some (set_image intensity (default "" url)))) ;;
    rest <- gets (fun self => tail (messages self)) ;;
    gather (_edit_singal_message now m0 copy
            :: map (fun msg => _edit_singal_message now msg
                                 (set_image intensity (default "" url))) rest) ;;
    ret tt.

(** [EEWMessages.update_eew_data] *)
Definition update_eew_data (e : EEW) : M EEWMessages unit :=
  modify (set_eew e) ;;
  modify (set_map_url None) ;;
  info_embed ;;
  call (CalcCityMaxIntensity (eew_id e) (eew_serial e)) ;;
  call (DrawMap (eew_id e) (eew_serial e)).

(** Runs a method on the message set registered under [id]; the object is
    shared with the registry, so its mutations are visible there, also when
    the method raises. *)
Definition on_alert {A} (id : string) (self : EEWMessages) (m : M EEWMessages A)
  : M DiscordNotification A :=
  fun s =>
    let o := m self in
    mkOut (res o) (set_alerts (dict_set id (st o) (alerts s)) s) (tr o).

(** [DiscordNotification.send_eew] *)
Definition send_eew (e : EEW) : M DiscordNotification EEWMessages :=
  chans <- gets notification_channels ;;
  m <- send e chans ;;
  modify (fun s => set_alerts (dict_set (eew_id e) m (alerts s)) s) ;;
  call (CalcCityMaxIntensity (eew_id e) (eew_serial e)) ;;
  call (DrawMap (eew_id e) (eew_serial e)) ;;
  running <- gets loop_running ;;
  (if negb running
   then call LoopStart ;; modify (set_loop_running true)
   else ret tt) ;;
  ret m.

(** [DiscordNotification.update_eew] *)
Definition update_eew (e : EEW) : M DiscordNotification unit :=
  m <- gets (fun s => dict_get (eew_id e) (alerts s)) ;;
  match m with
  | None => send_eew e ;; ret tt
  | Some m => on_alert (eew_id e) m (update_eew_data e)
  end.

(** [DiscordNotification.lift_eew] *)
Definition lift_eew (e : EEW) : M DiscordNotification unit :=
  modify (fun s => set_alerts (dict_pop (eew_id e) (alerts s)) s).

(** [for m in self.alerts.values(): await m.edit()] *)
Fixpoint edit_all (now : nat) (entries : list (string * EEWMessages))
  : M DiscordNotification unit :=
  match entries with
  | [] => ret tt
  | (id, m) :: rest => on_alert id m (edit now) ;; edit_all now rest
  end.

(** The body of [update_eew_messages_loop], for the tick [now]. *)
Definition update_eew_messages_loop (now : nat) : M DiscordNotification unit :=
  a <- gets alerts ;;
  match a with
  | [] => call LoopStop ;; modify (set_loop_running false)
  | _ :: _ => edit_all now a
  end.

(** The Discord client seen through the [NotificationClient] interface. *)
Definition client : NotificationClient DiscordNotification :=
  Build_NotificationClient DiscordNotification
    (fun e => send_eew e ;; ret tt) update_eew lift_eew.

End Methods.

End Discord.

(** ** [src/client/http.py] *)

Module HTTP.

(** An [aiohttp.ClientSession]. *)
Record Session := {
  session_id : nat;
  closed : bool
}.

(** The decoded body of the feed: a JSON array of alert objects, or
    [null]. *)
Inductive Json :=
| JNull
| JArray (items : list Payload).

(** [bool(data)] *)
Definition json_truthy (j : Json) : bool :=
  match j with
  | JArray (_ :: _) => true
  | JArray [] => false
  | JNull => false
  end.

Definition json_items (j : Json) : list Payload :=
  match j with
  | JArray l => l
  | JNull => []
  end.

(** What one GET of the feed does: the request or the decoding of its body
    raises (and may leave the session closed), or a body is returned. *)
Inductive FetchOutcome :=
| FetchRaises (closes : bool)
| FetchReturns (data : Json).

(** The attributes of the client object.  [__task] holds the outcome of the
    last fetch task, [requests], [sessions] and [calc_tasks] count the GETs
    issued, the sessions created and the computations started; they name
    the answers of the outside world and fresh handles. *)
Record HTTPEEWClient (B : Type) := {
  __session : option Session;
  __task : option (Result unit);
  _alerts : gmap string EEW;
  _notification_client : list (NotificationClient B * B);
  requests : nat;
  sessions : nat;
  calc_tasks : nat
}.
Arguments __session {B} h.
Arguments __task {B} h.
Arguments _alerts {B} h.
Arguments _notification_client {B} h.
Arguments requests {B} h.
Arguments sessions {B} h.
Arguments calc_tasks {B} h.

Section Client.

Context {B : Type}.

(** [EEW.from_dict] is not part of these sources: it is a parameter. *)
Variable from_dict : Payload -> Result EEW.

(** The feed: the answer to the [n]-th GET issued by the client. *)
Variable upstream : nat -> FetchOutcome.

Abbreviation Self := (HTTPEEWClient B).

Definition set_session (x : option Session) (s : Self) : Self :=
  {| __session := x; __task := __task s; _alerts := _alerts s;
     _notification_client := _notification_client s; requests := requests s;
     sessions := sessions s; calc_tasks := calc_tasks s |}.

Definition set_task (x : option (Result unit)) (s : Self) : Self :=
  {| __session := __session s; __task := x; _alerts := _alerts s;
     _notification_client := _notification_client s; requests := requests s;
     sessions := sessions s; calc_tasks := calc_tasks s |}.

Definition set_alerts (x : gmap string EEW) (s : Self) : Self :=
  {| __session := __session s; __task := __task s; _alerts := x;
     _notification_client := _notification_client s; requests := requests s;
     sessions := sessions s; calc_tasks := calc_tasks s |}.

Definition set_notification_client (x : list (NotificationClient B * B)) (s : Self) : Self :=
  {| __session := __session s; __task := __task s; _alerts := _alerts s;
     _notification_client := x; requests := requests s;
     sessions := sessions s; calc_tasks := calc_tasks s |}.

Definition set_requests (x : nat) (s : Self) : Self :=
  {| __session := __session s; __task := __task s; _alerts := _alerts s;
     _notification_client := _notification_client s; requests := x;
     sessions := sessions s; calc_tasks := calc_tasks s |}.

Definition set_sessions (x : nat) (s : Self) : Self :=
  {| __session := __session s; __task := __task s; _alerts := _alerts s;
     _notification_client := _notification_client s; requests := requests s;
     sessions := x; calc_tasks := calc_tasks s |}.

Definition set_calc_tasks (x : nat) (s : Self) : Self :=
  {| __session := __session s; __task := __task s; _alerts := _alerts s;
     _notification_client := _notification_client s; requests := requests s;
     sessions := sessions s; calc_tasks := x |}.

(** [recreate_session] *)
Definition recreate_session : M Self unit :=
  cur <- gets __session ;;
  if match cur with
     | None => true
     | Some ss => closed ss
     end
  then
    n <- gets sessions ;;
    modify (set_sessions (S n)) ;;
    modify (set_session (Some {| session_id := n; closed := false |})) ;;
    call (SessionCreate n)
  else ret tt.

(** [async with self.__session.get(...) as r: data = await r.json()] *)
Definition session_get : M Self Json :=
  cur <- gets __session ;;
  match cur with
  | None => raise AttributeError
  | Some ss =>
      if closed ss then raise ClientError
      else
        n <- gets requests ;;
        modify (set_requests (S n)) ;;
        call SessionGet ;;
        match upstream n with
        | FetchRaises c =>
            modify (set_session (Some {| session_id := session_id ss; closed := c |})) ;;
            raise ClientError
        | FetchReturns data => ret data
        end
  end.

(** Modelled from the spec: [calc_all_data_in_executor], of the absent
    [EarthquakeData] class, starts the background computation of the
    derived data of [e] and keeps its cancellable handle in [_calc_task].
    [e] is the object just stored under its id in [_alerts], so the handle
    is visible through the dictionary as well. *)
Definition calc_all_data_in_executor (e : EEW) : M Self EEW :=
  t <- gets calc_tasks ;;
  modify (set_calc_tasks (S t)) ;;
  call (CalcStart t (eew_id e) (eew_serial e)) ;;
  let e' := with_calc_task e (Some t) in
  modify (fun s => set_alerts (<[eew_id e := e']> (_alerts s)) s) ;;
  ret e'.

(** [old_eew.earthquake._calc_task.cancel()]; calling [cancel] on a
    handle never raises, on [None] it is an [AttributeError]. *)
Definition cancel_calc_task (old : EEW) : M Self unit :=
  match _calc_task (eew_earthquake old) with
  | Some t => call (CalcCancel t)
  | None => raise AttributeError
  end.

(** Runs a method of the [i]-th notification client on its own state. *)
Definition on_client {A} (i : nat) (m : NotificationClient B -> M B A) : M Self A :=
  fun s =>
    match _notification_client s !! i with
    | Some (c, b) =>
        let o := m c b in
        mkOut (res o)
              (set_notification_client (<[i := (c, st o)]> (_notification_client s)) s)
              (map (Notify i) (tr o))
    | None => mkOut (Raise IndexError) s []
    end.

(** [await asyncio.gather] over [m(c)] for every [c] of
    [self._notification_client], with [return_exceptions=True]. *)
Definition broadcast (m : NotificationClient B -> M B unit) : M Self (list (Result unit)) :=
  cs <- gets _notification_client ;;
  gather_return_exceptions (imap (fun i _ => on_client i m) cs).

Definition lift_result {A} (r : Result A) : M Self A :=
  match r with
  | Ok a => ret a
  | Raise e => raise e
  end.

(** [new_alert] *)
Definition new_alert (data : Payload) : M Self EEW :=
  eew <- lift_result (from_dict data) ;;
  modify (fun s => set_alerts (<[eew_id eew := eew]> (_alerts s)) s) ;;
  eew <- calc_all_data_in_executor eew ;;
  call (Emit New eew) ;;
  broadcast (fun c => send_eew c eew) ;;
  ret eew.

(** [update_alert] *)
Definition update_alert (data : Payload) : M Self EEW :=
  eew <- lift_result (from_dict data) ;;
  old_eew <- gets (fun s => _alerts s !! eew_id eew) ;;
  modify (fun s => set_alerts (<[eew_id eew := eew]> (_alerts s)) s) ;;
  match old_eew with
  | Some old => cancel_calc_task old
  | None => ret tt
  end ;;
  eew <- calc_all_data_in_executor eew ;;
  call (Emit Update eew) ;;
  broadcast (fun c => update_eew c eew) ;;
  ret eew.

(** [lift_alert] *)
Definition lift_alert (eew : EEW) : M Self unit :=
  call (Emit Lift eew) ;;
  broadcast (fun c => lift_eew c eew) ;;
  ret tt.

(** [d[key]] on a feed entry *)
Definition getitem {A} (key : string) (field : option A) : M Self A :=
  match field with
  | Some v => ret v
  | None => raise (KeyError key)
  end.

(** [for d in data: ...], with the local set [_check_finished_alerts] *)
Fixpoint for_data (data : list Payload) (_check_finished_alerts : gset string)
  : M Self (gset string) :=
  match data with
  | [] => ret _check_finished_alerts
  | d :: data' =>
      id <- getitem "id" (p_id d) ;;
      let _check_finished_alerts := _check_finished_alerts ∖ {[id]} in
      eew <- gets (fun s => _alerts s !! id) ;;
      match eew with
      | None => new_alert d ;; for_data data' _check_finished_alerts
      | Some eew =>
          serial <- getitem "serial" (p_serial d) ;;
          if bool_decide (eew_serial eew ≠ serial)
          then update_alert d ;; for_data data' _check_finished_alerts
          else for_data data' _check_finished_alerts
      end
  end.

(** [for id in _check_finished_alerts: ...] *)
Fixpoint for_finished (ids : list string) : M Self unit :=
  match ids with
  | [] => ret tt
  | id :: ids' =>
      eew <- gets (fun s => _alerts s !! id) ;;
      modify (fun s => set_alerts (delete id (_alerts s)) s) ;;
      match eew with
      | Some eew => lift_alert eew
      | None => ret tt
      end ;;
      for_finished ids'
  end.

(** The part of [_get_request] that follows the [try] statement. *)
Definition process (data : list Payload) : M Self unit :=
  known <- gets (fun s => dom (_alerts s)) ;;
  finished <- for_data data known ;;
  for_finished (elements finished).

(** [_get_request] *)
Fixpoint _get_request (retry : nat) : M Self unit :=
  r <- try session_get ;;
  match r with
  | Raise e =>
      match retry with
      | S retry' => recreate_session ;; _get_request retry'
      | O => call LogFetchFailure
      end
  | Ok data =>
      if negb (json_truthy data) then ret tt
      else process (json_items data)
  end.

(** The first [ticks] iterations of [_loop].  Each fetch task is taken to
    have finished by the next iteration, so that [__task] is either unset
    or done and a new task is created every time; the exception of a task
    stays in the task object. *)
Fixpoint _loop (ticks : nat) : M Self unit :=
  match ticks with
  | O => ret tt
  | S ticks' =>
      r <- try (_get_request 3) ;;
      modify (set_task (Some r)) ;;
      _loop ticks'
  end.

(** [start] ([run_notification_client] belongs to the absent base class) *)
Definition start (ticks : nat) : M Self unit :=
  recreate_session ;;
  _loop ticks.

(** The client as constructed: no session, no task, no alert. *)
Definition init (clients : list (NotificationClient B * B)) : Self :=
  {| __session := None; __task := None; _alerts := ∅;
     _notification_client := clients; requests := 0; sessions := 0;
     calc_tasks := 0 |}.

End Client.

(** Modelled from the spec: [EEW.from_dict], of the absent [EEW] class,
    builds the record from the entry's [id], [serial], [final] flag and
    earthquake parameters, and fails on an entry lacking one of them.  It
    is the instance used to run the client on concrete feeds. *)
Definition EEW_from_dict (d : Payload) : Result EEW :=
  match p_id d, p_serial d, p_final d, p_eq d with
  | Some i, Some n, Some f, Some q =>
      Ok {| eew_id := i; eew_serial := n; eew_final := f;
            eew_earthquake := {| eq_params := q; _calc_task := None |} |}
  | None, _, _, _ => Raise (KeyError "id")
  | _, None, _, _ => Raise (KeyError "serial")
  | _, _, None, _ => Raise (KeyError "final")
  | _, _, _, None => Raise (KeyError "eq")
  end.

End HTTP.

(** ** Observations on traces *)

Definition event_of (ev : Effect) : option (EventKind * EEW) :=
  match ev with
  | Emit k e => Some (k, e)
  | _ => None
  end.

(** The new/update/lift events of a trace of the client, in order. *)
Definition events (t : list Effect) : list (EventKind * EEW) := omap event_of t.

(** An event of kind [k] for the alert [id] occurs in the trace. *)
Definition emitted (k : EventKind) (id : string) (t : list Effect) : bool :=
  existsb (fun ke => bool_decide (ke.1 = k ∧ eew_id ke.2 = id)) (events t).

(** The lifecycle automaton [unknown -> new -> update* -> lift]: from the
    set of active ids, [None] when an event is out of order. *)
Fixpoint lifecycle (active : gset string) (evs : list (EventKind * EEW))
  : option (gset string) :=
  match evs with
  | [] => Some active
  | (New, e) :: evs' =>
      if decide (eew_id e ∈ active) then None
      else lifecycle ({[eew_id e]} ∪ active) evs'
  | (Update, e) :: evs' =>
      if decide (eew_id e ∈ active) then lifecycle active evs' else None
  | (Lift, e) :: evs' =>
      if decide (eew_id e ∈ active) then lifecycle (active ∖ {[eew_id e]}) evs'
      else None
  end.

(** The method of a notification client that an event is delivered to. *)
Definition method {B} (k : EventKind) (c : NotificationClient B) : EEW -> M B unit :=
  match k with
  | New => send_eew c
  | Update => update_eew c
  | Lift => lift_eew c
  end.





(** The messages edited by a trace, in order. *)
Definition edited (t : list Effect) : list Message :=
  omap (fun ev => match ev with MessageEdit m _ _ _ => Some m | _ => None end) t.

(** A run of refresh ticks on one message set; a tick that raises does not
    keep the later ones from running.  Each [edit] runs to its end before
    anything else touches the set. *)
Fixpoint edit_ticks (P : Discord.Platform) (nows : list nat) : M Discord.EEWMessages unit :=
  match nows with
  | [] => ret tt
  | now :: nows' => try (Discord.edit P now) ;; edit_ticks P nows'
  end.

(** ** Predicates on the client *)

Section ClientPredicates.

Context {B : Type}.

(** The states of the clients after each has run [m], the calls they made
    and their outcomes. *)
Definition notified (m : NotificationClient B -> M B unit)
    (cs : list (NotificationClient B * B)) : list (NotificationClient B * B) :=
  map (fun cb => (cb.1, st (m cb.1 cb.2))) cs.

Definition notify_trace (m : NotificationClient B -> M B unit)
    (cs : list (NotificationClient B * B)) : list Effect :=
  concat (imap (fun i cb => map (Notify i) (tr (m cb.1 cb.2))) cs).


(** [from_dict] takes the id of the record from the entry. *)
Definition keeps_id (from_dict : Payload -> Result EEW) : Prop :=
  forall d e, from_dict d = Ok e -> p_id d = Some (eew_id e).

(** A record stored under [k]: it carries the id [k] and the handle of a
    computation started before the [n]-th one. *)
Definition stored_ok (n : nat) (k : string) (e : EEW) : bool :=
  bool_decide (eew_id e = k) &&
  match _calc_task (eew_earthquake e) with
  | Some t => bool_decide (t < n)%nat
  | None => false
  end.

Definition consistent (s : HTTP.HTTPEEWClient B) : Prop :=
  map_Forall (fun k e => stored_ok (HTTP.calc_tasks s) k e = true) (HTTP._alerts s).

(** The next GET of the client is issued on an open session and returns
    [data]. *)
Definition fetch_returns (upstream : nat -> HTTP.FetchOutcome)
    (s : HTTP.HTTPEEWClient B) (data : HTTP.Json) : Prop :=
  (exists ss, HTTP.__session s = Some ss /\ HTTP.closed ss = false) /\
  upstream (HTTP.requests s) = HTTP.FetchReturns data.

(** The next [n] GETs of the client all raise. *)
Definition fetch_fails (upstream : nat -> HTTP.FetchOutcome)
    (s : HTTP.HTTPEEWClient B) (n : nat) : Prop :=
  forall k, (k < n)%nat ->
    exists c, upstream (HTTP.requests s + k)%nat = HTTP.FetchRaises c.

(** An entry the client can turn into a record. *)
Definition well_formed (from_dict : Payload -> Result EEW) (d : Payload) : Prop :=
  is_Some (p_id d) /\ is_Some (p_serial d) /\ is_ok (from_dict d) = true.

(** The events of [o], run from [s], follow the lifecycle from the alerts
    known in [s] to those known after [o], and the records stay
    consistent. *)
Definition in_order {A} (s : HTTP.HTTPEEWClient B) (o : Out (HTTP.HTTPEEWClient B) A) : Prop :=
  consistent (st o) /\
  lifecycle (dom (HTTP._alerts s)) (events (tr o)) = Some (dom (HTTP._alerts (st o))).

(** A step that touches neither the alerts, the computations, the
    notification clients nor the task, and emits no event. *)
Definition quiet {A} (s : HTTP.HTTPEEWClient B) (o : Out (HTTP.HTTPEEWClient B) A) : Prop :=
  HTTP._alerts (st o) = HTTP._alerts s /\ HTTP.calc_tasks (st o) = HTTP.calc_tasks s /\
  HTTP._notification_client (st o) = HTTP._notification_client s /\
  HTTP.__task (st o) = HTTP.__task s /\ events (tr o) = [].

(** Two clients that know the same alerts, have started the same
    computations and notify the same clients. *)
Definition same_known (s s' : HTTP.HTTPEEWClient B) : Prop :=
  HTTP._alerts s = HTTP._alerts s' /\ HTTP.calc_tasks s = HTTP.calc_tasks s' /\
  HTTP._notification_client s = HTTP._notification_client s'.

(** [m] reads and writes nothing else. *)
Definition respects {A} (m : M (HTTP.HTTPEEWClient B) A) : Prop :=
  forall s s', same_known s s' ->
    res (m s) = res (m s') /\ tr (m s) = tr (m s') /\ same_known (st (m s)) (st (m s')).

End ClientPredicates.

(** What the diff decides for the entry [d] against the known alerts. *)
Definition expected (known : gmap string EEW) (d : Payload) : option (EventKind * string) :=
  match p_id d with
  | Some id =>
      match known !! id with
      | None => Some (New, id)
      | Some old =>
          match p_serial d with
          | Some n => if bool_decide (eew_serial old ≠ n) then Some (Update, id) else None
          | None => None
          end
      end
  | None => None
  end.

(** The kind and the id of each event. *)
Definition kinds (evs : list (EventKind * EEW)) : list (EventKind * string) :=
  map (fun ke => (ke.1, eew_id ke.2)) evs.

Local Open Scope list_scope.

(** [id] has been announced by a new event of [pre] and not lifted since. *)
Definition announced (id : string) (pre : list (EventKind * EEW)) : Prop :=
  exists pre1 e0 pre2,
    pre = pre1 ++ (New, e0) :: pre2 /\ eew_id e0 = id /\
    forall e1, (Lift, e1) ∈ pre2 -> eew_id e1 <> id.

(** The calls of the fetch path. *)
Definition fetch_effect (ev : Effect) : bool :=
  match ev with
  | SessionGet | SessionCreate _ | LogFetchFailure => true
  | _ => false
  end.

(** ** Predicates on a message set *)

Section MessageSetPredicates.

Import Discord.

Variable P : Platform.

(** The edit of one message through the guarded path, as recorded. *)
Definition guarded_edit (now : nat) (self : EEWMessages) (emb : Embed) (msg : Message)
  : Effect :=
  MessageEdit msg (option_list (_info_embed self) ++ [emb]) None (message_edit P now msg).

Definition edit_reply (r : EditOutcome) : option string :=
  match r with
  | EditReturns u => Some u
  | EditRaises => None
  end.

(** The image of the intensity embed as rendered, before [set_image]. *)
Definition attachment : string := "attachment://image.png".

Definition rendered (self : EEWMessages) : Embed :=
  IntensityEmbed (eew_serial (eew self)) attachment.

Definition with_url (self : EEWMessages) (u : string) : Embed :=
  IntensityEmbed (eew_serial (eew self)) u.

Definition last_image (embeds : list Embed) : option string :=
  match last embeds with
  | Some (IntensityEmbed _ u) => Some u
  | _ => None
  end.

(** The edits of a trace that attach no file: the message edited and the
    image URL of the intensity embed it is given. *)
Definition reused_edits (t : list Effect) : list (Message * string) :=
  omap (fun ev => match ev with
                  | MessageEdit m embeds None _ =>
                      match last_image embeds with
                      | Some u => Some (m, u)
                      | None => None
                      end
                  | _ => None
                  end) t.

(** The URLs returned by the platform for the accepted edits that attach
    the map artifact. *)
Definition accepted_urls (t : list Effect) : list string :=
  omap (fun ev => match ev with
                  | MessageEdit _ _ (Some _) (EditReturns u) => Some u
                  | _ => None
                  end) t.




(** The set built by [send]. *)
Definition sent (e : EEW) (chans : list Destination) : EEWMessages :=
  set_messages (filter_none (map (fun d => channel_send P e (channel d)) chans))
    (set_info_embed (Some (InfoEmbed (eew_serial e) (eew_final e))) (__init__ e [])).

End MessageSetPredicates.

(** ** Concrete feeds, clients and platforms *)

Import HTTP.

Definition hualien : EqParams :=
  {| eq_location := "Hualien"; eq_mag := 62; eq_depth := 10; eq_time := 0 |}.

Definition entry (i : string) (n : Z) : Payload :=
  {| p_id := Some i; p_serial := Some n; p_final := Some false; p_eq := Some hualien |}.

Definition record (i : string) (n : Z) (t : nat) : EEW :=
  {| eew_id := i; eew_serial := n; eew_final := false;
     eew_earthquake := {| eq_params := hualien; _calc_task := Some t |} |}.

(** The scenario of the specification: [A] appears, is revised, and
    leaves the feed. *)
Definition scenario_feed (n : nat) : FetchOutcome :=
  match n with
  | 0%nat => FetchReturns (JArray [entry "A" 1])
  | 1%nat => FetchReturns (JArray [entry "A" 2])
  | 2%nat => FetchReturns (JArray [entry "B" 1])
  | _ => FetchReturns (JArray [])
  end.

(** A backend whose methods always raise, and one that counts what it is
    sent. *)
Definition failing_backend : NotificationClient nat :=
  Build_NotificationClient nat
    (fun _ => raise HTTPException) (fun _ => raise HTTPException)
    (fun _ => raise HTTPException).

Definition counting_backend : NotificationClient nat :=
  Build_NotificationClient nat
    (fun _ => modify S) (fun _ => modify S) (fun _ => modify S).

(** A client that knows the alert [A], on an open session. *)
Definition knows_A : HTTPEEWClient unit :=
  {| __session := Some {| session_id := 0; closed := false |};
     __task := None;
     _alerts := {[ "A" := record "A" 1 0 ]};
     _notification_client := [];
     requests := 0; sessions := 1; calc_tasks := 1 |}.

(** A client that knows [A] at serial 2. *)
Definition knows_A2 : HTTPEEWClient unit :=
  {| __session := Some {| session_id := 0; closed := false |};
     __task := None;
     _alerts := {[ "A" := record "A" 2 0 ]};
     _notification_client := [];
     requests := 0; sessions := 1; calc_tasks := 1 |}.

(** A started client that knows no alert. *)
Definition knows_nothing : HTTPEEWClient unit :=
  {| __session := Some {| session_id := 0; closed := false |};
     __task := None; _alerts := ∅; _notification_client := [];
     requests := 0; sessions := 1; calc_tasks := 0 |}.

(** An entry for [A] without its earthquake parameters and final flag. *)
Definition broken_entry : Payload :=
  {| p_id := Some "A"; p_serial := Some 1; p_final := None; p_eq := None |}.

(** A feed that is down and drops the connection at each attempt. *)
Definition feed_down (n : nat) : FetchOutcome := FetchRaises true.

Definition feed_A3_B1 (n : nat) : FetchOutcome :=
  FetchReturns (JArray [entry "A" 3; entry "B" 1]).

Definition feed_C_broken_B (n : nat) : FetchOutcome :=
  FetchReturns (JArray ([entry "C" 1] ++ broken_entry :: [entry "B" 1])).

(** A URL handed out by the platform. *)
Definition map_cdn_url : string := "https://cdn.example/map.png".

(** A platform that accepts everything. *)
Definition platform_up : Discord.Platform :=
  {| Discord.channel_send := fun _ c => Some c;
     Discord.message_edit := fun _ _ => EditReturns map_cdn_url |}.

(** A platform on which the first tick fails for the message 1. *)
Definition platform_late : Discord.Platform :=
  {| Discord.channel_send := fun _ c => Some c;
     Discord.message_edit := fun now m =>
       if (Nat.eqb now 0 && Nat.eqb m 1)%bool then EditRaises else EditReturns map_cdn_url |}.

(** A platform on which the message 1 cannot be edited. *)
Definition platform_one_down : Discord.Platform :=
  {| Discord.channel_send := fun _ c => Some c;
     Discord.message_edit := fun now m =>
       if Nat.eqb m 1 then EditRaises else EditReturns map_cdn_url |}.

(** A platform whose channels reject every message. *)
Definition platform_closed : Discord.Platform :=
  {| Discord.channel_send := fun _ _ => None;
     Discord.message_edit := fun _ _ => EditReturns map_cdn_url |}.

(** A Discord backend with one destination channel. *)
Definition discord_backend
  : NotificationClient Discord.DiscordNotification * Discord.DiscordNotification :=
  (Discord.client platform_up,
   {| Discord.alerts := [];
      Discord.notification_channels := [ {| Discord.channel := 7; Discord.mention := None |} ];
      Discord.loop_running := false |}).

(** A message set with two destination messages and no cached URL. *)
Definition two_messages : Discord.EEWMessages :=
  {| Discord.eew := record "A" 1 0;
     Discord.messages := [1%nat; 2%nat];
     Discord._info_embed := Some (InfoEmbed 1 false);
     Discord._intensity_embed := None;
     Discord.map_url := None |}.

(** The same set once the URL of the map is cached. *)
Definition two_messages_cached : Discord.EEWMessages :=
  Discord.set_map_url (Some map_cdn_url) two_messages.

Definition two_channels : Discord.DiscordNotification :=
  {| Discord.alerts := [];
     Discord.notification_channels :=
       [ {| Discord.channel := 7; Discord.mention := None |};
         {| Discord.channel := 8; Discord.mention := Some "@everyone" |} ];
     Discord.loop_running := false |}.

(** ** Further observations on the polling client *)

Definition is_get (ev : Effect) : bool :=
  match ev with SessionGet => true | _ => false end.

Definition is_session_create (ev : Effect) : bool :=
  match ev with SessionCreate _ => true | _ => false end.

Definition is_cancel (ev : Effect) : bool :=
  match ev with CalcCancel _ => true | _ => false end.

(** The number of calls of a trace that satisfy [p]. *)
Definition count (p : Effect -> bool) (t : list Effect) : nat :=
  length (filter (fun ev => p ev = true) t).

(** The number of events of kind [k]. *)
Definition of_kind (k : EventKind) (evs : list (EventKind * EEW)) : nat :=
  length (filter (fun ke => ke.1 = k) evs).

(** [self.__session] is set and not closed. *)
Definition session_open {B} (s : HTTPEEWClient B) : bool :=
  match __session s with
  | Some ss => negb (closed ss)
  | None => false
  end.

(** Every call made by [m] satisfies [p]. *)
Definition emits_only {St A} (p : Effect -> bool) (m : M St A) : Prop :=
  forall s, Forall (fun ev => p ev = true) (tr (m s)).

(** A call that is not on the fetch path. *)
Definition off_fetch_path (ev : Effect) : bool := negb (fetch_effect ev).

(** [from_dict] takes the serial of the record from the entry. *)
Definition keeps_serial (from_dict : Payload -> Result EEW) : Prop :=
  forall d e, from_dict d = Ok e -> p_serial d = Some (eew_serial e).

(** The ids of a snapshot. *)
Definition ids_of (data : list Payload) : gset string := list_to_set (omap p_id data).

(** An entry that carries an id and a serial, and the record known under
    that id has that serial. *)
Definition up_to_date (known : gmap string EEW) (d : Payload) : Prop :=
  exists id n e, p_id d = Some id /\ p_serial d = Some n /\
                 known !! id = Some e /\ eew_serial e = n.

(** The known alerts are those of the snapshot, at the snapshot's serials. *)
Definition synced (data : list Payload) (known : gmap string EEW) : Prop :=
  dom known = ids_of data /\ Forall (up_to_date known) data.

(** The key whose lookup fails when the diff reaches the entry [d]:
    [d["id"]], or [d["serial"]] for an id that is known. *)
Definition missing_key (known : gmap string EEW) (d : Payload) : option string :=
  match p_id d with
  | None => Some "id"
  | Some id =>
      match known !! id, p_serial d with
      | Some _, None => Some "serial"
      | _, _ => None
      end
  end.

(** A feed that fails three times and then returns the alert [B]. *)
Definition feed_late (n : nat) : FetchOutcome :=
  if (n <? 3)%nat then FetchRaises true else FetchReturns (JArray [entry "B" 1]).

(** An entry without id. *)
Definition anonymous_entry : Payload :=
  {| p_id := None; p_serial := Some 1; p_final := Some false; p_eq := Some hualien |}.

(** ** Delivery of the events to the notification clients *)

Definition is_notify (ev : Effect) : bool :=
  match ev with Notify _ _ => true | _ => false end.

(** The notification clients once the event [ke] has been delivered to
    each of them. *)
Definition deliver {B} (cs : list (NotificationClient B * B)) (ke : EventKind * EEW)
  : list (NotificationClient B * B) :=
  notified (fun c => method ke.1 c ke.2) cs.

(** [m] leaves the notification clients as the delivery of its events, one
    after the other, leaves them. *)
Definition delivers {B A} (m : M (HTTPEEWClient B) A) : Prop :=
  forall s, _notification_client (st (m s))
            = foldl deliver (_notification_client s) (events (tr (m s))).

(** [m] cancels one computation per update event. *)
Definition cancels_per_update {B A} (m : M (HTTPEEWClient B) A) : Prop :=
  forall s, count is_cancel (tr (m s)) = of_kind Update (events (tr (m s))).

(** ** Further observations on the Discord client *)

(** The channels a trace sent a message to, in order. *)
Definition sent_to (t : list Effect) : list nat :=
  omap (fun ev => match ev with ChannelSend c _ _ _ => Some c | _ => None end) t.

(** The keys of the registry are distinct, as those of a [dict] are. *)
Definition is_dict {V} (d : list (string * V)) : Prop := NoDup (map fst d).

(** The operations that reach a Discord client: the three methods called
    by the polling client, and the refresh tick. *)
Inductive Op :=
| OpSend (e : EEW)
| OpUpdate (e : EEW)
| OpLift (e : EEW)
| OpTick (now : nat).

Definition run_op (P : Discord.Platform) (op : Op) : M Discord.DiscordNotification unit :=
  match op with
  | OpSend e => Discord.send_eew P e ;; ret tt
  | OpUpdate e => Discord.update_eew P e
  | OpLift e => Discord.lift_eew e
  | OpTick now => Discord.update_eew_messages_loop P now
  end.

(** A sequence of operations, up to the first one that raises. *)
Fixpoint run_ops (P : Discord.Platform) (ops : list Op) : M Discord.DiscordNotification unit :=
  match ops with
  | [] => ret tt
  | op :: ops' => run_op P op ;; run_ops P ops'
  end.

(** The registry is a [dict], and the refresh loop runs whenever it holds
    an alert. *)
Definition registry_ok (s : Discord.DiscordNotification) : Prop :=
  is_dict (Discord.alerts s) /\
  (Discord.alerts s = [] \/ Discord.loop_running s = true).

(** A registry that holds the alert [A], with two destination messages,
    and the alert [B], with one. *)
Definition registry_A_B : Discord.DiscordNotification :=
  {| Discord.alerts :=
       [("A", two_messages);
        ("B", {| Discord.eew := record "B" 1 1;
                 Discord.messages := [3%nat];
                 Discord._info_embed := Some (InfoEmbed 1 false);
                 Discord._intensity_embed := None;
                 Discord.map_url := None |})];
     Discord.notification_channels := [];
     Discord.loop_running := true |}.

(** ** Helpers shared by the other clients *)

(** A value computed by code outside the coroutine, or the exception it
    raised. *)
Definition of_result {St A} (r : Result A) : M St A :=
  match r with
  | Ok a => ret a
  | Raise e => raise e
  end.

(** [d[key]] on a [dict] of the configuration. *)
Definition item {St A} (key : string) (field : option A) : M St A :=
  match field with
  | Some v => ret v
  | None => raise (KeyError key)
  end.

(** [s.removeprefix(prefix)] *)
Definition removeprefix (prefix s : string) : string :=
  if String.prefix prefix s
  then String.substring (String.length prefix) (String.length s - String.length prefix) s
  else s.

(** ** [src/notify/discord.py]: the start of the bot *)

Module Ready.

(** The value under ["mention"] in an element of
    [config["discord"]["channels"]]: a role id or a name. *)
Inductive MentionValue :=
| RoleId (n : Z)
| Name (s : string).

(** An element of [config["discord"]["channels"]]. *)
Record ChannelData := {
  data_id : option nat;
  data_mention : option MentionValue
}.

(** What the bot asks Discord for: its channel cache ([get_channel]) and
    the API ([fetch_channel], which raises for a channel that is not found
    or not accessible). *)
Record Gateway := {
  get_channel : nat -> option nat;
  fetch_channel : nat -> Result nat
}.

(** The bot: the notification client, the flag [_client_ready], and what
    it has asked the API and logged: the ids given to [fetch_channel] and
    the ids of the channels it warned about, oldest first. *)
Record Bot := {
  notification : Discord.DiscordNotification;
  _client_ready : bool;
  fetched : list nat;
  ignored : list nat
}.

Definition set_client_ready (b : bool) (s : Bot) : Bot :=
  {| notification := notification s; _client_ready := b;
     fetched := fetched s; ignored := ignored s |}.

Definition log_fetch (id : nat) (s : Bot) : Bot :=
  {| notification := notification s; _client_ready := _client_ready s;
     fetched := fetched s ++ [id]; ignored := ignored s |}.

Definition log_ignored (id : nat) (s : Bot) : Bot :=
  {| notification := notification s; _client_ready := _client_ready s;
     fetched := fetched s; ignored := ignored s ++ [id] |}.

(** [self.notification_channels.append(d)] *)
Definition append_channel (d : Discord.Destination) (s : Bot) : Bot :=
  {| notification :=
       {| Discord.alerts := Discord.alerts (notification s);
          Discord.notification_channels :=
            Discord.notification_channels (notification s) ++ [d];
          Discord.loop_running := Discord.loop_running (notification s) |};
     _client_ready := _client_ready s;
     fetched := fetched s; ignored := ignored s |}.

(** The mention sent with an alert:
    [None if not m else (f"<@&{m}>" if isinstance(m, int) else f"@{m.removeprefix('@')}")]
    for [m = data.get("mention")]. *)
Definition mention_of (m : option MentionValue) : option string :=
  match m with
  | None => None
  | Some (RoleId n) =>
      if Z.eqb n 0 then None
      else Some (String.append "<@&" (String.append (pretty n) ">"))
  | Some (Name s) =>
      if String.eqb s "" then None
      else Some (String.append "@" (removeprefix "@" s))
  end.

Section Methods.

Variable G : Gateway.

(** [get_or_fetch_channel(id, default)]; [default] is [None] here when the
    argument is left to [MISSING]. *)
Definition get_or_fetch_channel (id : nat) (default : option (option nat))
  : M Bot (option nat) :=
  r <- try (match get_channel G id with
            | Some c => ret c
            | None => modify (log_fetch id) ;; of_result (fetch_channel G id)
            end) ;;
  match r with
  | Ok c => ret (Some c)
  | Raise e =>
      match default with
      | Some d => ret d
      | None => raise e
      end
  end.

(** [for data in self.config["discord"]["channels"]: ...] *)
Fixpoint for_channels (channels : list ChannelData) : M Bot unit :=
  match channels with
  | [] => ret tt
  | data :: rest =>
      id <- item "id" (data_id data) ;;
      channel <- get_or_fetch_channel id (Some None) ;;
      match channel with
      | None => modify (log_ignored id) ;; for_channels rest
      | Some c =>
          modify (append_channel {| Discord.channel := c;
                                    Discord.mention := mention_of (data_mention data) |}) ;;
          for_channels rest
      end
  end.

(** [on_ready], for the value [channels] of
    [self.config["discord"]["channels"]] (the final log line is left
    out). *)
Definition on_ready (channels : list ChannelData) : M Bot unit :=
  ready <- gets _client_ready ;;
  if ready then ret tt
  else
    for_channels channels ;;
    modify (set_client_ready true).

End Methods.

End Ready.

(** The channel that [on_ready] registers for an element of the
    configuration, if any. *)
Definition resolve (G : Ready.Gateway) (data : Ready.ChannelData) : option Discord.Destination :=
  match Ready.data_id data with
  | None => None
  | Some id =>
      match Ready.get_channel G id, Ready.fetch_channel G id with
      | Some c, _ | None, Ok c =>
          Some {| Discord.channel := c;
                  Discord.mention := Ready.mention_of (Ready.data_mention data) |}
      | None, Raise _ => None
      end
  end.

(** The id that [on_ready] gives to [fetch_channel] for an element of the
    configuration, if any. *)
Definition asked (G : Ready.Gateway) (data : Ready.ChannelData) : option nat :=
  match Ready.data_id data with
  | None => None
  | Some id =>
      match Ready.get_channel G id with
      | Some _ => None
      | None => Some id
      end
  end.

(** A gateway that has the channel 7 in its cache, finds the channel 8
    through the API and does not find the others. *)
Definition gateway_7_8 : Ready.Gateway :=
  {| Ready.get_channel := fun id => if Nat.eqb id 7 then Some 7%nat else None;
     Ready.fetch_channel := fun id => if Nat.eqb id 8 then Ok 8%nat else Raise HTTPException |}.

Definition channels_7_8_9 : list Ready.ChannelData :=
  [ {| Ready.data_id := Some 7%nat; Ready.data_mention := Some (Ready.Name "everyone") |};
    {| Ready.data_id := Some 8%nat; Ready.data_mention := Some (Ready.RoleId 42) |};
    {| Ready.data_id := Some 9%nat; Ready.data_mention := None |} ].

(** A bot that has not been started. *)
Definition new_bot : Ready.Bot :=
  {| Ready.notification :=
       {| Discord.alerts := []; Discord.notification_channels := [];
          Discord.loop_running := false |};
     Ready._client_ready := false; Ready.fetched := []; Ready.ignored := [] |}.

(** ** [src/notification/line.py] *)

Module Line.

(** The LINE Messaging API: what [push_message], called with the token of
    the client for a channel, answers: [None] when the message is accepted,
    the exception it raises otherwise. *)
Record Api := {
  push_message : string -> string -> option Exn
}.

(** A [TextSendMessage], by the magnitude that its text shows. *)
Record TextSendMessage := {
  text_magnitude : Z
}.

(** The class attribute [notification_channels] (one list, shared by the
    instances: [__init__] appends to it and never rebinds it), the
    messages accepted by the API (token, channel, message), oldest first,
    and the number of errors logged. *)
Record World := {
  notification_channels : list string;
  pushed : list (string * string * TextSendMessage);
  errors : nat
}.

(** An instance: [self.api = LineBotApi(access_token)]. *)
Record LineNotification := {
  access_token : string
}.

(** The environment variables read by [register]. *)
Record Environ := {
  LINEBOT_ACCESS_TOKEN : option string;
  LINEBOT_CHANNEL_SECRET : option string
}.

Definition append_channel (channel_id : string) (w : World) : World :=
  {| notification_channels := notification_channels w ++ [channel_id];
     pushed := pushed w; errors := errors w |}.

Definition log_push (p : string * string * TextSendMessage) (w : World) : World :=
  {| notification_channels := notification_channels w;
     pushed := pushed w ++ [p]; errors := errors w |}.

Definition log_error (w : World) : World :=
  {| notification_channels := notification_channels w;
     pushed := pushed w; errors := S (errors w) |}.

(** [for channel_id in self.config['channels']: self.notification_channels.append(channel_id)] *)
Fixpoint append_channels (channels : list string) : M World unit :=
  match channels with
  | [] => ret tt
  | channel_id :: rest => modify (append_channel channel_id) ;; append_channels rest
  end.

(** [LineNotification.__init__], for a configuration that has the keys
    ['host'] and ['channels'], the latter with the value [channels]. *)
Definition __init__ (channels : list string) (token : string) : M World LineNotification :=
  append_channels channels ;;
  ret {| access_token := token |}.

(** [register]: no client without both environment variables. *)
Definition register (env : Environ) (channels : list string)
  : M World (option LineNotification) :=
  match LINEBOT_ACCESS_TOKEN env, LINEBOT_CHANNEL_SECRET env with
  | Some token, Some _ => self <- __init__ channels token ;; ret (Some self)
  | _, _ => modify log_error ;; ret None
  end.

Section Methods.

Variable api : Api.

(** [eew.earthquake.magnitude]: an attribute of the class
    [EarthquakeData], which is not part of these sources; reading it gives
    a value or raises. *)
Variable magnitude : EarthquakeData -> Result Z.

Variable self : LineNotification.

(** [self.api.push_message(channel_id, messages=m)] *)
Definition push (channel_id : string) (m : TextSendMessage) : M World unit :=
  match push_message api (access_token self) channel_id with
  | None => modify (log_push (access_token self, channel_id, m))
  | Some e => raise e
  end.

(** [for channel_id in self.notification_channels: ...] *)
Fixpoint push_all (channels : list string) (m : TextSendMessage) : M World unit :=
  match channels with
  | [] => ret tt
  | channel_id :: rest => push channel_id m ;; push_all rest m
  end.

(** [send_eew] *)
Definition send_eew (e : EEW) : M World unit :=
  channels <- gets notification_channels ;;
  if Nat.eqb (length channels) 0 then modify log_error
  else
    mag <- of_result (magnitude (eew_earthquake e)) ;;
    push_all channels {| text_magnitude := mag |}.

(** [update_eew] and [lift_eew]: their body is [...]. *)
Definition update_eew (e : EEW) : M World unit := ret tt.

Definition lift_eew (e : EEW) : M World unit := ret tt.

Definition client : NotificationClient World :=
  Build_NotificationClient World send_eew update_eew lift_eew.

End Methods.

End Line.

(** The messages that one alert adds to what the API has accepted. *)
Definition pushes_of (token : string) (channels : list string) (mag : Z)
  : list (string * string * Line.TextSendMessage) :=
  map (fun c => (token, c, {| Line.text_magnitude := mag |})) channels.

(** What the events of a run add to what the API has accepted, for a
    client whose pushes are all accepted. *)
Definition pushes_of_events (token : string) (channels : list string)
    (mag : EarthquakeData -> Z) (evs : list (EventKind * EEW))
  : list (string * string * Line.TextSendMessage) :=
  concat (map (fun ke : EventKind * EEW =>
                 match ke.1 with
                 | New => pushes_of token channels (mag (eew_earthquake ke.2))
                 | _ => []
                 end) evs).

(** An API that accepts every message, and one that rejects the messages
    for the channel [U2]. *)
Definition api_up : Line.Api := {| Line.push_message := fun _ _ => None |}.

Definition api_U2_down : Line.Api :=
  {| Line.push_message := fun _ c => if String.eqb c "U2" then Some HTTPException else None |}.

Definition line_world : Line.World :=
  {| Line.notification_channels := ["U1"; "U2"; "U3"]; Line.pushed := []; Line.errors := 0 |}.

Definition line_bot : Line.LineNotification := {| Line.access_token := "token" |}.

(** The world before any client is registered, and an environment with
    both credentials. *)
Definition line_nowhere : Line.World :=
  {| Line.notification_channels := []; Line.pushed := []; Line.errors := 0 |}.

Definition line_env : Line.Environ :=
  {| Line.LINEBOT_ACCESS_TOKEN := Some "token"; Line.LINEBOT_CHANNEL_SECRET := Some "secret" |}.

(** The magnitude of a record of the feed. *)
Definition mag_of (q : EarthquakeData) : Z := eq_mag (eq_params q).

(** The ids of the registry [reg] are those of the set [a]. *)
Definition registers (reg : Discord.DiscordNotification) (a : gset string) : Prop :=
  forall id, dict_get id (Discord.alerts reg) <> None <-> id ∈ a.

(** * Facts *)

(** ** The monad *)

Section MonadFacts.
Context {St : Type}.

Lemma bind_eq {A C} (m : M St A) (f : A -> M St C) s a s1 t1 :
  m s = mkOut (Ok a) s1 t1 ->
  bind m f s = mkOut (res (f a s1)) (st (f a s1)) (t1 ++ tr (f a s1)).
Proof. intros H. unfold bind. rewrite H. reflexivity. Qed.

Lemma bind_eq_raise {A C} (m : M St A) (f : A -> M St C) s e s1 t1 :
  m s = mkOut (Raise e) s1 t1 ->
  bind m f s = mkOut (Raise e) s1 t1.
Proof. intros H. unfold bind. rewrite H. reflexivity. Qed.

Lemma try_eq {A} (m : M St A) s r s1 t1 :
  m s = mkOut r s1 t1 -> try m s = mkOut (Ok r) s1 t1.
Proof. intros H. unfold try. rewrite H. reflexivity. Qed.

Lemma out_eta {A} (o : Out St A) : mkOut (res o) (st o) (tr o) = o.
Proof. destruct o; reflexivity. Qed.

Lemma bind_ret {A C} (a : A) (f : A -> M St C) s : bind (ret a) f s = f a s.
Proof. unfold bind, ret. cbn. apply out_eta. Qed.

Lemma bind_gets {A C} (g : St -> A) (f : A -> M St C) s : bind (gets g) f s = f (g s) s.
Proof. unfold bind, gets. cbn. apply out_eta. Qed.

Lemma bind_modify {C} (g : St -> St) (f : unit -> M St C) s :
  bind (modify g) f s = f tt (g s).
Proof. unfold bind, modify. cbn. apply out_eta. Qed.

Lemma bind_call {C} (ev : Effect) (f : unit -> M St C) s :
  bind (call ev) f s = mkOut (res (f tt s)) (st (f tt s)) (ev :: tr (f tt s)).
Proof. reflexivity. Qed.

Lemma bind_raise {A C} (e : Exn) (f : A -> M St C) s :
  bind (raise e) f s = mkOut (Raise e) s [].
Proof. reflexivity. Qed.

End MonadFacts.

Section ClientFacts.

Import HTTP.

Context {B : Type}.
Variable from_dict : Payload -> Result EEW.
Variable upstream : nat -> FetchOutcome.
Abbreviation Self := (HTTPEEWClient B).

Lemma set_notification_client_id (s : Self) :
  set_notification_client (_notification_client s) s = s.
Proof. destruct s; reflexivity. Qed.

Lemma on_client_eq {A} (m : NotificationClient B -> M B A) i c b (s : Self) :
  _notification_client s !! i = Some (c, b) ->
  on_client i m s =
  mkOut (res (m c b))
        (set_notification_client (<[i := (c, st (m c b))]> (_notification_client s)) s)
        (map (Notify i) (tr (m c b))).
Proof. intros H. unfold on_client. rewrite H. reflexivity. Qed.

Lemma gather_on_clients {A} (m : NotificationClient B -> M B A) :
  forall (cs2 cs1 : list (NotificationClient B * B)) (s : Self),
    _notification_client s = cs1 ++ cs2 ->
    gather_return_exceptions (imap (fun i _ => on_client (length cs1 + i) m) cs2) s =
    mkOut (Ok (map (fun cb => res (m cb.1 cb.2)) cs2))
          (set_notification_client (cs1 ++ map (fun cb => (cb.1, st (m cb.1 cb.2))) cs2) s)
          (concat (imap (fun i cb => map (Notify (length cs1 + i)) (tr (m cb.1 cb.2))) cs2)).
Proof.
  induction cs2 as [|[c b] cs2 IH]; intros cs1 s Hs.
  - simpl. rewrite <- Hs, set_notification_client_id. reflexivity.
  - assert (Hlk : _notification_client s !! (length cs1 + 0)%nat = Some (c, b)).
    { rewrite Hs, Nat.add_0_r. apply list_lookup_middle. reflexivity. }
    cbn [imap gather_return_exceptions].
    erewrite bind_eq; [|apply try_eq, on_client_eq, Hlk].
    set (s1 := set_notification_client _ s).
    assert (Hs1 : _notification_client s1 = (cs1 ++ [(c, st (m c b))]) ++ cs2).
    { subst s1. cbn [_notification_client set_notification_client].
      rewrite Hs, Nat.add_0_r.
      rewrite insert_app_r_alt by lia. rewrite Nat.sub_diag. simpl.
      rewrite <- app_assoc. reflexivity. }
    specialize (IH _ _ Hs1).
    rewrite length_app in IH. simpl in IH.
    erewrite (imap_ext _ (fun i _ => on_client (length cs1 + 1 + i) m)); last first.
    { intros i x _. simpl. f_equal. lia. }
    erewrite bind_eq; [|exact IH].
    cbn [ret res st tr map concat fst snd]. f_equal.
    + rewrite <- app_assoc. reflexivity.
    + rewrite Nat.add_0_r, app_nil_r. f_equal. f_equal. apply imap_ext. intros i x _. simpl.
      f_equal. f_equal. lia.
Qed.

(** The result of a broadcast. *)
Lemma broadcast_eq (m : NotificationClient B -> M B unit) (s : Self) :
  broadcast m s =
  mkOut (Ok (map (fun cb => res (m cb.1 cb.2)) (_notification_client s)))
        (set_notification_client
           (map (fun cb => (cb.1, st (m cb.1 cb.2))) (_notification_client s)) s)
        (concat (imap (fun i cb => map (Notify i) (tr (m cb.1 cb.2)))
                      (_notification_client s))).
Proof.
  unfold broadcast. erewrite bind_eq; [|reflexivity].
  pose proof (gather_on_clients m (_notification_client s) [] s eq_refl) as H.
  cbn [length Nat.add app] in H. cbn [gets res st tr app]. rewrite H. reflexivity.
Qed.

Ltac run_prims :=
  repeat first
    [ rewrite bind_ret | rewrite bind_gets | rewrite bind_modify
    | rewrite bind_call | rewrite bind_raise ];
  cbn [res st tr app].

Lemma calc_all_data_in_executor_eq e (s : Self) :
  calc_all_data_in_executor e s =
  mkOut (Ok (with_calc_task e (Some (calc_tasks s))))
        (set_alerts (<[eew_id e := with_calc_task e (Some (calc_tasks s))]> (_alerts s))
                    (set_calc_tasks (S (calc_tasks s)) s))
        [CalcStart (calc_tasks s) (eew_id e) (eew_serial e)].
Proof. unfold calc_all_data_in_executor. run_prims. reflexivity. Qed.

Lemma new_alert_eq d e (s : Self) :
  from_dict d = Ok e ->
  let e' := with_calc_task e (Some (calc_tasks s)) in
  new_alert from_dict d s =
  mkOut (Ok e')
        {| __session := __session s; __task := __task s;
           _alerts := <[eew_id e := e']> (_alerts s);
           _notification_client := notified (fun c => send_eew c e') (_notification_client s);
           requests := requests s; sessions := sessions s;
           calc_tasks := S (calc_tasks s) |}
        (CalcStart (calc_tasks s) (eew_id e) (eew_serial e) :: Emit New e'
           :: notify_trace (fun c => send_eew c e') (_notification_client s)).
Proof.
  intros H e'. unfold new_alert. rewrite H. cbn [lift_result]. run_prims.
  erewrite bind_eq by apply calc_all_data_in_executor_eq. run_prims.
  erewrite bind_eq by apply broadcast_eq. cbn [ret res st tr app].
  unfold set_notification_client, set_alerts, set_calc_tasks; cbn.
  rewrite insert_insert_eq, app_nil_r. reflexivity.
Qed.

Lemma new_alert_raise d e (s : Self) :
  from_dict d = Raise e -> new_alert from_dict d s = mkOut (Raise e) s [].
Proof.
  intros H. unfold new_alert. rewrite H. cbn [lift_result]. run_prims. reflexivity.
Qed.

Lemma update_alert_eq d e old t (s : Self) :
  from_dict d = Ok e ->
  _alerts s !! eew_id e = Some old ->
  _calc_task (eew_earthquake old) = Some t ->
  let e' := with_calc_task e (Some (calc_tasks s)) in
  update_alert from_dict d s =
  mkOut (Ok e')
        {| __session := __session s; __task := __task s;
           _alerts := <[eew_id e := e']> (_alerts s);
           _notification_client := notified (fun c => update_eew c e') (_notification_client s);
           requests := requests s; sessions := sessions s;
           calc_tasks := S (calc_tasks s) |}
        (CalcCancel t :: CalcStart (calc_tasks s) (eew_id e) (eew_serial e)
           :: Emit Update e'
           :: notify_trace (fun c => update_eew c e') (_notification_client s)).
Proof.
  intros H Hold Ht e'. unfold update_alert. rewrite H. cbn [lift_result]. run_prims.
  rewrite Hold. unfold cancel_calc_task. rewrite Ht. run_prims.
  erewrite bind_eq by apply calc_all_data_in_executor_eq. run_prims.
  erewrite bind_eq by apply broadcast_eq. cbn [ret res st tr app].
  unfold set_notification_client, set_alerts, set_calc_tasks; cbn.
  rewrite insert_insert_eq, app_nil_r. reflexivity.
Qed.

Lemma update_alert_raise d e (s : Self) :
  from_dict d = Raise e -> update_alert from_dict d s = mkOut (Raise e) s [].
Proof.
  intros H. unfold update_alert. rewrite H. cbn [lift_result]. run_prims. reflexivity.
Qed.

Lemma lift_alert_eq e (s : Self) :
  lift_alert e s =
  mkOut (Ok tt)
        (set_notification_client (notified (fun c => lift_eew c e) (_notification_client s)) s)
        (Emit Lift e :: notify_trace (fun c => lift_eew c e) (_notification_client s)).
Proof.
  unfold lift_alert. run_prims.
  erewrite bind_eq by apply broadcast_eq. cbn [ret res st tr app].
  rewrite app_nil_r. reflexivity.
Qed.

(** *** The events of a trace *)

Lemma events_app t1 t2 : events (t1 ++ t2) = events t1 ++ events t2.
Proof. unfold events. apply omap_app. Qed.

Lemma events_concat_imap {X} (f : nat -> X -> list Effect) (l : list X) :
  (forall i x, events (f i x) = []) -> events (concat (imap f l)) = [].
Proof.
  revert f. induction l as [|x l IH]; intros f Hf; [reflexivity|].
  cbn [imap concat]. rewrite events_app, Hf, IH; [reflexivity|].
  intros i y. apply Hf.
Qed.

Lemma events_notify_trace (m : NotificationClient B -> M B unit) cs :
  events (notify_trace m cs) = [].
Proof.
  unfold notify_trace. apply events_concat_imap.
  intros i cb. induction (tr (m cb.1 cb.2)) as [|ev t IH]; [reflexivity|exact IH].
Qed.

Lemma events_new n id sr e' (m : NotificationClient B -> M B unit) cs :
  events (CalcStart n id sr :: Emit New e' :: notify_trace m cs) = [(New, e')].
Proof.
  change (events (CalcStart n id sr :: Emit New e' :: notify_trace m cs))
    with ((New, e') :: events (notify_trace m cs)).
  rewrite events_notify_trace. reflexivity.
Qed.

Lemma events_update t n id sr e' (m : NotificationClient B -> M B unit) cs :
  events (CalcCancel t :: CalcStart n id sr :: Emit Update e' :: notify_trace m cs)
  = [(Update, e')].
Proof.
  change (events (CalcCancel t :: CalcStart n id sr :: Emit Update e' :: notify_trace m cs))
    with ((Update, e') :: events (notify_trace m cs)).
  rewrite events_notify_trace. reflexivity.
Qed.

Lemma events_lift e (m : NotificationClient B -> M B unit) cs :
  events (Emit Lift e :: notify_trace m cs) = [(Lift, e)].
Proof.
  change (events (Emit Lift e :: notify_trace m cs))
    with ((Lift, e) :: events (notify_trace m cs)).
  rewrite events_notify_trace. reflexivity.
Qed.

(** *** The lifecycle automaton *)

Lemma lifecycle_app a l1 l2 :
  lifecycle a (l1 ++ l2) = lifecycle a l1 ≫= fun a' => lifecycle a' l2.
Proof.
  revert a. induction l1 as [|[k e] l1 IH]; intros a; [reflexivity|].
  destruct k; cbn [lifecycle app]; case_decide; try reflexivity; apply IH.
Qed.

(** *** Consistency of the stored records *)

Lemma consistent_same (s s' : Self) :
  _alerts s' = _alerts s -> calc_tasks s' = calc_tasks s ->
  consistent s -> consistent s'.
Proof. unfold consistent. intros -> ->. trivial. Qed.

Lemma stored_ok_mono n k e : stored_ok n k e = true -> stored_ok (S n) k e = true.
Proof.
  unfold stored_ok. intros H. apply andb_true_iff in H as [H1 H2].
  apply andb_true_iff. split; [exact H1|].
  destruct (_calc_task (eew_earthquake e)); [|discriminate].
  apply bool_decide_eq_true in H2. apply bool_decide_eq_true. lia.
Qed.

Lemma consistent_alloc (s s' : Self) e :
  _alerts s' = <[eew_id e := with_calc_task e (Some (calc_tasks s))]> (_alerts s) ->
  calc_tasks s' = S (calc_tasks s) ->
  consistent s -> consistent s'.
Proof.
  unfold consistent. intros -> -> H. apply map_Forall_insert_2.
  - unfold stored_ok. cbn. apply andb_true_iff. split; apply bool_decide_eq_true; [reflexivity|lia].
  - intros k x Hk. apply stored_ok_mono. exact (H k x Hk).
Qed.

Lemma consistent_delete (s s' : Self) id :
  _alerts s' = delete id (_alerts s) -> calc_tasks s' = calc_tasks s ->
  consistent s -> consistent s'.
Proof.
  unfold consistent. intros -> -> H. apply map_Forall_delete. exact H.
Qed.

Lemma consistent_lookup (s : Self) k e :
  consistent s -> _alerts s !! k = Some e ->
  eew_id e = k /\ exists t, _calc_task (eew_earthquake e) = Some t /\ (t < calc_tasks s)%nat.
Proof.
  intros H Hk. specialize (H k e Hk). unfold stored_ok in H.
  apply andb_true_iff in H as [H1 H2]. apply bool_decide_eq_true in H1.
  split; [exact H1|]. destruct (_calc_task (eew_earthquake e)) as [t|]; [|discriminate].
  exists t. split; [reflexivity|]. apply bool_decide_eq_true in H2. exact H2.
Qed.


Lemma in_order_nil {A} (s : Self) (r : Result A) : consistent s -> in_order s (mkOut r s []).
Proof. intros H. split; [exact H|reflexivity]. Qed.

(** Sequencing: a first part [t1] that leads from [s] to [s1], then [o]. *)
Lemma in_order_seq {A} (s s1 : Self) t1 (o : Out Self A) :
  lifecycle (dom (_alerts s)) (events t1) = Some (dom (_alerts s1)) ->
  in_order s1 o ->
  in_order s (mkOut (res o) (st o) (t1 ++ tr o)).
Proof.
  intros H1 [Hc H2]. split; [exact Hc|]. cbn [tr st].
  rewrite events_app, lifecycle_app, H1. exact H2.
Qed.

Ltac in_order_step :=
  cbn [res st tr];
  match goal with
  | |- in_order ?s (mkOut (res (?m ?s1)) (st (?m ?s1)) (?t ++ tr (?m ?s1))) =>
      apply (in_order_seq s s1 t (m s1))
  end.

Hypothesis from_dict_keeps_id : keeps_id from_dict.

Lemma for_data_in_order data : forall chk (s : Self),
  consistent s -> in_order s (for_data from_dict data chk s).
Proof.
  induction data as [|d data IH]; intros chk s Hs.
  - apply in_order_nil, Hs.
  - cbn [for_data]. unfold getitem.
    destruct (p_id d) as [id|] eqn:Hid; [|apply in_order_nil, Hs].
    erewrite bind_eq by reflexivity. cbn [res st tr app].
    erewrite bind_eq by reflexivity. cbn [res st tr app gets].
    destruct (_alerts s !! id) as [old|] eqn:Hold.
    + destruct (p_serial d) as [n|] eqn:Hn; [|apply in_order_nil, Hs].
      erewrite bind_eq by reflexivity. cbn [res st tr app].
      case_bool_decide as Hne; [|rewrite out_eta; apply IH, Hs].
      destruct (from_dict d) as [e|x] eqn:Hfd.
      * pose proof (from_dict_keeps_id _ _ Hfd) as Hk. rewrite Hid in Hk.
        injection Hk as ->.
        destruct (consistent_lookup _ _ _ Hs Hold) as [_ (t & Ht & _)].
        erewrite bind_eq by (eapply update_alert_eq; eassumption).
        in_order_step.
        -- rewrite events_update. cbn [lifecycle eew_id with_calc_task _alerts].
           rewrite decide_True by (apply elem_of_dom; eauto).
           f_equal. rewrite dom_insert_L. apply elem_of_dom_2 in Hold.
           symmetry. apply subseteq_union_1_L, singleton_subseteq_l, Hold.
        -- apply IH. eapply consistent_alloc; [| |exact Hs]; reflexivity.
      * erewrite bind_eq_raise by (eapply update_alert_raise; eassumption).
        apply in_order_nil, Hs.
    + destruct (from_dict d) as [e|x] eqn:Hfd.
      * pose proof (from_dict_keeps_id _ _ Hfd) as Hk. rewrite Hid in Hk.
        injection Hk as ->.
        erewrite bind_eq by (eapply new_alert_eq; eassumption).
        in_order_step.
        -- rewrite events_new. cbn [lifecycle eew_id with_calc_task _alerts].
           rewrite decide_False by (apply not_elem_of_dom; exact Hold).
           f_equal. rewrite dom_insert_L. reflexivity.
        -- apply IH. eapply consistent_alloc; [| |exact Hs]; reflexivity.
      * erewrite bind_eq_raise by (eapply new_alert_raise; eassumption).
        apply in_order_nil, Hs.
Qed.


Lemma for_finished_in_order ids : forall (s : Self),
  consistent s -> in_order s (for_finished ids s).
Proof.
  induction ids as [|id ids IH]; intros s Hs.
  - apply in_order_nil, Hs.
  - cbn [for_finished].
    erewrite bind_eq by reflexivity. cbn [res st tr app].
    erewrite bind_eq by reflexivity. cbn [res st tr app gets modify].
    set (s1 := set_alerts (delete id (_alerts s)) s).
    assert (Hs1 : consistent s1) by (eapply consistent_delete; [| |exact Hs]; reflexivity).
    destruct (_alerts s !! id) as [e|] eqn:He.
    + destruct (consistent_lookup _ _ _ Hs He) as [Hid _].
      erewrite bind_eq by apply lift_alert_eq.
      in_order_step.
      * rewrite events_lift. cbn [lifecycle]. rewrite Hid.
        rewrite decide_True by (apply elem_of_dom; eauto).
        f_equal. subst s1. cbn. rewrite dom_delete_L. reflexivity.
      * apply IH. eapply consistent_same; [| |exact Hs1]; reflexivity.
    + erewrite bind_eq by reflexivity. cbn [app].
      apply (in_order_seq s s1 []).
      * cbn. f_equal. subst s1. cbn. rewrite dom_delete_L.
        apply not_elem_of_dom in He. symmetry. apply difference_disjoint_L.
        apply disjoint_singleton_r, He.
      * apply IH, Hs1.
Qed.

Lemma process_in_order data (s : Self) :
  consistent s -> in_order s (process from_dict data s).
Proof.
  intros Hs. unfold process.
  erewrite bind_eq by reflexivity. cbn [res st tr app gets].
  pose proof (for_data_in_order data (dom (_alerts s)) s Hs) as [Hc Hl].
  destruct (for_data from_dict data (dom (_alerts s)) s) as [[fin|x] s1 t1] eqn:Hfd.
  - erewrite bind_eq by exact Hfd.
    in_order_step; [exact Hl|]. apply for_finished_in_order, Hc.
  - erewrite bind_eq_raise by exact Hfd. split; assumption.
Qed.

Lemma session_get_quiet (s : Self) : quiet s (session_get upstream s).
Proof.
  unfold quiet, session_get. run_prims.
  destruct (__session s) as [ss|]; cbn; [|tauto].
  destruct (closed ss); cbn; [tauto|].
  destruct (upstream (requests s)); cbn; tauto.
Qed.

Lemma recreate_session_quiet (s : Self) : quiet s (recreate_session s).
Proof.
  unfold quiet, recreate_session. run_prims.
  destruct (__session s) as [ss|]; cbn; [|tauto].
  destruct (closed ss); cbn; tauto.
Qed.

Lemma recreate_session_ok (s : Self) : res (recreate_session s) = Ok tt.
Proof.
  unfold recreate_session. run_prims.
  destruct (__session s) as [ss|]; cbn; [|reflexivity].
  destruct (closed ss); reflexivity.
Qed.

Lemma quiet_try {A} (s : Self) (m : M Self A) : quiet s (m s) -> quiet s (try m s).
Proof. intros H. exact H. Qed.

(** A quiet step followed by a continuation that keeps the order. *)
Lemma in_order_after_quiet {A C} (s : Self) (m : M Self A) (f : A -> M Self C) :
  consistent s -> quiet s (m s) ->
  (forall a, consistent (st (m s)) -> in_order (st (m s)) (f a (st (m s)))) ->
  in_order s (bind m f s).
Proof.
  intros Hs (Ha & Hc & _ & _ & He) Hf.
  assert (Hs1 : consistent (st (m s))) by (eapply consistent_same; eassumption).
  unfold bind. destruct (res (m s)) as [a|x].
  - destruct (Hf a Hs1) as [Hc2 Hl2]. split; [exact Hc2|]. cbn [st tr].
    rewrite events_app, He. cbn [app]. rewrite <- Ha. exact Hl2.
  - split; [exact Hs1|]. cbn [st tr]. rewrite He, Ha. reflexivity.
Qed.

Lemma get_request_in_order retry : forall (s : Self),
  consistent s -> in_order s (_get_request from_dict upstream retry s).
Proof.
  induction retry as [|retry IH]; intros s Hs; cbn [_get_request];
    (apply in_order_after_quiet; [exact Hs|apply quiet_try, session_get_quiet|]);
    intros [data|x] Hs1.
  - destruct (json_truthy data); cbn [negb].
    + apply process_in_order, Hs1.
    + apply in_order_nil, Hs1.
  - split; [exact Hs1|reflexivity].
  - destruct (json_truthy data); cbn [negb].
    + apply process_in_order, Hs1.
    + apply in_order_nil, Hs1.
  - apply in_order_after_quiet; [exact Hs1|apply recreate_session_quiet|].
    intros _. apply IH.
Qed.

Lemma loop_in_order ticks : forall (s : Self),
  consistent s -> in_order s (_loop from_dict upstream ticks s).
Proof.
  induction ticks as [|ticks IH]; intros s Hs.
  - apply in_order_nil, Hs.
  - cbn [_loop].
    pose proof (get_request_in_order 3 s Hs) as [Hc Hl].
    destruct (_get_request from_dict upstream 3 s) as [r s1 t1] eqn:Hg.
    cbn [st tr] in Hc, Hl.
    erewrite bind_eq by (apply try_eq; exact Hg).
    rewrite bind_modify.
    assert (Hs2 : consistent (set_task (Some r) s1))
      by (eapply consistent_same; [| |exact Hc]; reflexivity).
    destruct (IH _ Hs2) as [Hc2 Hl2]. split; [exact Hc2|]. cbn [st tr].
    rewrite events_app, lifecycle_app, Hl. exact Hl2.
Qed.

Lemma loop_ok ticks : forall (s : Self), res (_loop from_dict upstream ticks s) = Ok tt.
Proof.
  induction ticks as [|ticks IH]; intros s; [reflexivity|].
  cbn [_loop].
  destruct (_get_request from_dict upstream 3 s) as [r s1 t1] eqn:Hg.
  erewrite bind_eq by (apply try_eq; exact Hg).
  rewrite bind_modify. cbn [res]. apply IH.
Qed.

Lemma start_in_order ticks (s : Self) :
  consistent s -> in_order s (start from_dict upstream ticks s).
Proof.
  intros Hs. unfold start.
  apply in_order_after_quiet; [exact Hs|apply recreate_session_quiet|].
  intros _. apply loop_in_order.
Qed.

Lemma init_consistent (clients : list (NotificationClient B * B)) :
  consistent (init clients).
Proof. unfold consistent, init. cbn. apply map_Forall_empty. Qed.

(** *** Polls whose fetch fails *)

Lemma quiet_seq {A C} (s : Self) (o1 : Out Self A) (o2 : Out Self C) :
  quiet s o1 -> quiet (st o1) o2 ->
  quiet s (mkOut (res o2) (st o2) (tr o1 ++ tr o2)).
Proof.
  intros (H1 & H2 & H3 & H4 & H5) (K1 & K2 & K3 & K4 & K5).
  unfold quiet. cbn [st tr]. rewrite events_app, H5, K5.
  repeat split; congruence.
Qed.

Lemma session_get_fails (s : Self) :
  (exists c, upstream (requests s) = FetchRaises c) ->
  exists x, res (session_get upstream s) = Raise x /\
            (requests s <= requests (st (session_get upstream s)) <= S (requests s))%nat.
Proof.
  intros [c Hc]. unfold session_get. rewrite bind_gets.
  destruct (__session s) as [ss|]; [|exists AttributeError; cbn; split; [reflexivity|lia]].
  destruct (closed ss); [exists ClientError; cbn; split; [reflexivity|lia]|].
  rewrite bind_gets, bind_modify, bind_call, Hc, bind_modify.
  exists ClientError. cbn. split; [reflexivity|lia].
Qed.

Lemma recreate_session_requests (s : Self) :
  requests (st (recreate_session s)) = requests s.
Proof.
  unfold recreate_session. rewrite bind_gets.
  destruct (__session s) as [ss|]; [destruct (closed ss)|];
    try reflexivity; rewrite bind_gets, !bind_modify; reflexivity.
Qed.

Lemma get_request_all_fail retry : forall (s : Self),
  fetch_fails upstream s (S retry) ->
  let o := _get_request from_dict upstream retry s in
  res o = Ok tt /\ quiet s o /\ last (tr o) = Some LogFetchFailure /\
  (requests (st o) <= requests s + S retry)%nat.
Proof.
  induction retry as [|retry IH]; intros s Hf; cbn zeta; cbn [_get_request];
    (destruct (session_get_fails s) as (x & Hx & Hr);
       [rewrite <- (Nat.add_0_r (requests s)); apply (Hf 0%nat); lia|]);
    pose proof (session_get_quiet s) as Hq;
    destruct (session_get upstream s) as [r s1 t1] eqn:Hg; cbn [res st] in Hx, Hr;
    subst r; (erewrite bind_eq by (apply try_eq; exact Hg)); cbv beta iota.
  - rewrite <- (app_nil_l [LogFetchFailure]) at 2.
    split; [reflexivity|]. split; [|split].
    + apply (quiet_seq (A:=Json) s (mkOut (Raise x) s1 t1) (mkOut (Ok tt) s1 [LogFetchFailure]));
        [exact Hq|]. unfold quiet. cbn. auto.
    + cbn [tr call]. rewrite last_snoc. reflexivity.
    + cbn [st call]. lia.
  - pose proof (recreate_session_quiet s1) as Hq1.
    pose proof (recreate_session_ok s1) as Hr1.
    pose proof (recreate_session_requests s1) as Hn1.
    destruct (recreate_session s1) as [r2 s2 t2] eqn:Hrs. cbn [res st] in Hr1, Hn1.
    subst r2. erewrite bind_eq by exact Hrs.
    assert (Hf2 : fetch_fails upstream s2 (S retry)).
    { intros k Hk. rewrite Hn1.
      destruct (decide (requests s1 = requests s)) as [->|Hne];
        [apply Hf; lia|].
      replace (requests s1 + k)%nat with (requests s + S k)%nat by lia.
      apply Hf. lia. }
    destruct (IH s2 Hf2) as (I1 & I2 & I3 & I4).
    cbn [res st tr]. split; [exact I1|]. split; [|split].
    + pose proof (quiet_seq s1 (mkOut (Ok tt) s2 t2) _ Hq1 I2) as Q12.
      pose proof (quiet_seq (A:=Json) s (mkOut (Raise x) s1 t1) _ Hq Q12) as Q.
      cbn [res st tr] in Q. exact Q.
    + rewrite !last_app, I3. reflexivity.
    + lia.
Qed.

(** *** What the diff depends on *)

Lemma respects_ret {A} (a : A) : respects (B:=B) (ret a).
Proof. intros s s' H. cbn. auto. Qed.

Lemma respects_raise {A} (e : Exn) : respects (B:=B) (raise (A:=A) e).
Proof. intros s s' H. cbn. auto. Qed.

Lemma respects_call (ev : Effect) : respects (B:=B) (call ev).
Proof. intros s s' H. cbn. auto. Qed.

Lemma respects_bind {A C} (m : M Self A) (f : A -> M Self C) :
  respects m -> (forall a, respects (f a)) -> respects (bind m f).
Proof.
  intros Hm Hf s s' H. destruct (Hm s s' H) as (H1 & H2 & H3).
  unfold bind. rewrite <- H1. destruct (res (m s)) as [a|x]; cbn [res st tr].
  - destruct (Hf a _ _ H3) as (K1 & K2 & K3). rewrite H2, K2. auto.
  - auto.
Qed.

Lemma respects_gets {A} (g : Self -> A) :
  (forall s s', same_known s s' -> g s = g s') -> respects (gets g).
Proof. intros Hg s s' H. cbn. rewrite (Hg s s' H). auto. Qed.

Lemma respects_modify (g : Self -> Self) :
  (forall s s', same_known s s' -> same_known (g s) (g s')) -> respects (modify g).
Proof. intros Hg s s' H. cbn. auto. Qed.

Lemma respects_broadcast (m : NotificationClient B -> M B unit) : respects (B:=B) (broadcast m).
Proof.
  intros s s' (H1 & H2 & H3). rewrite !broadcast_eq. cbn [res st tr].
  rewrite H3. repeat split; assumption.
Qed.

Ltac respects_leaf :=
  first
    [ apply respects_broadcast
    | apply respects_ret | apply respects_raise | apply respects_call
    | apply respects_gets; intros ? ? (? & ? & ?); congruence
    | apply respects_modify; intros ? ? (? & ? & ?); repeat split; cbn; congruence ].

Ltac respects_tac :=
  repeat first
    [ respects_leaf
    | match goal with
      | |- respects (match ?x with _ => _ end) => destruct x
      | |- respects (bind _ _) => apply respects_bind; [|intros ?]
      end ].

Lemma respects_new_alert d : respects (B:=B) (new_alert from_dict d).
Proof.
  unfold new_alert, calc_all_data_in_executor, lift_result. respects_tac.
Qed.

Lemma respects_update_alert d : respects (B:=B) (update_alert from_dict d).
Proof.
  unfold update_alert, calc_all_data_in_executor, lift_result, cancel_calc_task.
  respects_tac.
Qed.

Lemma respects_lift_alert e : respects (B:=B) (lift_alert e).
Proof. unfold lift_alert. respects_tac. Qed.

Lemma respects_for_data data : forall chk, respects (B:=B) (for_data from_dict data chk).
Proof.
  induction data as [|d data IH]; intros chk; cbn [for_data]; [apply respects_ret|].
  unfold getitem.
  repeat first
    [ apply IH | apply respects_new_alert | apply respects_update_alert
    | progress respects_tac ].
Qed.

Lemma respects_for_finished ids : respects (B:=B) (for_finished ids).
Proof.
  induction ids as [|id ids IH]; cbn [for_finished]; [apply respects_ret|].
  repeat first [ apply IH | apply respects_lift_alert | progress respects_tac ].
Qed.

Lemma respects_process data : respects (B:=B) (process from_dict data).
Proof.
  unfold process.
  repeat first
    [ apply respects_for_data | apply respects_for_finished | progress respects_tac ].
Qed.

(** *** The events of the diff *)

Lemma omap_ext_in {X Y} (f g : X -> option Y) (l : list X) :
  (forall x, x ∈ l -> f x = g x) -> omap f l = omap g l.
Proof.
  induction l as [|x l IH]; intros H; [reflexivity|].
  cbn. rewrite (H x) by left. rewrite IH; [reflexivity|].
  intros y Hy. apply H. right. exact Hy.
Qed.

Lemma expected_insert_ne known id e d :
  p_id d ≠ Some id -> expected (<[id := e]> known) d = expected known d.
Proof.
  intros Hne. unfold expected. destruct (p_id d) as [id'|]; [|reflexivity].
  rewrite lookup_insert_ne by congruence. reflexivity.
Qed.

Lemma omap_cons_Some {X Y} (f : X -> option Y) x y l :
  f x = Some y -> omap f (x :: l) = y :: omap f l.
Proof. intros H. cbn. rewrite H. reflexivity. Qed.

Lemma omap_cons_None {X Y} (f : X -> option Y) x l :
  f x = None -> omap f (x :: l) = omap f l.
Proof. intros H. cbn. rewrite H. reflexivity. Qed.

Lemma for_data_events data : forall chk (s : Self),
  consistent s -> Forall (well_formed from_dict) data -> NoDup (map p_id data) ->
  exists fin, res (for_data from_dict data chk s) = Ok fin /\
    kinds (events (tr (for_data from_dict data chk s))) = omap (expected (_alerts s)) data.
Proof.
  induction data as [|d data IH]; intros chk s Hs Hwf Hnd.
  - exists chk. split; reflexivity.
  - apply Forall_cons in Hwf as [(Hid & Hser & Hok) Hwf].
    cbn [map] in Hnd. apply NoDup_cons in Hnd as [Hnin Hnd].
    destruct Hid as [id Hid]. destruct Hser as [n Hn].
    destruct (from_dict d) as [e|] eqn:Hfd; [|discriminate].
    pose proof (from_dict_keeps_id _ _ Hfd) as Hk. rewrite Hid in Hk. injection Hk as ->.
    assert (Hrest : forall e', omap (expected (<[eew_id e := e']> (_alerts s))) data
                               = omap (expected (_alerts s)) data).
    { intros e'. apply omap_ext_in. intros d' Hd'.
      apply expected_insert_ne. intros Heq. apply Hnin. rewrite Hid, <- Heq.
      apply list_elem_of_fmap_2. exact Hd'. }
    cbn [for_data]. rewrite Hid, Hn. unfold getitem.
    rewrite bind_ret, bind_gets.
    destruct (_alerts s !! eew_id e) as [old|] eqn:Hold.
    + rewrite bind_ret. case_bool_decide as Hne.
      * destruct (consistent_lookup _ _ _ Hs Hold) as [_ (t & Ht & _)].
        erewrite bind_eq by (eapply update_alert_eq; eassumption).
        cbn [res st tr]. set (s1 := Build_HTTPEEWClient _ _ _ _ _ _ _ _).
        destruct (IH (chk ∖ {[eew_id e]}) s1) as (fin & Hr & Hev); [|exact Hwf|exact Hnd|].
        { eapply consistent_alloc; [| |exact Hs]; reflexivity. }
        exists fin. split; [exact Hr|].
        rewrite events_app, events_update.
        rewrite (omap_cons_Some _ d (Update, eew_id e)); last first.
        { unfold expected. rewrite Hid, Hold, Hn, bool_decide_eq_true_2; auto. }
        change (kinds ([(Update, with_calc_task e (Some (calc_tasks s)))] ++ ?l))
          with ((Update, eew_id e) :: kinds l).
        rewrite Hev. subst s1. cbn [_alerts]. rewrite Hrest. reflexivity.
      * destruct (IH (chk ∖ {[eew_id e]}) s Hs Hwf Hnd) as (fin & Hr & Hev).
        exists fin. split; [exact Hr|]. rewrite Hev.
        rewrite omap_cons_None; [reflexivity|].
        unfold expected. rewrite Hid, Hold, Hn, bool_decide_eq_false_2; auto.
    + erewrite bind_eq by (eapply new_alert_eq; eassumption).
      cbn [res st tr]. set (s1 := Build_HTTPEEWClient _ _ _ _ _ _ _ _).
      destruct (IH (chk ∖ {[eew_id e]}) s1) as (fin & Hr & Hev); [|exact Hwf|exact Hnd|].
      { eapply consistent_alloc; [| |exact Hs]; reflexivity. }
      exists fin. split; [exact Hr|].
      rewrite events_app, events_new.
      rewrite (omap_cons_Some _ d (New, eew_id e)); last first.
      { unfold expected. rewrite Hid, Hold. reflexivity. }
      change (kinds ([(New, with_calc_task e (Some (calc_tasks s)))] ++ ?l))
        with ((New, eew_id e) :: kinds l).
      rewrite Hev. subst s1. cbn [_alerts]. rewrite Hrest. reflexivity.
Qed.

Lemma for_finished_lifts ids : forall (s : Self),
  Forall (fun ke => ke.1 = Lift) (events (tr (for_finished ids s))).
Proof.
  induction ids as [|id ids IH]; intros s; [constructor|].
  cbn [for_finished]. rewrite bind_gets, bind_modify.
  destruct (_alerts s !! id) as [e|].
  - erewrite bind_eq by apply lift_alert_eq. cbn [tr].
    rewrite events_app, events_lift. constructor; [reflexivity|apply IH].
  - rewrite bind_ret. apply IH.
Qed.

Lemma get_request_truthy retry (s : Self) data :
  fetch_returns upstream s data -> json_truthy data = true ->
  _get_request from_dict upstream retry s =
  let o := process from_dict (json_items data) (set_requests (S (requests s)) s) in
  mkOut (res o) (st o) (SessionGet :: tr o).
Proof.
  intros [(ss & Hss & Hop) Hup] Hf.
  assert (Hg : session_get upstream s =
               mkOut (Ok data) (set_requests (S (requests s)) s) [SessionGet]).
  { unfold session_get. rewrite bind_gets, Hss, Hop, bind_gets, bind_modify, bind_call.
    rewrite Hup. reflexivity. }
  destruct retry; cbn [_get_request];
    (erewrite bind_eq by (apply try_eq; exact Hg)); cbv beta iota zeta; rewrite Hf;
    reflexivity.
Qed.

Lemma emitted_kinds k id t :
  emitted k id t = true <-> (k, id) ∈ kinds (events t).
Proof.
  unfold emitted, kinds. induction (events t) as [|[k0 e0] l IH]; cbn [existsb map].
  - split; [discriminate|]. intros H. inversion H.
  - rewrite orb_true_iff, IH, elem_of_cons, bool_decide_eq_true. cbn [fst snd].
    split; (intros [H|H]; [left|right; exact H]).
    + destruct H as [-> ->]. reflexivity.
    + injection H as -> ->. split; reflexivity.
Qed.

Lemma NoDup_fmap_elem_eq {X Y} (f : X -> Y) (l : list X) x y :
  NoDup (map f l) -> x ∈ l -> y ∈ l -> f x = f y -> x = y.
Proof.
  induction l as [|a l IH]; intros Hnd Hx Hy Hf; [inversion Hx|].
  cbn [map] in Hnd. apply NoDup_cons in Hnd as [Hnin Hnd].
  apply elem_of_cons in Hx as [->|Hx]; apply elem_of_cons in Hy as [->|Hy].
  - reflexivity.
  - exfalso. apply Hnin. rewrite Hf. apply list_elem_of_fmap_2. exact Hy.
  - exfalso. apply Hnin. rewrite <- Hf. apply list_elem_of_fmap_2. exact Hx.
  - apply IH; assumption.
Qed.

(** The events of a poll that fetched a well-formed snapshot without
    repeated ids: what the diff decides for each entry, then lifts. *)
Lemma get_request_kinds retry (s : Self) data k id :
  consistent s -> fetch_returns upstream s (JArray data) ->
  Forall (well_formed from_dict) data -> NoDup (map p_id data) ->
  data <> [] -> k <> Lift ->
  (emitted k id (tr (_get_request from_dict upstream retry s)) = true
   <-> (k, id) ∈ omap (expected (_alerts s)) data).
Proof.
  intros Hs Hfetch Hwf Hnd Hne Hk.
  rewrite (get_request_truthy retry s (JArray data) Hfetch)
    by (destruct data; [congruence|reflexivity]).
  cbv zeta. cbn [tr json_items]. unfold process. rewrite bind_gets.
  set (s0 := set_requests (S (requests s)) s).
  destruct (for_data_events data (dom (_alerts s0)) s0) as (fin & Hr & Hev);
    [exact Hs|exact Hwf|exact Hnd|].
  destruct (for_data from_dict data (dom (_alerts s0)) s0) as [r s1 t1] eqn:Hfd.
  cbn [res tr] in Hr, Hev. subst r.
  erewrite bind_eq by exact Hfd. cbn [tr].
  rewrite emitted_kinds.
  change (events (SessionGet :: ?t)) with (events t).
  rewrite events_app. unfold kinds at 1. rewrite map_app. fold (kinds (events t1)).
  rewrite Hev. rewrite elem_of_app. split; [|auto].
  intros [H|H]; [exact H|]. exfalso.
  apply list_elem_of_fmap in H as ([k' e'] & Heq & Hin).
  pose proof (for_finished_lifts (elements fin) s1) as Hl.
  rewrite Forall_forall in Hl. specialize (Hl _ Hin). cbn in Heq, Hl. congruence.
Qed.

Lemma get_request_falsy retry (s : Self) data :
  fetch_returns upstream s data -> json_truthy data = false ->
  _get_request from_dict upstream retry s =
  mkOut (Ok tt) (set_requests (S (requests s)) s) [SessionGet].
Proof.
  intros [(ss & Hss & Hop) Hup] Hf.
  assert (Hg : session_get upstream s =
               mkOut (Ok data) (set_requests (S (requests s)) s) [SessionGet]).
  { unfold session_get. rewrite bind_gets, Hss, Hop, bind_gets, bind_modify, bind_call.
    rewrite Hup. reflexivity. }
  destruct retry; cbn [_get_request];
    (erewrite bind_eq by (apply try_eq; exact Hg)); cbv beta iota; rewrite Hf; reflexivity.
Qed.

End ClientFacts.

(** ** The lifecycle automaton and the claim's wording *)

Lemma announced_cons id ke pre :
  announced id pre -> announced id (ke :: pre).
Proof.
  intros (pre1 & e0 & pre2 & -> & Hid & Hl).
  exists (ke :: pre1), e0, pre2. auto.
Qed.

Lemma lifecycle_sound evs : forall a a',
  lifecycle a evs = Some a' ->
  forall pre k e post, evs = pre ++ (k, e) :: post -> k <> New ->
    (eew_id e ∈ a /\ forall e1, (Lift, e1) ∈ pre -> eew_id e1 <> eew_id e)
    \/ announced (eew_id e) pre.
Proof.
  induction evs as [|[k0 e0] evs IH]; intros a a' Hl pre k e post Heq Hk.
  - destruct pre; discriminate.
  - destruct pre as [|ke pre].
    + injection Heq as -> -> ->. left. split; [|intros e1 He1; inversion He1].
      destruct k; [congruence| |]; cbn in Hl; case_decide; (assumption || discriminate).
    + injection Heq as <- Heq.
      destruct k0; cbn in Hl; case_decide; try discriminate;
        (destruct (IH _ _ Hl _ _ _ _ Heq Hk) as [[Hin Hnl]|Han];
         [|right; apply announced_cons, Han]).
      * apply elem_of_union in Hin as [Hin|Hin].
        -- apply elem_of_singleton in Hin. right.
           exists [], e0, pre. split; [reflexivity|]. split; [congruence|exact Hnl].
        -- left. split; [exact Hin|]. intros e1 He1.
           apply elem_of_cons in He1 as [He1|He1]; [discriminate|auto].
      * left. split; [exact Hin|]. intros e1 He1.
        apply elem_of_cons in He1 as [He1|He1]; [discriminate|auto].
      * apply elem_of_difference in Hin as [Hin Hne]. left. split; [exact Hin|].
        intros e1 He1. apply elem_of_cons in He1 as [He1|He1]; [|auto].
        injection He1 as ->. intros Heq'. apply Hne. apply elem_of_singleton. congruence.
Qed.

Lemma lifecycle_announced evs a' pre k e post :
  lifecycle ∅ evs = Some a' -> evs = pre ++ (k, e) :: post -> k <> New ->
  announced (eew_id e) pre.
Proof.
  intros Hl Heq Hk.
  destruct (lifecycle_sound _ _ _ Hl _ _ _ _ Heq Hk) as [[Hin _]|H]; [|exact H].
  exfalso. exact (not_elem_of_empty _ Hin).
Qed.

(** ** More on the monad *)

Lemma bind_assoc {St A C D} (m : M St A) (f : A -> M St C) (g : C -> M St D) s :
  bind (bind m f) g s = bind m (fun a => bind (f a) g) s.
Proof.
  unfold bind. destruct (res (m s)) as [a|x]; cbn [res st tr]; [|reflexivity].
  destruct (res (f a (st (m s)))) as [c|y]; cbn [res st tr]; [|reflexivity].
  rewrite app_assoc. reflexivity.
Qed.

Lemma bind_ext {St A C} (m : M St A) (f g : A -> M St C) s :
  (forall a s', f a s' = g a s') -> bind m f s = bind m g s.
Proof.
  intros H. unfold bind. destruct (res (m s)) as [a|x]; [|reflexivity].
  rewrite H. reflexivity.
Qed.

(** ** More on the polling client *)

Lemma EEW_from_dict_keeps_id : keeps_id EEW_from_dict.
Proof.
  intros d e H. unfold EEW_from_dict in H.
  destruct (p_id d), (p_serial d), (p_final d), (p_eq d); try discriminate.
  injection H as <-. reflexivity.
Qed.

Lemma knows_A2_consistent : consistent knows_A2.
Proof.
  unfold consistent, knows_A2. cbn [_alerts calc_tasks].
  apply map_Forall_singleton. reflexivity.
Qed.

Lemma session_get_fetch_effects {B} upstream (s : HTTPEEWClient B) :
  Forall (fun ev => fetch_effect ev = true) (tr (session_get upstream s)).
Proof.
  unfold session_get. rewrite bind_gets.
  destruct (__session s) as [ss|]; [|constructor].
  destruct (closed ss); [constructor|].
  rewrite bind_gets, bind_modify, bind_call. cbn [tr].
  constructor; [reflexivity|].
  destruct (upstream (requests s)); [rewrite bind_modify|]; constructor.
Qed.

Lemma recreate_session_fetch_effects {B} (s : HTTPEEWClient B) :
  Forall (fun ev => fetch_effect ev = true) (tr (recreate_session s)).
Proof.
  unfold recreate_session. rewrite bind_gets.
  destruct (__session s) as [ss|]; [destruct (closed ss)|];
    first [ rewrite bind_gets, !bind_modify; repeat constructor | apply Forall_nil_2 ].
Qed.

Lemma get_request_all_fail_trace {B} from_dict upstream retry : forall (s : HTTPEEWClient B),
  fetch_fails upstream s (S retry) ->
  Forall (fun ev => fetch_effect ev = true) (tr (_get_request from_dict upstream retry s)).
Proof.
  induction retry as [|retry IH]; intros s Hf; cbn [_get_request];
    (destruct (session_get_fails upstream s) as (x & Hx & Hr);
       [rewrite <- (Nat.add_0_r (requests s)); apply (Hf 0%nat); lia|]);
    pose proof (session_get_fetch_effects upstream s) as Ht;
    destruct (session_get upstream s) as [r s1 t1] eqn:Hg; cbn [res st tr] in Hx, Hr, Ht;
    subst r; (erewrite bind_eq by (apply try_eq; exact Hg)); cbv beta iota; cbn [tr].
  - apply Forall_app. split; [exact Ht|repeat constructor].
  - pose proof (recreate_session_fetch_effects s1) as Ht1.
    pose proof (recreate_session_ok s1) as Hr1.
    pose proof (recreate_session_requests s1) as Hn1.
    destruct (recreate_session s1) as [r2 s2 t2] eqn:Hrs. cbn [res st tr] in Hr1, Hn1, Ht1.
    subst r2. erewrite bind_eq by exact Hrs. cbn [tr].
    apply Forall_app. split; [exact Ht|]. apply Forall_app. split; [exact Ht1|].
    apply IH. intros k Hk. rewrite Hn1.
    destruct (decide (requests s1 = requests s)) as [->|Hne]; [apply Hf; lia|].
    replace (requests s1 + k)%nat with (requests s + S k)%nat by lia.
    apply Hf. lia.
Qed.

Lemma expected_id known d k id : expected known d = Some (k, id) -> p_id d = Some id.
Proof.
  unfold expected. destruct (p_id d) as [id'|]; [|discriminate].
  destruct (known !! id') as [old|].
  - destruct (p_serial d); [|discriminate]. case_bool_decide; [|discriminate].
    intros He. injection He as _ ->. reflexivity.
  - intros He. injection He as _ ->. reflexivity.
Qed.

Lemma expected_unique known data d k id :
  NoDup (map p_id data) -> d ∈ data -> p_id d = Some id ->
  ((k, id) ∈ omap (expected known) data <-> expected known d = Some (k, id)).
Proof.
  intros Hnd Hd Hid. rewrite list_elem_of_omap. split.
  - intros (d' & Hd' & He). pose proof (expected_id _ _ _ _ He) as Hid'.
    rewrite (NoDup_fmap_elem_eq p_id data d d' Hnd Hd Hd'); [exact He|congruence].
  - intros He. exists d. split; assumption.
Qed.

(** The loop over a snapshot is the loop over its first entries, then the
    loop over the others. *)
Lemma for_data_app {B} from_dict pre rest : forall chk (s : HTTPEEWClient B),
  for_data from_dict (pre ++ rest) chk s
  = bind (for_data from_dict pre chk) (for_data from_dict rest) s.
Proof.
  induction pre as [|d pre IH]; intros chk s.
  - cbn [app for_data]. rewrite bind_ret. reflexivity.
  - cbn [app for_data]. rewrite bind_assoc. apply bind_ext. intros id s1.
    rewrite bind_assoc. apply bind_ext. intros [old|] s2.
    + rewrite bind_assoc. apply bind_ext. intros serial s3.
      case_bool_decide.
      * rewrite bind_assoc. apply bind_ext. intros _ s4. apply IH.
      * apply IH.
    + rewrite bind_assoc. apply bind_ext. intros _ s3. apply IH.
Qed.

(** An entry that the diff has to turn into a record, and that
    [from_dict] rejects, ends the loop with the exception. *)
Lemma for_data_malformed {B} from_dict d rest chk (s : HTTPEEWClient B) e :
  from_dict d = Raise e -> expected (_alerts s) d <> None ->
  for_data from_dict (d :: rest) chk s = mkOut (Raise e) s [].
Proof.
  intros Hfd Hexp. unfold expected in Hexp. cbn [for_data]. unfold getitem.
  destruct (p_id d) as [id|]; [|congruence].
  rewrite bind_ret, bind_gets.
  destruct (_alerts s !! id) as [old|].
  - destruct (p_serial d) as [n|]; [|congruence].
    rewrite bind_ret. case_bool_decide; [|congruence].
    erewrite bind_eq_raise by (apply update_alert_raise; exact Hfd). reflexivity.
  - erewrite bind_eq_raise by (apply new_alert_raise; exact Hfd). reflexivity.
Qed.

(** ** The message set *)

Section MessageSetFacts.

Import Discord.

Variable P : Platform.

Lemma edit_singal_message_eq now msg emb (self : EEWMessages) :
  _edit_singal_message P now msg emb self =
  mkOut (Ok (edit_reply (message_edit P now msg))) self [guarded_edit P now self emb msg].
Proof.
  unfold _edit_singal_message, guarded_edit. rewrite bind_gets.
  unfold bind, try, message_edit_call. cbn [res st tr].
  destruct (message_edit P now msg); reflexivity.
Qed.

Lemma message_edit_call_returns now msg info emb file (self : EEWMessages) u :
  message_edit P now msg = EditReturns u ->
  message_edit_call P now msg info emb file self =
  mkOut (Ok u) self [MessageEdit msg (option_list info ++ [emb]) file (EditReturns u)].
Proof. intros H. unfold message_edit_call. rewrite H. reflexivity. Qed.


Lemma gather_cons_ok {St A} (c : M St A) cs (s : St) a l t t' :
  c s = mkOut (Ok a) s t -> gather cs s = mkOut (Ok l) s t' ->
  gather (c :: cs) s = mkOut (Ok (a :: l)) s (t ++ t').
Proof.
  intros Hc Hcs. cbn [gather].
  erewrite bind_eq by (apply try_eq; exact Hc).
  erewrite bind_eq by (apply try_eq; exact Hcs).
  cbn [ret res st tr]. rewrite app_nil_r. reflexivity.
Qed.

Lemma gather_edits now emb (self : EEWMessages) msgs :
  gather (map (fun msg => _edit_singal_message P now msg emb) msgs) self =
  mkOut (Ok (map (fun msg => edit_reply (message_edit P now msg)) msgs)) self
        (map (guarded_edit P now self emb) msgs).
Proof.
  induction msgs as [|m msgs IH]; [reflexivity|].
  cbn [map].
  rewrite (gather_cons_ok _ _ self _ _ _ _ (edit_singal_message_eq now m emb self) IH).
  reflexivity.
Qed.

(** [edit] when the URL of the map is cached. *)
Lemma edit_cached now (self : EEWMessages) u m0 rest :
  map_url self = Some u -> str_truthy (Some u) = true ->
  messages self = m0 :: rest ->
  let self' := set_intensity_embed (Some (with_url self u)) self in
  edit P now self =
  mkOut (Ok tt) self'
        (guarded_edit P now self' (rendered self) m0
           :: map (guarded_edit P now self' (with_url self u)) rest).
Proof.
  intros Hu Ht Hm self'. unfold edit, intensity_embed, messages_0.
  rewrite bind_assoc, bind_gets, bind_assoc, bind_modify, bind_ret, bind_gets.
  cbn [map_url set_intensity_embed]. rewrite Hu, Ht. cbn [negb].
  rewrite bind_assoc, bind_gets. cbn [messages set_intensity_embed]. rewrite Hm.
  rewrite bind_ret, bind_modify, bind_gets.
  cbn [messages set_intensity_embed tail default set_image].
  rewrite Hm. cbn [tail].
  erewrite bind_eq; last first.
  { eapply gather_cons_ok; [apply edit_singal_message_eq|apply gather_edits]. }
  cbn [ret res st tr]. rewrite app_nil_r. reflexivity.
Qed.

(** [edit] when no URL is cached and the platform accepts the upload. *)
Lemma edit_upload_accepted now (self : EEWMessages) m0 rest u :
  str_truthy (map_url self) = false ->
  messages self = m0 :: rest ->
  message_edit P now m0 = EditReturns u ->
  let self' := set_intensity_embed (Some (with_url self u))
                 (set_map_url (Some u) (set_intensity_embed (Some (rendered self)) self)) in
  edit P now self =
  mkOut (Ok tt) self'
        (MessageEdit m0 (option_list (_info_embed self) ++ [rendered self])
                     (Some (eew_id (eew self), eew_serial (eew self))) (EditReturns u)
           :: map (guarded_edit P now self' (with_url self u)) rest).
Proof.
  intros Ht Hm Hr self'. unfold edit, intensity_embed, messages_0.
  rewrite bind_assoc, bind_gets, bind_assoc, bind_modify, bind_ret, bind_gets.
  cbn [map_url set_intensity_embed]. rewrite Ht. cbn [negb].
  rewrite bind_assoc, bind_gets. cbn [messages set_intensity_embed]. rewrite Hm.
  rewrite bind_ret, bind_gets, bind_gets.
  cbn [_info_embed eew set_intensity_embed].
  erewrite bind_eq by (apply message_edit_call_returns; exact Hr).
  rewrite bind_modify.
  rewrite bind_assoc, bind_gets, bind_assoc, bind_modify, bind_ret, bind_modify, bind_gets.
  cbn [messages set_intensity_embed set_map_url eew tail set_image].
  rewrite Hm. cbn [tail].
  erewrite bind_eq by apply gather_edits.
  cbn [ret res st tr]. rewrite app_nil_r. reflexivity.
Qed.


(** [edit] on a set without messages. *)
Lemma edit_no_message now (self : EEWMessages) :
  messages self = [] ->
  edit P now self =
  mkOut (Raise IndexError) (set_intensity_embed (Some (rendered self)) self) [].
Proof.
  intros Hm. unfold edit, intensity_embed, messages_0.
  rewrite bind_assoc, bind_gets, bind_assoc, bind_modify, bind_ret, bind_gets.
  cbn [map_url set_intensity_embed].
  destruct (negb (str_truthy (map_url self)));
    rewrite bind_assoc, bind_gets; cbn [messages set_intensity_embed]; rewrite Hm;
    rewrite bind_raise; reflexivity.
Qed.









Lemma edited_guarded now self emb msgs :
  edited (map (guarded_edit P now self emb) msgs) = msgs.
Proof.
  induction msgs as [|m msgs IH]; [reflexivity|].
  cbn [map]. unfold edited in *. cbn [omap guarded_edit]. cbn. f_equal. exact IH.
Qed.







Lemma str_truthy_Some (o : option string) :
  str_truthy o = true -> exists u, o = Some u /\ u <> "".
Proof.
  destruct o as [u|]; [|discriminate]. intros H. exists u. split; [reflexivity|].
  intros ->. discriminate.
Qed.








Lemma update_eew_data_eq e (self : EEWMessages) :
  update_eew_data e self =
  mkOut (Ok tt)
        (set_info_embed (Some (InfoEmbed (eew_serial e) (eew_final e)))
           (set_map_url None (set_eew e self)))
        [CalcCityMaxIntensity (eew_id e) (eew_serial e); DrawMap (eew_id e) (eew_serial e)].
Proof.
  unfold update_eew_data, info_embed.
  rewrite !bind_modify, bind_assoc, bind_gets, bind_assoc, bind_modify, bind_ret, bind_call.
  reflexivity.
Qed.


End MessageSetFacts.

(** ** The registry of message sets *)

Section RegistryFacts.

Import Discord.

Variable P : Platform.

Lemma send_singal_message_eq c mention (self : EEWMessages) :
  _send_singal_message P c mention self =
  mkOut (Ok (channel_send P (eew self) c)) self
        [ChannelSend c mention (_info_embed self) (channel_send P (eew self) c)].
Proof.
  unfold _send_singal_message. rewrite bind_gets.
  unfold bind, try, channel_send_call. cbn [res st tr].
  destruct (channel_send P (eew self) c); reflexivity.
Qed.

Lemma gather_sends (self : EEWMessages) chans :
  gather (map (fun d => _send_singal_message P (channel d) (mention d)) chans) self =
  mkOut (Ok (map (fun d => channel_send P (eew self) (channel d)) chans)) self
        (map (fun d => ChannelSend (channel d) (mention d) (_info_embed self)
                         (channel_send P (eew self) (channel d))) chans).
Proof.
  induction chans as [|d chans IH]; [reflexivity|].
  cbn [map].
  rewrite (gather_cons_ok _ _ self _ _ _ _
             (send_singal_message_eq (channel d) (mention d) self) IH).
  reflexivity.
Qed.

Lemma send_eq {St} e chans (s : St) :
  send P e chans s =
  mkOut (Ok (sent P e chans)) s
        (map (fun d => ChannelSend (channel d) (mention d)
                         (Some (InfoEmbed (eew_serial e) (eew_final e)))
                         (channel_send P e (channel d))) chans).
Proof.
  unfold send.
  assert (H : (info_embed ;;
               ms <- gather (map (fun d => _send_singal_message P (channel d) (mention d))
                               chans) ;;
               modify (set_messages (filter_none ms))) (__init__ e [])
              = mkOut (Ok tt) (sent P e chans)
                  (map (fun d => ChannelSend (channel d) (mention d)
                                   (Some (InfoEmbed (eew_serial e) (eew_final e)))
                                   (channel_send P e (channel d))) chans)).
  { unfold info_embed.
    rewrite bind_assoc, bind_gets, bind_assoc, bind_modify, bind_ret.
    erewrite bind_eq by apply gather_sends. cbn [modify res st tr].
    rewrite app_nil_r. reflexivity. }
  unfold bind at 1. unfold with_object. rewrite H. cbn [res st tr ret snd].
  rewrite app_nil_r. reflexivity.
Qed.

Lemma filter_none_all_None {A} (l : list (option A)) :
  Forall (fun x => x = None) l -> filter_none l = [].
Proof.
  induction 1 as [|x l Hx _ IH]; [reflexivity|].
  subst x. unfold filter_none in *. cbn [omap list_omap]. exact IH.
Qed.

Lemma dict_get_set {V} k (v : V) d : dict_get k (dict_set k v d) = Some v.
Proof.
  induction d as [|[k' v'] d IH]; cbn [dict_set dict_get].
  - rewrite String.eqb_refl. reflexivity.
  - destruct (String.eqb k k') eqn:E; cbn [dict_get];
      [rewrite String.eqb_refl; reflexivity|rewrite E; exact IH].
Qed.

Lemma dict_set_In {V} k (v : V) d : In (k, v) (dict_set k v d).
Proof.
  induction d as [|[k' v'] d IH]; cbn [dict_set]; [left; reflexivity|].
  destruct (String.eqb k k'); [left; reflexivity|right; exact IH].
Qed.

Lemma dict_set_not_nil {V} k (v : V) d : dict_set k v d <> [].
Proof. destruct d as [|[k' v'] d]; cbn [dict_set]; [|destruct (String.eqb k k')]; discriminate. Qed.

(** A tick that reaches a set whose edit raises does not complete. *)
Lemma edit_all_raises now id m entries : forall (s : DiscordNotification),
  In (id, m) entries -> is_ok (res (edit P now m)) = false ->
  is_ok (res (edit_all P now entries s)) = false.
Proof.
  induction entries as [|[id0 m0] entries IH]; intros s Hin Hr; [destruct Hin|].
  cbn [edit_all]. unfold bind.
  destruct (res (on_alert id0 m0 (edit P now) s)) as [[]|x] eqn:Ho; [|reflexivity].
  cbn [res]. destruct Hin as [Heq|Hin].
  - injection Heq as -> ->. unfold on_alert in Ho. cbn [res] in Ho.
    rewrite Ho in Hr. discriminate.
  - apply IH; assumption.
Qed.

Lemma send_eew_eq e (s : DiscordNotification) :
  send_eew P e s =
  mkOut (Ok (sent P e (notification_channels s)))
        (set_loop_running true
           (set_alerts (dict_set (eew_id e) (sent P e (notification_channels s)) (alerts s)) s))
        (map (fun d => ChannelSend (channel d) (mention d)
                         (Some (InfoEmbed (eew_serial e) (eew_final e)))
                         (channel_send P e (channel d))) (notification_channels s)
         ++ CalcCityMaxIntensity (eew_id e) (eew_serial e)
         :: DrawMap (eew_id e) (eew_serial e)
         :: (if loop_running s then [] else [LoopStart])).
Proof.
  unfold send_eew. rewrite bind_gets.
  erewrite bind_eq by apply send_eq. rewrite bind_modify, !bind_call, bind_gets.
  cbn [loop_running set_alerts].
  destruct (loop_running s) eqn:Hrun; cbn [negb].
  - unfold bind, ret. cbn [res st tr app]. f_equal.
    destruct s; cbn in *; subst; reflexivity.
  - rewrite bind_assoc, bind_call, bind_modify. reflexivity.
Qed.

End RegistryFacts.


(** * The claims *)

(** ** C1 *)

(** C1, on the code: the client knows the alert [A] and its fetch
    succeeds with an empty snapshot.  [_get_request] returns at
    [if not data: return]: no event is emitted and [A] stays in [_alerts],
    where the claim asks for a lift of every known id. *)
Theorem empty_snapshot_lifts_nothing :
  let o := _get_request EEW_from_dict (fun _ => FetchReturns (JArray [])) 3 knows_A in
  res o = Ok tt /\ events (tr o) = [] /\
  _alerts (st o) !! "A" = Some (record "A" 1 0).
Proof. vm_compute. repeat split; reflexivity. Qed.

Example absent_from_nonempty_snapshot_is_lifted :
  let o := _get_request EEW_from_dict (fun _ => FetchReturns (JArray [entry "B" 1])) 3
             knows_A in
  events (tr o) = [(New, record "B" 1 1); (Lift, record "A" 1 0)] /\
  _alerts (st o) !! "A" = None.
Proof. vm_compute. split; reflexivity. Qed.

(** ** C2 *)

(** C2, amended: in a poll whose fetch returns a snapshot of well-formed
    entries without repeated ids, an entry whose id is unknown produces a
    new event and no update; an entry whose id is known produces no new
    event, and an update event if and only if its serial differs from the
    serial of the known record (an equal serial produces no event). *)
Theorem update_iff_serial_differs {B} from_dict upstream retry
    (s : HTTPEEWClient B) data d id n :
  keeps_id from_dict -> consistent s ->
  fetch_returns upstream s (JArray data) ->
  Forall (well_formed from_dict) data -> NoDup (map p_id data) ->
  d ∈ data -> p_id d = Some id -> p_serial d = Some n ->
  let t := tr (_get_request from_dict upstream retry s) in
  match _alerts s !! id with
  | None => emitted New id t = true /\ emitted Update id t = false
  | Some old =>
      emitted New id t = false /\ (emitted Update id t = true <-> eew_serial old <> n)
  end.
Proof.
  intros Hk Hs Hfetch Hwf Hnd Hd Hid Hn t.
  assert (Hne : data <> []) by (intros ->; inversion Hd).
  assert (HN : emitted New id t = true <-> expected (_alerts s) d = Some (New, id)).
  { unfold t. rewrite (get_request_kinds from_dict upstream Hk retry s data New id)
      by (assumption || discriminate).
    apply expected_unique; assumption. }
  assert (HU : emitted Update id t = true <-> expected (_alerts s) d = Some (Update, id)).
  { unfold t. rewrite (get_request_kinds from_dict upstream Hk retry s data Update id)
      by (assumption || discriminate).
    apply expected_unique; assumption. }
  unfold expected in HN, HU. rewrite Hid, Hn in HN, HU.
  destruct (_alerts s !! id) as [old|].
  - split.
    + apply not_true_iff_false. rewrite HN. case_bool_decide; discriminate.
    + rewrite HU. case_bool_decide; split; intros; try congruence; contradiction.
  - split.
    + apply HN. reflexivity.
    + apply not_true_iff_false. rewrite HU. discriminate.
Qed.

Lemma update_iff_serial_differs_witness :
  let t := tr (_get_request EEW_from_dict feed_A3_B1 3 knows_A2) in
  match _alerts knows_A2 !! "A" with
  | None => emitted New "A" t = true /\ emitted Update "A" t = false
  | Some old =>
      emitted New "A" t = false /\ (emitted Update "A" t = true <-> eew_serial old <> 3)
  end.
Proof.
  apply (update_iff_serial_differs EEW_from_dict feed_A3_B1 3 knows_A2
           [entry "A" 3; entry "B" 1] (entry "A" 3) "A" 3).
  - exact EEW_from_dict_keeps_id.
  - exact knows_A2_consistent.
  - split; [exists {| session_id := 0; closed := false |}; split; reflexivity|reflexivity].
  - repeat constructor; eexists; reflexivity.
  - cbn. repeat constructor; intros H; repeat (apply elem_of_cons in H as [H|H]; [discriminate|]);
      inversion H.
  - left.
  - reflexivity.
  - reflexivity.
Defined.

(** C2, counterexample: the client knows [A] at serial 2 and the snapshot
    has [A] at serial 1.  An update is emitted although the serial did not
    increase. *)
Lemma update_on_lower_serial :
  let t := tr (_get_request EEW_from_dict (fun _ => FetchReturns (JArray [entry "A" 1])) 3
                 knows_A2) in
  ~ (emitted Update "A" t = true <-> (eew_serial (record "A" 2 0) < 1)%Z).
Proof.
  intros t [H _]. assert (Ht : emitted Update "A" t = true) by (vm_compute; reflexivity).
  specialize (H Ht). cbn in H. lia.
Qed.

(** ** C3 *)

(** C3: in every run of the polling loop from the client as constructed,
    whatever the feed answers, an update or a lift event for an id comes
    after a new event for that id, with no lift of that id in between; the
    whole sequence of events is accepted by the lifecycle automaton
    [unknown -> new -> update* -> lift], which ends on the ids of
    [_alerts]. *)
Theorem lifecycle_of_every_run {B} from_dict upstream
    (clients : list (NotificationClient B * B)) ticks pre k e post :
  keeps_id from_dict ->
  events (tr (start from_dict upstream ticks (init clients))) = pre ++ (k, e) :: post ->
  k <> New ->
  announced (eew_id e) pre /\
  lifecycle ∅ (events (tr (start from_dict upstream ticks (init clients))))
  = Some (dom (_alerts (st (start from_dict upstream ticks (init clients))))).
Proof.
  intros Hk Hev Hne.
  destruct (start_in_order from_dict upstream Hk ticks (init clients)
              (init_consistent clients)) as [_ Hl].
  cbn [init _alerts] in Hl. rewrite dom_empty_L in Hl.
  split; [|exact Hl]. eapply lifecycle_announced; eassumption.
Qed.

Lemma lifecycle_of_every_run_witness :
  announced "A" [(New, record "A" 1 0); (Update, record "A" 2 1); (New, record "B" 1 2)] /\
  lifecycle ∅ (events (tr (start (B:=unit) EEW_from_dict scenario_feed 3 (init []))))
  = Some (dom (_alerts (st (start (B:=unit) EEW_from_dict scenario_feed 3 (init []))))).
Proof.
  apply (lifecycle_of_every_run (B:=unit) EEW_from_dict scenario_feed [] 3
           [(New, record "A" 1 0); (Update, record "A" 2 1); (New, record "B" 1 2)]
           Lift (record "A" 2 1) []).
  - exact EEW_from_dict_keeps_id.
  - vm_compute. reflexivity.
  - discriminate.
Defined.

(** ** C4 *)

(** C4: when the fetch and its three retries all fail, the poll returns
    normally, its only calls are those of the fetch path (GETs, sessions
    created by [recreate_session] between the attempts, the final log), no
    event is emitted, [_alerts] and the notification clients are as before
    the poll, at most four GETs have been issued, and the diff of any later
    snapshot behaves as it would have on the state before the poll. *)
Theorem failed_poll_changes_nothing {B} from_dict upstream (s : HTTPEEWClient B) :
  fetch_fails upstream s 4 ->
  let o := _get_request from_dict upstream 3 s in
  res o = Ok tt /\
  Forall (fun ev => fetch_effect ev = true) (tr o) /\
  events (tr o) = [] /\
  last (tr o) = Some LogFetchFailure /\
  _alerts (st o) = _alerts s /\
  _notification_client (st o) = _notification_client s /\
  (requests (st o) <= requests s + 4)%nat /\
  forall data,
    res (process from_dict data (st o)) = res (process from_dict data s) /\
    tr (process from_dict data (st o)) = tr (process from_dict data s) /\
    _alerts (st (process from_dict data (st o))) = _alerts (st (process from_dict data s)).
Proof.
  intros Hf o.
  destruct (get_request_all_fail from_dict upstream 3 s Hf) as (H1 & H2 & H3 & H4).
  fold o in H1, H2, H3, H4. destruct H2 as (Ha & Hc & Hn & _ & He).
  split; [exact H1|]. split; [apply get_request_all_fail_trace, Hf|].
  split; [exact He|]. split; [exact H3|]. split; [exact Ha|]. split; [exact Hn|].
  split; [exact H4|]. intros data.
  destruct (respects_process from_dict data (st o) s) as (R1 & R2 & R3 & _).
  { repeat split; assumption. }
  auto.
Qed.

Lemma failed_poll_changes_nothing_witness :
  let o := _get_request EEW_from_dict feed_down 3 knows_A in
  res o = Ok tt /\
  Forall (fun ev => fetch_effect ev = true) (tr o) /\
  events (tr o) = [] /\
  last (tr o) = Some LogFetchFailure /\
  _alerts (st o) = _alerts knows_A /\
  _notification_client (st o) = _notification_client knows_A /\
  (requests (st o) <= requests knows_A + 4)%nat /\
  forall data,
    res (process EEW_from_dict data (st o)) = res (process EEW_from_dict data knows_A) /\
    tr (process EEW_from_dict data (st o)) = tr (process EEW_from_dict data knows_A) /\
    _alerts (st (process EEW_from_dict data (st o)))
    = _alerts (st (process EEW_from_dict data knows_A)).
Proof.
  apply (failed_poll_changes_nothing EEW_from_dict feed_down knows_A).
  intros k Hk. exists true. reflexivity.
Defined.

Example failed_poll_recreates_session :
  tr (_get_request EEW_from_dict feed_down 3 knows_A)
  = [SessionGet; SessionCreate 1; SessionGet; SessionCreate 2; SessionGet;
     SessionCreate 3; SessionGet; LogFetchFailure].
Proof. vm_compute. reflexivity. Qed.

(** The bound is three retries after the first attempt: a fourth GET that
    succeeds is still processed. *)
Example fourth_attempt_is_processed :
  events (tr (_get_request EEW_from_dict
                (fun n => if (n <? 3)%nat then FetchRaises false
                          else FetchReturns (JArray [entry "B" 1]))
                3 knows_nothing))
  = [(New, record "B" 1 0)].
Proof. vm_compute. reflexivity. Qed.

(** ** C5 *)


Example one_backend_raises_the_other_delivers :
  let o := new_alert EEW_from_dict (entry "A" 1)
             (init [(failing_backend, 0%nat); (counting_backend, 0%nat)]) in
  res o = Ok (record "A" 1 0) /\
  map snd (_notification_client (st o)) = [0%nat; 1%nat].
Proof. vm_compute. split; reflexivity. Qed.

(** ** C6 *)

(** C6: in every state reached by the polling loop, the record known for
    an id carries the handle of its computation; [update_alert] for that id
    returns normally, and its first call cancels that handle, before the
    computation of the new version is started (with a fresh handle), the
    update event is emitted and the notification clients are called. *)
Theorem update_cancels_before_restart {B} from_dict upstream
    (clients : list (NotificationClient B * B)) ticks d e old :
  keeps_id from_dict ->
  from_dict d = Ok e ->
  _alerts (st (start from_dict upstream ticks (init clients))) !! eew_id e = Some old ->
  let s := st (start from_dict upstream ticks (init clients)) in
  let e' := with_calc_task e (Some (calc_tasks s)) in
  exists t,
    _calc_task (eew_earthquake old) = Some t /\ (t < calc_tasks s)%nat /\
    res (update_alert from_dict d s) = Ok e' /\
    tr (update_alert from_dict d s) =
      CalcCancel t :: CalcStart (calc_tasks s) (eew_id e) (eew_serial e)
        :: Emit Update e'
        :: notify_trace (fun c => update_eew c e') (_notification_client s).
Proof.
  intros Hk Hfd Hold s e'.
  destruct (start_in_order from_dict upstream Hk ticks (init clients)
              (init_consistent clients)) as [Hc _].
  fold s in Hc, Hold.
  destruct (consistent_lookup s _ _ Hc Hold) as [_ (t & Ht & Hlt)].
  exists t. split; [exact Ht|]. split; [exact Hlt|].
  rewrite (update_alert_eq from_dict d e old t s Hfd Hold Ht). split; reflexivity.
Qed.

Lemma update_cancels_before_restart_witness :
  let s := st (start EEW_from_dict scenario_feed 1 (init [discord_backend])) in
  let e' := with_calc_task (record "A" 2 0) (Some (calc_tasks s)) in
  exists t,
    _calc_task (eew_earthquake (record "A" 1 0)) = Some t /\ (t < calc_tasks s)%nat /\
    res (update_alert EEW_from_dict (entry "A" 2) s) = Ok e' /\
    tr (update_alert EEW_from_dict (entry "A" 2) s) =
      CalcCancel t :: CalcStart (calc_tasks s) (eew_id (record "A" 2 0))
                        (eew_serial (record "A" 2 0))
        :: Emit Update e'
        :: notify_trace (fun c => update_eew c e') (_notification_client s).
Proof.
  apply (update_cancels_before_restart EEW_from_dict scenario_feed [discord_backend] 1
           (entry "A" 2)
           {| eew_id := "A"; eew_serial := 2; eew_final := false;
              eew_earthquake := {| eq_params := hualien; _calc_task := None |} |}
           (record "A" 1 0)).
  - exact EEW_from_dict_keeps_id.
  - reflexivity.
  - vm_compute. reflexivity.
Defined.

Example update_trace_with_discord :
  tr (update_alert EEW_from_dict (entry "A" 2)
        (st (start EEW_from_dict scenario_feed 1 (init [discord_backend]))))
  = [CalcCancel 0; CalcStart 1 "A" 2; Emit Update (record "A" 2 1);
     Notify 0 (CalcCityMaxIntensity "A" 2); Notify 0 (DrawMap "A" 2)].
Proof. vm_compute. reflexivity. Qed.

(** ** C7 *)



(** On the run of the witness the upload is rejected at the first tick and
    accepted at the second: the second message is then edited with the
    captured URL, and at the third tick the primary message keeps its
    attachment while the second message carries the cached URL again. *)
Example reuse_over_three_ticks :
  let o := edit_ticks platform_late [0%nat; 1%nat; 2%nat] two_messages in
  accepted_urls (tr o) = [map_cdn_url] /\
  Discord.map_url (st o) = Some map_cdn_url /\
  reused_edits (tr o)
  = [(2%nat, map_cdn_url); (1%nat, attachment); (2%nat, map_cdn_url)].
Proof. vm_compute. repeat split. Qed.


(** ** C8 *)

(** C8, amended: when [from_dict] rejects an entry that the diff has to
    turn into a record (its id is unknown, or known with another serial),
    the exception leaves [_get_request]: the entries before it have been
    processed, the entries after it are not, and no lift is emitted; the
    polling loop itself never raises. *)
Theorem malformed_entry_aborts_poll {B} from_dict upstream retry
    (s : HTTPEEWClient B) pre d post e chk :
  fetch_returns upstream s (JArray (pre ++ d :: post)) ->
  from_dict d = Raise e ->
  res (for_data from_dict pre (dom (_alerts s)) (set_requests (S (requests s)) s)) = Ok chk ->
  expected
    (_alerts (st (for_data from_dict pre (dom (_alerts s)) (set_requests (S (requests s)) s))))
    d <> None ->
  let o := for_data from_dict pre (dom (_alerts s)) (set_requests (S (requests s)) s) in
  _get_request from_dict upstream retry s = mkOut (Raise e) (st o) (SessionGet :: tr o)
  /\ forall ticks (s' : HTTPEEWClient B), res (_loop from_dict upstream ticks s') = Ok tt.
Proof.
  intros Hfetch Hfd Hres Hexp. cbv zeta. split; [|intros ticks s'; apply loop_ok].
  rewrite (get_request_truthy from_dict upstream retry s _ Hfetch)
    by (destruct pre; reflexivity).
  cbv zeta. cbn [json_items]. unfold process. rewrite bind_gets.
  change (_alerts (set_requests (S (requests s)) s)) with (_alerts s).
  destruct (for_data from_dict pre (dom (_alerts s)) (set_requests (S (requests s)) s))
    as [r s1 t1] eqn:Ho.
  cbn [res st tr] in *. subst r.
  assert (Hfor : for_data from_dict (pre ++ d :: post) (dom (_alerts s))
                   (set_requests (S (requests s)) s)
                 = mkOut (Raise e) s1 t1).
  { rewrite for_data_app. erewrite bind_eq by exact Ho.
    rewrite (for_data_malformed from_dict d post chk s1 e Hfd Hexp).
    cbn [res st tr]. rewrite app_nil_r. reflexivity. }
  erewrite bind_eq_raise by exact Hfor. reflexivity.
Qed.

Lemma malformed_entry_aborts_poll_witness :
  let o := for_data EEW_from_dict [entry "C" 1] (dom (_alerts knows_nothing))
             (set_requests (S (requests knows_nothing)) knows_nothing) in
  _get_request EEW_from_dict feed_C_broken_B 3 knows_nothing
  = mkOut (Raise (KeyError "final")) (st o) (SessionGet :: tr o)
  /\ forall ticks (s' : HTTPEEWClient unit),
       res (_loop EEW_from_dict feed_C_broken_B ticks s') = Ok tt.
Proof.
  apply (malformed_entry_aborts_poll EEW_from_dict feed_C_broken_B 3 knows_nothing
           [entry "C" 1] broken_entry [entry "B" 1] (KeyError "final") ∅).
  - split; [exists {| session_id := 0; closed := false |}; split; reflexivity|reflexivity].
  - reflexivity.
  - vm_compute. reflexivity.
  - vm_compute. discriminate.
Defined.

(** C8, counterexample: the snapshot is [C], a broken entry, [B]; no new
    event is emitted for [B]. *)
Lemma entries_after_malformed_are_dropped :
  let o := _get_request EEW_from_dict feed_C_broken_B 3 knows_nothing in
  ~ (emitted New "B" (tr o) = true).
Proof. vm_compute. discriminate. Qed.

Example poll_with_malformed_entry :
  let o := _get_request EEW_from_dict feed_C_broken_B 3 knows_nothing in
  res o = Raise (KeyError "final") /\
  events (tr o) = [(New, record "C" 1 0)].
Proof. vm_compute. split; reflexivity. Qed.

(** ** C9 *)

(** C9, amended: when the URL of the map is cached, or when the platform
    accepts the upload on the primary message, the refresh of a set
    completes and edits every message of the set, whatever the platform
    answers to the other edits. *)
Theorem guarded_edits_are_isolated (P : Discord.Platform) now
    (self : Discord.EEWMessages) m0 rest :
  Discord.messages self = m0 :: rest ->
  str_truthy (Discord.map_url self) = true \/ Discord.message_edit P now m0 <> EditRaises ->
  res (Discord.edit P now self) = Ok tt /\
  edited (tr (Discord.edit P now self)) = m0 :: rest.
Proof.
  intros Hm Hc.
  destruct (str_truthy (Discord.map_url self)) eqn:Ht.
  - destruct (str_truthy_Some _ Ht) as (u & Hu & Hnu). rewrite Hu in Ht.
    rewrite (edit_cached P now self u m0 rest Hu Ht Hm). cbn [res tr].
    split; [reflexivity|].
    change (edited (guarded_edit P now ?s ?e m0 :: ?t)) with (m0 :: edited t).
    rewrite edited_guarded. reflexivity.
  - destruct Hc as [Hc|Hc]; [discriminate|].
    destruct (Discord.message_edit P now m0) as [|u] eqn:Hr; [congruence|].
    rewrite (edit_upload_accepted P now self m0 rest u Ht Hm Hr). cbn [res tr].
    split; [reflexivity|].
    change (edited (MessageEdit m0 ?a ?b ?c :: ?t)) with (m0 :: edited t).
    rewrite edited_guarded. reflexivity.
Qed.

Lemma guarded_edits_are_isolated_witness :
  res (Discord.edit platform_one_down 0 two_messages_cached) = Ok tt /\
  edited (tr (Discord.edit platform_one_down 0 two_messages_cached)) = [1%nat; 2%nat].
Proof.
  apply (guarded_edits_are_isolated platform_one_down 0 two_messages_cached 1%nat [2%nat]).
  - reflexivity.
  - left. reflexivity.
Defined.

(** C9, counterexample: no URL is cached and the edit of the primary
    message fails; the second message is not edited. *)
Lemma failed_upload_blocks_other_edits :
  ~ In 2%nat (edited (tr (Discord.edit platform_one_down 0 two_messages))).
Proof. vm_compute. intros [H|[]]. discriminate. Qed.

Example failed_upload_edits_nothing_else :
  res (Discord.edit platform_one_down 0 two_messages) = Raise HTTPException /\
  edited (tr (Discord.edit platform_one_down 0 two_messages)) = [1%nat].
Proof. vm_compute. split; reflexivity. Qed.

(** ** C10 *)

(** C10: when every destination rejects the initial send, [send_eew]
    still returns a set, whose message list is empty and which has no
    cached URL, stores it in the registry under the id of the alert and
    leaves the refresh loop running; every later edit of that set raises
    [IndexError], and a refresh tick on that registry does not complete. *)
Theorem empty_message_set_breaks_refresh (P : Discord.Platform) (e : EEW)
    (s : Discord.DiscordNotification) :
  Forall (fun d => Discord.channel_send P e (Discord.channel d) = None)
         (Discord.notification_channels s) ->
  let o := Discord.send_eew P e s in
  exists m,
    res o = Ok m /\ Discord.messages m = [] /\ Discord.map_url m = None /\
    dict_get (eew_id e) (Discord.alerts (st o)) = Some m /\
    Discord.loop_running (st o) = true /\
    forall now,
      res (Discord.edit P now m) = Raise IndexError /\
      is_ok (res (Discord.update_eew_messages_loop P now (st o))) = false.
Proof.
  intros Hall o. exists (sent P e (Discord.notification_channels s)).
  assert (Hm : Discord.messages (sent P e (Discord.notification_channels s)) = []).
  { cbn. apply filter_none_all_None. apply Forall_fmap.
    eapply Forall_impl; [exact Hall|]. intros d Hd. exact Hd. }
  unfold o. rewrite send_eew_eq. cbn [res st].
 split; [reflexivity|]. split; [exact Hm|].
  split; [reflexivity|]. split; [apply dict_get_set|]. split; [reflexivity|].
  intros now. rewrite (edit_no_message P now _ Hm). split; [reflexivity|].
  unfold Discord.update_eew_messages_loop. rewrite bind_gets.
  cbn [Discord.alerts Discord.set_loop_running Discord.set_alerts].
  pose proof (dict_set_not_nil (eew_id e) (sent P e (Discord.notification_channels s))
                (Discord.alerts s)) as Hnn.
  pose proof (dict_set_In (eew_id e) (sent P e (Discord.notification_channels s))
                (Discord.alerts s)) as Hin.
  destruct (dict_set (eew_id e) (sent P e (Discord.notification_channels s))
              (Discord.alerts s)) as [|p l] eqn:Hd; [congruence|].
  eapply edit_all_raises; [exact Hin|].
  rewrite (edit_no_message P now _ Hm). reflexivity.
Qed.

Lemma empty_message_set_breaks_refresh_witness :
  let o := Discord.send_eew platform_closed (Discord.eew two_messages) two_channels in
  exists m,
    res o = Ok m /\ Discord.messages m = [] /\ Discord.map_url m = None /\
    dict_get (eew_id (Discord.eew two_messages)) (Discord.alerts (st o)) = Some m /\
    Discord.loop_running (st o) = true /\
    forall now,
      res (Discord.edit platform_closed now m) = Raise IndexError /\
      is_ok (res (Discord.update_eew_messages_loop platform_closed now (st o))) = false.
Proof.
  apply (empty_message_set_breaks_refresh platform_closed (Discord.eew two_messages)
           two_channels).
  repeat constructor.
Defined.

Example refresh_of_empty_set_raises_index_error :
  res (Discord.update_eew_messages_loop platform_closed 0
         (st (Discord.send_eew platform_closed (Discord.eew two_messages) two_channels)))
  = Raise IndexError.
Proof. vm_compute. reflexivity. Qed.

(** * Further properties *)

(** ** The polling client *)

Lemma count_app p t1 t2 : count p (t1 ++ t2) = (count p t1 + count p t2)%nat.
Proof. unfold count. rewrite filter_app, length_app. reflexivity. Qed.

Lemma count_cons p ev t :
  count p (ev :: t) = ((if p ev then 1 else 0) + count p t)%nat.
Proof.
  unfold count. rewrite filter_cons. destruct (p ev); case_decide; try congruence; reflexivity.
Qed.

Lemma count_nil p : count p [] = 0%nat.
Proof. reflexivity. Qed.

Ltac count_simpl :=
  rewrite ?count_app, ?count_cons, ?count_nil;
  cbn [is_get is_session_create is_cancel].

Lemma count_none p q t :
  Forall (fun ev => q ev = true) t -> (forall ev, q ev = true -> p ev = false) ->
  count p t = 0%nat.
Proof.
  intros Ht Hq. induction Ht as [|ev t Hev _ IH]; [reflexivity|].
  rewrite count_cons, (Hq _ Hev), IH. reflexivity.
Qed.

Section EmitsOnly.
Context {St : Type} (p : Effect -> bool).

Lemma emits_only_ret {A} (a : A) : emits_only (St:=St) p (ret a).
Proof. intros s. constructor. Qed.

Lemma emits_only_raise {A} e : emits_only (St:=St) p (raise (A:=A) e).
Proof. intros s. constructor. Qed.

Lemma emits_only_gets {A} (g : St -> A) : emits_only p (gets g).
Proof. intros s. constructor. Qed.

Lemma emits_only_modify (g : St -> St) : emits_only p (modify g).
Proof. intros s. constructor. Qed.

Lemma emits_only_call ev : p ev = true -> emits_only (St:=St) p (call ev).
Proof. intros H s. repeat constructor. exact H. Qed.

Lemma emits_only_bind {A C} (m : M St A) (f : A -> M St C) :
  emits_only p m -> (forall a, emits_only p (f a)) -> emits_only p (bind m f).
Proof.
  intros Hm Hf s. unfold bind. destruct (res (m s)) as [a|x]; cbn [tr].
  - apply Forall_app. split; [apply Hm|apply Hf].
  - apply Hm.
Qed.

End EmitsOnly.

Ltac emits_only_tac :=
  repeat first
    [ apply emits_only_ret | apply emits_only_raise | apply emits_only_gets
    | apply emits_only_modify | apply emits_only_call; reflexivity
    | match goal with
      | |- emits_only _ (match ?x with _ => _ end) => destruct x
      | |- emits_only _ (bind _ _) => apply emits_only_bind; [|intros ?]
      end ].


Lemma Forall_concat_imap {X} (P : Effect -> Prop) (f : nat -> X -> list Effect) (l : list X) :
  (forall i x, Forall P (f i x)) -> Forall P (concat (imap f l)).
Proof.
  revert f. induction l as [|x l IH]; intros f Hf; [constructor|].
  cbn [imap concat]. apply Forall_app. split; [apply Hf|]. apply IH. intros i y. apply Hf.
Qed.

Section PollFacts.

Context {B : Type}.
Variable from_dict : Payload -> Result EEW.
Variable upstream : nat -> FetchOutcome.

Lemma notify_trace_off_fetch_path (m : NotificationClient B -> M B unit) cs :
  Forall (fun ev => off_fetch_path ev = true) (notify_trace m cs).
Proof.
  unfold notify_trace. apply Forall_concat_imap. intros i cb.
  apply Forall_fmap, Forall_forall. intros ev _. reflexivity.
Qed.

Lemma broadcast_off_fetch_path (m : NotificationClient B -> M B unit) :
  emits_only off_fetch_path (broadcast (B:=B) m).
Proof. intros s. rewrite broadcast_eq. apply notify_trace_off_fetch_path. Qed.

Lemma new_alert_off_fetch_path d : emits_only off_fetch_path (new_alert (B:=B) from_dict d).
Proof.
  unfold new_alert, calc_all_data_in_executor, lift_result.
  repeat first [ apply broadcast_off_fetch_path | progress emits_only_tac ].
Qed.

Lemma update_alert_off_fetch_path d :
  emits_only off_fetch_path (update_alert (B:=B) from_dict d).
Proof.
  unfold update_alert, calc_all_data_in_executor, lift_result, cancel_calc_task.
  repeat first [ apply broadcast_off_fetch_path | progress emits_only_tac ].
Qed.

Lemma lift_alert_off_fetch_path e : emits_only off_fetch_path (lift_alert (B:=B) e).
Proof.
  unfold lift_alert.
  repeat first [ apply broadcast_off_fetch_path | progress emits_only_tac ].
Qed.

Lemma for_data_off_fetch_path data : forall chk,
  emits_only off_fetch_path (for_data (B:=B) from_dict data chk).
Proof.
  induction data as [|d data IH]; intros chk; cbn [for_data]; [apply emits_only_ret|].
  unfold getitem.
  repeat first
    [ apply IH | apply new_alert_off_fetch_path | apply update_alert_off_fetch_path
    | progress emits_only_tac ].
Qed.

Lemma for_finished_off_fetch_path ids :
  emits_only off_fetch_path (for_finished (B:=B) ids).
Proof.
  induction ids as [|id ids IH]; cbn [for_finished]; [apply emits_only_ret|].
  repeat first [ apply IH | apply lift_alert_off_fetch_path | progress emits_only_tac ].
Qed.

(** The diff and the notifications make no call of the fetch path. *)
Lemma process_off_fetch_path data : emits_only off_fetch_path (process (B:=B) from_dict data).
Proof.
  unfold process.
  repeat first
    [ apply for_data_off_fetch_path | apply for_finished_off_fetch_path
    | progress emits_only_tac ].
Qed.

Lemma off_fetch_path_not_get ev : off_fetch_path ev = true -> is_get ev = false.
Proof. destruct ev; cbn; congruence. Qed.

Lemma off_fetch_path_not_create ev : off_fetch_path ev = true -> is_session_create ev = false.
Proof. destruct ev; cbn; congruence. Qed.

(** [session_get] on an open session. *)
Lemma session_get_open (s : HTTPEEWClient B) :
  session_open s = true ->
  session_get upstream s =
  match upstream (requests s) with
  | FetchReturns data => mkOut (Ok data) (set_requests (S (requests s)) s) [SessionGet]
  | FetchRaises c =>
      mkOut (Raise ClientError)
            (set_session (option_map (fun ss => {| session_id := session_id ss; closed := c |})
                            (__session s))
               (set_requests (S (requests s)) s))
            [SessionGet]
  end.
Proof.
  unfold session_open, session_get. rewrite bind_gets.
  destruct (__session s) as [ss|] eqn:Hss; [|discriminate].
  destruct (closed ss); [discriminate|]. intros _.
  rewrite bind_gets, bind_modify, bind_call.
  destruct (upstream (requests s)); [rewrite bind_modify|]; cbn; rewrite ?Hss; reflexivity.
Qed.

Lemma session_get_not_open (s : HTTPEEWClient B) :
  session_open s = false ->
  exists x, session_get upstream s = mkOut (Raise x) s [].
Proof.
  unfold session_open, session_get. rewrite bind_gets.
  destruct (__session s) as [ss|]; [|exists AttributeError; reflexivity].
  destruct (closed ss); [|discriminate]. exists ClientError. reflexivity.
Qed.

Lemma recreate_session_open (s : HTTPEEWClient B) :
  session_open s = true -> recreate_session s = mkOut (Ok tt) s [].
Proof.
  unfold session_open, recreate_session. rewrite bind_gets.
  destruct (__session s) as [ss|]; [|discriminate].
  destruct (closed ss); [discriminate|reflexivity].
Qed.

Lemma recreate_session_not_open (s : HTTPEEWClient B) :
  session_open s = false ->
  recreate_session s =
  mkOut (Ok tt)
        (set_session (Some {| session_id := sessions s; closed := false |})
           (set_sessions (S (sessions s)) s))
        [SessionCreate (sessions s)].
Proof.
  unfold session_open, recreate_session. rewrite bind_gets.
  destruct (__session s) as [ss|]; [destruct (closed ss); [|discriminate]|];
    intros _; rewrite bind_gets, !bind_modify; reflexivity.
Qed.

End PollFacts.


Section RetryFacts.

Context {B : Type}.
Variable from_dict : Payload -> Result EEW.
Variable upstream : nat -> FetchOutcome.

(** A poll whose first GET returns a body. *)
Lemma get_request_returns retry (s : HTTPEEWClient B) data :
  session_open s = true -> upstream (requests s) = FetchReturns data ->
  _get_request from_dict upstream retry s =
  let o := (if negb (json_truthy data) then ret tt else process from_dict (json_items data))
             (set_requests (S (requests s)) s) in
  mkOut (res o) (st o) (SessionGet :: tr o).
Proof.
  intros Ho Hup. pose proof (session_get_open upstream s Ho) as Hg. rewrite Hup in Hg.
  destruct retry; cbn [_get_request];
    (erewrite bind_eq by (apply try_eq; exact Hg)); reflexivity.
Qed.

(** A poll whose first GET raises, with a retry left. *)
Lemma get_request_retries retry (s : HTTPEEWClient B) x s1 t1 :
  session_get upstream s = mkOut (Raise x) s1 t1 ->
  _get_request from_dict upstream (S retry) s =
  let o1 := recreate_session s1 in
  let o := _get_request from_dict upstream retry (st o1) in
  mkOut (res o) (st o) (t1 ++ tr o1 ++ tr o).
Proof.
  intros Hg. cbn [_get_request].
  erewrite bind_eq by (apply try_eq; exact Hg). cbv beta iota zeta.
  pose proof (recreate_session_ok s1) as Hr.
  destruct (recreate_session s1) as [r s2 t2] eqn:Hrs. cbn [res] in Hr. subst r.
  erewrite bind_eq by exact Hrs. cbn [res st tr]. reflexivity.
Qed.

(** A poll whose first GET raises, with no retry left. *)
Lemma get_request_gives_up (s : HTTPEEWClient B) x s1 t1 :
  session_get upstream s = mkOut (Raise x) s1 t1 ->
  _get_request from_dict upstream 0 s = mkOut (Ok tt) s1 (t1 ++ [LogFetchFailure]).
Proof.
  intros Hg. cbn [_get_request].
  erewrite bind_eq by (apply try_eq; exact Hg). reflexivity.
Qed.

Lemma session_get_counts (s : HTTPEEWClient B) :
  (count is_get (tr (session_get upstream s)) <= 1)%nat /\
  count is_session_create (tr (session_get upstream s)) = 0%nat.
Proof.
  destruct (session_open s) eqn:Ho.
  - rewrite (session_get_open upstream s Ho).
    destruct (upstream (requests s)); cbn [tr]; count_simpl; lia.
  - destruct (session_get_not_open upstream s Ho) as [x ->]. cbn [tr]. count_simpl. lia.
Qed.

Lemma recreate_session_counts (s : HTTPEEWClient B) :
  count is_get (tr (recreate_session s)) = 0%nat /\
  (count is_session_create (tr (recreate_session s)) <= 1)%nat.
Proof.
  destruct (session_open s) eqn:Ho.
  - rewrite (recreate_session_open s Ho). cbn [tr]. count_simpl. lia.
  - rewrite (recreate_session_not_open s Ho). cbn [tr]. count_simpl. lia.
Qed.

Lemma handle_counts data (s : HTTPEEWClient B) :
  let o := (if negb (json_truthy data) then ret tt else process from_dict (json_items data)) s in
  count is_get (tr o) = 0%nat /\ count is_session_create (tr o) = 0%nat.
Proof.
  cbv zeta. destruct (json_truthy data); cbn [negb]; [|split; reflexivity].
  pose proof (process_off_fetch_path from_dict (json_items data) s) as H.
  split; (eapply count_none; [exact H|]).
  - apply off_fetch_path_not_get.
  - apply off_fetch_path_not_create.
Qed.

Lemma get_request_counts retry : forall (s : HTTPEEWClient B),
  let t := tr (_get_request from_dict upstream retry s) in
  (count is_get t <= S retry)%nat /\ (count is_session_create t <= retry)%nat.
Proof.
  induction retry as [|retry IH]; intros s; cbv zeta;
    pose proof (session_get_counts s) as [Hg Hc];
    destruct (session_get upstream s) as [[data|x] s1 t1] eqn:Hs; cbn [tr] in Hg, Hc.
  - cbn [_get_request]. erewrite bind_eq by (apply try_eq; exact Hs). cbv beta iota. cbn [tr].
    destruct (handle_counts data s1) as [H1 H2]. rewrite !count_app, H1, H2. lia.
  - rewrite (get_request_gives_up s x s1 t1 Hs). cbn [tr]. count_simpl. lia.
  - cbn [_get_request]. erewrite bind_eq by (apply try_eq; exact Hs). cbv beta iota. cbn [tr].
    destruct (handle_counts data s1) as [H1 H2]. rewrite !count_app, H1, H2. lia.
  - rewrite (get_request_retries retry s x s1 t1 Hs). cbv zeta. cbn [tr].
    destruct (recreate_session_counts s1) as [R1 R2].
    destruct (IH (st (recreate_session s1))) as [I1 I2].
    rewrite !count_app. lia.
Qed.

Lemma same_known_trans (s1 s2 s3 : HTTPEEWClient B) :
  same_known s1 s2 -> same_known s2 s3 -> same_known s1 s3.
Proof. intros (H1 & H2 & H3) (K1 & K2 & K3). repeat split; congruence. Qed.

Lemma recreate_session_same_known (s : HTTPEEWClient B) :
  same_known (st (recreate_session s)) s /\ session_open (st (recreate_session s)) = true /\
  requests (st (recreate_session s)) = requests s /\
  Forall (fun ev => fetch_effect ev = true) (tr (recreate_session s)).
Proof.
  destruct (session_open s) eqn:Ho.
  - rewrite (recreate_session_open s Ho). cbn [st tr]. repeat split; [exact Ho|constructor].
  - rewrite (recreate_session_not_open s Ho). cbn [st tr]. repeat split. repeat constructor.
Qed.

Lemma respects_handle data :
  respects (B:=B)
    (if negb (json_truthy data) then ret tt else process from_dict (json_items data)).
Proof.
  destruct (json_truthy data); cbn [negb]; [apply respects_process|].
  intros s s' H. cbn. auto.
Qed.

Lemma filter_off_fetch_path_fetch t :
  Forall (fun ev => fetch_effect ev = true) t ->
  filter (fun ev => off_fetch_path ev = true) t = [].
Proof.
  induction 1 as [|ev t Hev _ IH]; [reflexivity|].
  rewrite filter_cons_False; [exact IH|].
  unfold off_fetch_path. rewrite Hev. discriminate.
Qed.

End RetryFacts.

(** Failed GETs followed by one that returns a body: the poll does what a
    poll whose first GET returns that body does. *)
Lemma get_request_recovers {B} from_dict upstream k : forall retry (s : HTTPEEWClient B) data,
  session_open s = true -> (k <= retry)%nat ->
  fetch_fails upstream s k ->
  upstream (requests s + k)%nat = FetchReturns data ->
  let o := _get_request from_dict upstream retry s in
  let o' := _get_request from_dict (fun _ => FetchReturns data) 0 s in
  res o = res o' /\
  filter (fun ev => off_fetch_path ev = true) (tr o)
  = filter (fun ev => off_fetch_path ev = true) (tr o') /\
  same_known (st o) (st o') /\
  count is_get (tr o) = S k.
Proof.
  induction k as [|k IH]; intros retry s data Ho Hk Hf Hup; cbv zeta.
  - rewrite Nat.add_0_r in Hup.
    rewrite (get_request_returns from_dict upstream retry s data Ho Hup).
    rewrite (get_request_returns from_dict (fun _ => FetchReturns data) 0 s data Ho eq_refl).
    cbv zeta. cbn [res st tr]. split; [reflexivity|]. split; [reflexivity|].
    split; [repeat split|].
    rewrite count_cons. cbn [is_get].
    destruct (handle_counts from_dict data (set_requests (S (requests s)) s)) as [H1 _].
    rewrite H1. reflexivity.
  - destruct retry as [|retry]; [lia|].
    destruct (Hf 0%nat) as [c Hc]; [lia|]. rewrite Nat.add_0_r in Hc.
    pose proof (session_get_open upstream s Ho) as Hg. rewrite Hc in Hg.
    rewrite (get_request_retries from_dict upstream retry s _ _ _ Hg). cbv zeta.
    set (s1 := set_session _ _) in *.
    destruct (recreate_session_same_known s1) as (Hsk & Ho2 & Hn2 & Ht2).
    set (s2 := st (recreate_session s1)) in *.
    assert (Hreq : requests s2 = S (requests s)) by (rewrite Hn2; reflexivity).
    destruct (IH retry s2 data Ho2) as (I1 & I2 & I3 & I4).
    { lia. }
    { intros j Hj. rewrite Hreq. replace (S (requests s) + j)%nat with (requests s + S j)%nat by lia.
      apply Hf. lia. }
    { rewrite Hreq. replace (S (requests s) + k)%nat with (requests s + S k)%nat by lia.
      exact Hup. }
    cbv zeta in I1, I2, I3. cbn [res st tr].
    rewrite (get_request_returns from_dict (fun _ => FetchReturns data) 0 s2 data Ho2 eq_refl)
      in I1, I2, I3.
    rewrite (get_request_returns from_dict (fun _ => FetchReturns data) 0 s data Ho eq_refl).
    cbv zeta in *. cbn [res st tr] in *.
    assert (Hsame : same_known (set_requests (S (requests s2)) s2)
                               (set_requests (S (requests s)) s)).
    { destruct Hsk as (K1 & K2 & K3). repeat split; cbn; assumption. }
    destruct (respects_handle from_dict data _ _ Hsame) as (R1 & R2 & R3).
    split; [congruence|]. split; [|split].
    + rewrite !filter_app, (filter_off_fetch_path_fetch _ Ht2).
      rewrite (filter_off_fetch_path_fetch [SessionGet]) by (repeat constructor).
      rewrite filter_cons_False by (cbn; discriminate).
      rewrite filter_cons_False in I2 by (cbn; discriminate).
      cbn [app]. rewrite I2, R2. reflexivity.
    + eapply same_known_trans; [exact I3|exact R3].
    + destruct (recreate_session_counts s1) as [C1 _]. fold s2 in C1.
      count_simpl. fold s2. rewrite C1, I4. lia.
Qed.

Lemma ids_of_nil : ids_of [] = ∅.
Proof. reflexivity. Qed.

Lemma ids_of_cons d data id :
  p_id d = Some id -> ids_of (d :: data) = {[id]} ∪ ids_of data.
Proof. intros H. unfold ids_of. cbn [omap list_omap]. rewrite H. reflexivity. Qed.

Lemma elem_of_ids_of id data : id ∈ ids_of data <-> Some id ∈ map p_id data.
Proof.
  unfold ids_of. rewrite elem_of_list_to_set, list_elem_of_omap, list_elem_of_fmap.
  split; intros (d & H1 & H2); exists d; auto.
Qed.

Section SyncFacts.

Context {B : Type}.
Variable from_dict : Payload -> Result EEW.
Hypothesis from_dict_keeps_id : keeps_id from_dict.

(** The loop over a snapshot whose entries are all up to date does
    nothing. *)
Lemma for_data_up_to_date data : forall chk (s : HTTPEEWClient B),
  Forall (up_to_date (_alerts s)) data ->
  for_data from_dict data chk s = mkOut (Ok (chk ∖ ids_of data)) s [].
Proof.
  induction data as [|d data IH]; intros chk s Hall.
  - cbn [for_data]. rewrite ids_of_nil, difference_empty_L. reflexivity.
  - apply Forall_cons in Hall as [(id & n & e & Hid & Hn & He & Hser) Hall].
    cbn [for_data]. rewrite Hid, Hn. unfold getitem.
    rewrite bind_ret, bind_gets, He, bind_ret.
    rewrite bool_decide_eq_false_2 by (intros Hne; apply Hne; exact Hser).
    rewrite (IH _ _ Hall), (ids_of_cons d data id Hid), difference_difference_l_L.
    reflexivity.
Qed.

Lemma for_finished_spec ids : forall (s : HTTPEEWClient B),
  let o := for_finished ids s in
  res o = Ok tt /\ calc_tasks (st o) = calc_tasks s /\
  forall k, _alerts (st o) !! k = if decide (k ∈ ids) then None else _alerts s !! k.
Proof.
  induction ids as [|id ids IH]; intros s; cbv zeta.
  - cbn [for_finished ret res st]. split; [reflexivity|]. split; [reflexivity|].
    intros k. rewrite decide_False by apply not_elem_of_nil. reflexivity.
  - cbn [for_finished]. rewrite bind_gets, bind_modify.
    set (s1 := set_alerts (delete id (_alerts s)) s).
    assert (Hk : forall s2 : HTTPEEWClient B,
               _alerts s2 = _alerts s1 -> calc_tasks s2 = calc_tasks s1 ->
               let o := for_finished ids s2 in
               res o = Ok tt /\ calc_tasks (st o) = calc_tasks s /\
               forall k, _alerts (st o) !! k
                         = if decide (k ∈ id :: ids) then None else _alerts s !! k).
    { intros s2 Ha Hc. destruct (IH s2) as (I1 & I2 & I3). cbv zeta.
      split; [exact I1|]. split; [rewrite I2, Hc; reflexivity|].
      intros k. rewrite I3, Ha. subst s1. cbn [_alerts set_alerts].
      destruct (decide (k = id)) as [->|Hne].
      - rewrite lookup_delete_eq, (decide_True (P := id ∈ id :: ids)) by left.
        case_decide; reflexivity.
      - rewrite lookup_delete_ne by congruence.
        destruct (decide (k ∈ ids)) as [Hin|Hnin].
        + rewrite decide_True by (right; exact Hin). reflexivity.
        + rewrite decide_False; [reflexivity|].
          intros Hin. apply elem_of_cons in Hin as [?|?]; contradiction. }
    destruct (_alerts s !! id) as [e|].
    + erewrite bind_eq by apply lift_alert_eq. cbn [res st tr].
      apply Hk; reflexivity.
    + rewrite bind_ret. apply Hk; reflexivity.
Qed.

(** The records lifted by the second loop are those stored under the ids
    it is given. *)
Lemma for_finished_events ids : forall (s : HTTPEEWClient B),
  NoDup ids ->
  events (tr (for_finished ids s)) = omap (fun id => pair Lift <$> _alerts s !! id) ids.
Proof.
  induction ids as [|id ids IH]; intros s Hnd; [reflexivity|].
  apply NoDup_cons in Hnd as [Hnin Hnd].
  cbn [for_finished]. rewrite bind_gets, bind_modify.
  set (s1 := set_alerts (delete id (_alerts s)) s).
  assert (Hrest : forall s2 : HTTPEEWClient B, _alerts s2 = _alerts s1 ->
            events (tr (for_finished ids s2))
            = omap (fun id => pair Lift <$> _alerts s !! id) ids).
  { intros s2 Ha. rewrite (IH s2 Hnd). apply omap_ext_in. intros k Hk.
    rewrite Ha. subst s1. cbn [_alerts set_alerts].
    rewrite lookup_delete_ne; [reflexivity|]. intros ->. contradiction. }
  cbn [omap list_omap].
  destruct (_alerts s !! id) as [e|]; cbn [fmap option_fmap option_map].
  - erewrite bind_eq by apply lift_alert_eq. cbn [tr].
    rewrite events_app, events_lift. cbn [app]. f_equal. apply Hrest. reflexivity.
  - rewrite bind_ret. apply Hrest. reflexivity.
Qed.

(** What the first loop leaves: the ids outside the snapshot are as before,
    and the entries of the snapshot are known, at their serials when
    [from_dict] keeps them. *)
Lemma for_data_sync data : forall chk (s : HTTPEEWClient B),
  consistent s -> Forall (well_formed from_dict) data -> NoDup (map p_id data) ->
  let o := for_data from_dict data chk s in
  res o = Ok (chk ∖ ids_of data) /\ consistent (st o) /\
  (forall id, id ∉ ids_of data -> _alerts (st o) !! id = _alerts s !! id) /\
  (forall id, id ∈ ids_of data -> is_Some (_alerts (st o) !! id)) /\
  (keeps_serial from_dict -> Forall (up_to_date (_alerts (st o))) data).
Proof.
  induction data as [|d data IH]; intros chk s Hs Hwf Hnd; cbv zeta.
  - cbn [for_data]. rewrite ids_of_nil, difference_empty_L.
    split; [reflexivity|]. split; [exact Hs|]. split; [reflexivity|].
    split; [|constructor]. intros id Hid. exfalso. exact (not_elem_of_empty _ Hid).
  - apply Forall_cons in Hwf as [(Hid & Hser & Hok) Hwf].
    cbn [map] in Hnd. apply NoDup_cons in Hnd as [Hnin Hnd].
    destruct Hid as [id Hid]. destruct Hser as [n Hn].
    destruct (from_dict d) as [e|] eqn:Hfd; [|discriminate].
    pose proof (from_dict_keeps_id _ _ Hfd) as Hk. rewrite Hid in Hk. injection Hk as ->.
    assert (Hfresh : eew_id e ∉ ids_of data).
    { rewrite elem_of_ids_of, <- Hid. exact Hnin. }
    rewrite (ids_of_cons d data _ Hid).
    (* what remains to be shown once [d] has been handled, leaving [s1] *)
    assert (Hk : forall (s1 : HTTPEEWClient B) e1,
               consistent s1 ->
               _alerts s1 !! eew_id e = Some e1 ->
               (keeps_serial from_dict -> eew_serial e1 = n) ->
               (forall id, id <> eew_id e -> _alerts s1 !! id = _alerts s !! id) ->
               let o := for_data from_dict data (chk ∖ {[eew_id e]}) s1 in
               res o = Ok (chk ∖ ({[eew_id e]} ∪ ids_of data)) /\ consistent (st o) /\
               (forall id, id ∉ {[eew_id e]} ∪ ids_of data ->
                           _alerts (st o) !! id = _alerts s !! id) /\
               (forall id, id ∈ {[eew_id e]} ∪ ids_of data -> is_Some (_alerts (st o) !! id)) /\
               (keeps_serial from_dict -> Forall (up_to_date (_alerts (st o))) (d :: data))).
    { intros s1 e1 Hs1 He1 Hser1 Hframe.
      destruct (IH (chk ∖ {[eew_id e]}) s1 Hs1 Hwf Hnd) as (I1 & I2 & I3 & I4 & I5).
      cbv zeta. split; [|split; [exact I2|split; [|split]]].
      - rewrite I1, difference_difference_l_L. reflexivity.
      - intros id Hid'. apply not_elem_of_union in Hid' as [Hid1 Hid2].
        rewrite (I3 _ Hid2). apply Hframe. intros ->. apply Hid1, elem_of_singleton. reflexivity.
      - intros id Hid'. apply elem_of_union in Hid' as [Hid'|Hid']; [|apply I4, Hid'].
        apply elem_of_singleton in Hid' as ->. rewrite (I3 _ Hfresh), He1. eauto.
      - intros Hks. constructor; [|apply I5, Hks].
        exists (eew_id e), n, e1. rewrite (I3 _ Hfresh). auto. }
    cbn [for_data]. rewrite Hid, Hn. unfold getitem.
    rewrite bind_ret, bind_gets.
    destruct (_alerts s !! eew_id e) as [old|] eqn:Hold.
    + rewrite bind_ret. case_bool_decide as Hne.
      * destruct (consistent_lookup _ _ _ Hs Hold) as [_ (t & Ht & _)].
        erewrite bind_eq by (eapply update_alert_eq; eassumption).
        cbn [res st tr]. set (s1 := Build_HTTPEEWClient _ _ _ _ _ _ _ _).
        apply (Hk s1 (with_calc_task e (Some (calc_tasks s)))).
        -- eapply consistent_alloc; [| |exact Hs]; reflexivity.
        -- subst s1. cbn [_alerts]. apply lookup_insert_eq.
        -- intros Hks. pose proof (Hks _ _ Hfd) as Hs'. rewrite Hn in Hs'.
           injection Hs' as ->. reflexivity.
        -- intros id Hid'. subst s1. cbn [_alerts]. apply lookup_insert_ne. congruence.
      * apply (Hk s old Hs Hold).
        -- intros _. destruct (decide (eew_serial old = n)); [assumption|contradiction].
        -- reflexivity.
    + erewrite bind_eq by (eapply new_alert_eq; eassumption).
      cbn [res st tr]. set (s1 := Build_HTTPEEWClient _ _ _ _ _ _ _ _).
      apply (Hk s1 (with_calc_task e (Some (calc_tasks s)))).
      -- eapply consistent_alloc; [| |exact Hs]; reflexivity.
      -- subst s1. cbn [_alerts]. apply lookup_insert_eq.
      -- intros Hks. pose proof (Hks _ _ Hfd) as Hs'. rewrite Hn in Hs'.
         injection Hs' as ->. reflexivity.
      -- intros id Hid'. subst s1. cbn [_alerts]. apply lookup_insert_ne. congruence.
Qed.

Lemma expected_not_lift known d id : expected known d <> Some (Lift, id).
Proof.
  unfold expected. destruct (p_id d); [|discriminate].
  destruct (known !! s); [|discriminate].
  destruct (p_serial d); [|discriminate]. case_bool_decide; discriminate.
Qed.

Lemma filter_lift_kinds evs known data :
  kinds evs = omap (expected known) data ->
  filter (fun ke : EventKind * EEW => ke.1 = Lift) evs = [].
Proof.
  intros H. assert (Hall : Forall (fun ke : EventKind * EEW => ke.1 <> Lift) evs).
  { apply Forall_forall. intros [k e] Hin Hk. cbn in Hk. subst k.
    assert (Hk : (Lift, eew_id e) ∈ kinds evs).
    { unfold kinds. apply list_elem_of_fmap. exists (Lift, e). split; [reflexivity|exact Hin]. }
    rewrite H in Hk. apply list_elem_of_omap in Hk as (d & _ & Hd).
    exact (expected_not_lift _ _ _ Hd). }
  clear H. induction Hall as [|ke evs Hke _ IH]; [reflexivity|].
  rewrite filter_cons_False by exact Hke. exact IH.
Qed.

Lemma filter_lift_lifted {X} (f : X -> option EEW) (l : list X) :
  filter (fun ke : EventKind * EEW => ke.1 = Lift) (omap (fun x => pair Lift <$> f x) l)
  = omap (fun x => pair Lift <$> f x) l.
Proof.
  induction l as [|x l IH]; [reflexivity|].
  cbn [omap list_omap]. destruct (f x) as [e|]; cbn [fmap option_fmap option_map]; [|exact IH].
  rewrite filter_cons_True by reflexivity. f_equal. exact IH.
Qed.

(** The whole diff on a well-formed snapshot without repeated ids. *)
Lemma process_sync data (s : HTTPEEWClient B) :
  consistent s -> Forall (well_formed from_dict) data -> NoDup (map p_id data) ->
  let o := process from_dict data s in
  let fin := dom (_alerts s) ∖ ids_of data in
  res o = Ok tt /\
  (forall k, _alerts (st o) !! k <> None <-> k ∈ ids_of data) /\
  (keeps_serial from_dict -> Forall (up_to_date (_alerts (st o))) data) /\
  filter (fun ke => ke.1 = Lift) (events (tr o))
  = omap (fun id => pair Lift <$> _alerts s !! id) (elements fin).
Proof.
  intros Hs Hwf Hnd. cbv zeta. unfold process. rewrite bind_gets.
  destruct (for_data_sync data (dom (_alerts s)) s Hs Hwf Hnd) as (F1 & F2 & F3 & F4 & F5).
  destruct (for_data_events from_dict from_dict_keeps_id data (dom (_alerts s)) s Hs Hwf Hnd)
    as (fin' & _ & Hev).
  destruct (for_data from_dict data (dom (_alerts s)) s) as [r s1 t1] eqn:Hfd.
  cbn [res st tr] in F1, F2, F3, F4, F5, Hev. subst r.
  erewrite bind_eq by exact Hfd. cbn [res st tr].
  set (fin := dom (_alerts s) ∖ ids_of data).
  destruct (for_finished_spec (elements fin) s1) as (G1 & _ & G3).
  assert (Hin : forall k, k ∈ elements fin <-> k ∈ dom (_alerts s) /\ k ∉ ids_of data).
  { intros k. rewrite elem_of_elements. apply elem_of_difference. }
  split; [exact G1|]. split; [|split].
  - intros k. rewrite G3. destruct (decide (k ∈ elements fin)) as [Hk|Hk].
    + apply Hin in Hk as [_ Hk]. split; [congruence|contradiction].
    + destruct (decide (k ∈ ids_of data)) as [Hd|Hd].
      * split; [auto|]. intros _. destruct (F4 k Hd) as [e He]. congruence.
      * rewrite (F3 k Hd). split; [|contradiction]. intros Hne. exfalso. apply Hk, Hin.
        split; [|exact Hd]. apply elem_of_dom. destruct (_alerts s !! k); [eauto|congruence].
  - intros Hks. pose proof (F5 Hks) as Hall. rewrite Forall_forall in Hall |- *.
    intros d Hd. destruct (Hall d Hd) as (id & n & e & Hid & Hn & He & Hser).
    exists id, n, e. rewrite G3, decide_False; [auto|].
    intros Hk. apply Hin in Hk as [_ Hk]. apply Hk, elem_of_ids_of.
    rewrite <- Hid. apply list_elem_of_fmap_2. exact Hd.
  - rewrite events_app, filter_app.
    rewrite (filter_lift_kinds _ _ _ Hev). cbn [app].
    rewrite (for_finished_events (elements fin) s1) by apply NoDup_elements.
    rewrite filter_lift_lifted. apply omap_ext_in. intros k Hk.
    apply Hin in Hk as [_ Hk]. rewrite (F3 k Hk). reflexivity.
Qed.

End SyncFacts.

Lemma EEW_from_dict_keeps_serial : keeps_serial EEW_from_dict.
Proof.
  intros d e H. unfold EEW_from_dict in H.
  destruct (p_id d), (p_serial d), (p_final d), (p_eq d); try discriminate.
  injection H as <-. reflexivity.
Qed.

Lemma knows_A_consistent : consistent knows_A.
Proof.
  unfold consistent, knows_A. cbn [_alerts calc_tasks].
  apply map_Forall_singleton. reflexivity.
Qed.

Lemma for_data_missing_key {B} from_dict d rest chk (s : HTTPEEWClient B) key :
  missing_key (_alerts s) d = Some key ->
  for_data from_dict (d :: rest) chk s = mkOut (Raise (KeyError key)) s [].
Proof.
  unfold missing_key. intros H. cbn [for_data]. unfold getitem.
  destruct (p_id d) as [id|].
  - rewrite bind_ret, bind_gets. destruct (_alerts s !! id) as [old|]; [|discriminate].
    destruct (p_serial d); [discriminate|]. injection H as <-. reflexivity.
  - injection H as <-. reflexivity.
Qed.

(** X1: [recreate_session] returns normally and leaves an open session.
    It creates a session, exactly one, only when none is set or the
    current one is closed; on an open session, and when it is called a
    second time, it does nothing. *)
Theorem recreate_session_opens_once {B} (s : HTTPEEWClient B) :
  let o := recreate_session s in
  res o = Ok tt /\ session_open (st o) = true /\
  tr o = (if session_open s then [] else [SessionCreate (sessions s)]) /\
  st o = (if session_open s then s
          else set_session (Some {| session_id := sessions s; closed := false |})
                 (set_sessions (S (sessions s)) s)) /\
  recreate_session (st o) = mkOut (Ok tt) (st o) [].
Proof.
  cbv zeta. destruct (session_open s) eqn:Ho.
  - rewrite (recreate_session_open s Ho). cbn [res st tr].
    split; [reflexivity|]. split; [exact Ho|]. split; [reflexivity|].
    split; [reflexivity|]. apply recreate_session_open, Ho.
  - rewrite (recreate_session_not_open s Ho). cbn [res st tr].
    split; [reflexivity|]. split; [reflexivity|]. split; [reflexivity|].
    split; [reflexivity|]. apply recreate_session_open. reflexivity.
Qed.

(** X2: when the first [k] GETs of a poll raise, with [k] at most the
    number of retries, and the next GET returns a body, the poll ends as a
    poll whose first GET returns that body: same outcome, same calls off
    the fetch path (computations, events and notifications, in the same
    order), same known alerts and notification clients.  It has issued
    [k + 1] GETs. *)
Theorem transient_failures_are_invisible {B} from_dict upstream k retry
    (s : HTTPEEWClient B) data :
  session_open s = true -> (k <= retry)%nat ->
  fetch_fails upstream s k ->
  upstream (requests s + k)%nat = FetchReturns data ->
  let o := _get_request from_dict upstream retry s in
  let o' := _get_request from_dict (fun _ => FetchReturns data) 0 s in
  res o = res o' /\
  filter (fun ev => off_fetch_path ev = true) (tr o)
  = filter (fun ev => off_fetch_path ev = true) (tr o') /\
  _alerts (st o) = _alerts (st o') /\
  _notification_client (st o) = _notification_client (st o') /\
  count is_get (tr o) = S k.
Proof.
  intros Ho Hk Hf Hup.
  destruct (get_request_recovers from_dict upstream k retry s data Ho Hk Hf Hup)
    as (H1 & H2 & (H3 & _ & H4) & H5).
  cbv zeta. auto.
Qed.

Lemma transient_failures_are_invisible_witness :
  let o := _get_request EEW_from_dict feed_late 3 knows_A in
  let o' := _get_request EEW_from_dict (fun _ => FetchReturns (JArray [entry "B" 1])) 0
              knows_A in
  res o = res o' /\
  filter (fun ev => off_fetch_path ev = true) (tr o)
  = filter (fun ev => off_fetch_path ev = true) (tr o') /\
  _alerts (st o) = _alerts (st o') /\
  _notification_client (st o) = _notification_client (st o') /\
  count is_get (tr o) = 4%nat.
Proof.
  apply (transient_failures_are_invisible EEW_from_dict feed_late 3 3 knows_A
           (JArray [entry "B" 1])).
  - reflexivity.
  - lia.
  - intros j Hj. exists true. destruct j as [|[|[|j]]]; [reflexivity..|lia].
  - reflexivity.
Defined.

(** X3: a poll issues at most [retry + 1] GETs and creates at most [retry]
    sessions, however it ends. *)
Theorem poll_issues_bounded_gets {B} from_dict upstream retry (s : HTTPEEWClient B) :
  let t := tr (_get_request from_dict upstream retry s) in
  (count is_get t <= S retry)%nat /\ (count is_session_create t <= retry)%nat.
Proof. apply get_request_counts. Qed.

(** X4: after a poll that fetched a non-empty snapshot of well-formed
    entries without repeated ids, from a client whose records are
    consistent, the poll has returned normally and the known alerts are
    synced with the snapshot: their ids are the ids of the snapshot, and
    each is known at the serial of its entry.  [from_dict] is taken to
    keep the id and the serial of an entry. *)
Theorem poll_syncs_known_alerts {B} from_dict upstream retry (s : HTTPEEWClient B) data :
  keeps_id from_dict -> keeps_serial from_dict -> consistent s ->
  fetch_returns upstream s (JArray data) ->
  Forall (well_formed from_dict) data -> NoDup (map p_id data) -> data <> [] ->
  let o := _get_request from_dict upstream retry s in
  res o = Ok tt /\ synced data (_alerts (st o)).
Proof.
  intros Hk Hks Hs Hfetch Hwf Hnd Hne. cbv zeta.
  rewrite (get_request_truthy from_dict upstream retry s _ Hfetch)
    by (destruct data; [congruence|reflexivity]).
  cbv zeta. cbn [res st json_items].
  destruct (process_sync from_dict Hk data (set_requests (S (requests s)) s))
    as (P1 & P2 & P3 & _); [|exact Hwf|exact Hnd|].
  { eapply consistent_same; [| |exact Hs]; reflexivity. }
  split; [exact P1|]. split; [|exact (P3 Hks)].
  apply set_eq. intros k. rewrite elem_of_dom, <- not_eq_None_Some. apply P2.
Qed.

Lemma poll_syncs_known_alerts_witness :
  let o := _get_request EEW_from_dict feed_A3_B1 3 knows_A2 in
  res o = Ok tt /\ synced [entry "A" 3; entry "B" 1] (_alerts (st o)).
Proof.
  apply (poll_syncs_known_alerts EEW_from_dict feed_A3_B1 3 knows_A2
           [entry "A" 3; entry "B" 1]).
  - exact EEW_from_dict_keeps_id.
  - exact EEW_from_dict_keeps_serial.
  - exact knows_A2_consistent.
  - split; [exists {| session_id := 0; closed := false |}; split; reflexivity|reflexivity].
  - repeat constructor; eexists; reflexivity.
  - cbn. repeat constructor; intros H; repeat (apply elem_of_cons in H as [H|H]; [discriminate|]);
      inversion H.
  - discriminate.
Defined.

(** X5: a poll whose snapshot the known alerts are already synced with
    makes one call, the GET: it emits no event, starts and cancels no
    computation, calls no notification client and changes nothing but the
    count of the requests.  Polling an unchanged feed again is silent. *)
Theorem poll_of_synced_snapshot_is_silent {B} from_dict upstream retry
    (s : HTTPEEWClient B) data :
  fetch_returns upstream s (JArray data) -> synced data (_alerts s) ->
  _get_request from_dict upstream retry s
  = mkOut (Ok tt) (set_requests (S (requests s)) s) [SessionGet].
Proof.
  intros Hfetch [Hdom Hall]. destruct data as [|d data].
  - apply (get_request_falsy from_dict upstream retry s _ Hfetch). reflexivity.
  - rewrite (get_request_truthy from_dict upstream retry s _ Hfetch) by reflexivity.
    cbv zeta. cbn [json_items]. unfold process. rewrite bind_gets.
    change (_alerts (set_requests (S (requests s)) s)) with (_alerts s).
    erewrite bind_eq by (apply for_data_up_to_date; exact Hall).
    rewrite Hdom, difference_diag_L, elements_empty. reflexivity.
Qed.

Lemma poll_of_synced_snapshot_is_silent_witness :
  _get_request EEW_from_dict (fun _ => FetchReturns (JArray [entry "A" 1])) 3 knows_A
  = mkOut (Ok tt) (set_requests (S (requests knows_A)) knows_A) [SessionGet].
Proof.
  apply (poll_of_synced_snapshot_is_silent EEW_from_dict
           (fun _ => FetchReturns (JArray [entry "A" 1])) 3 knows_A [entry "A" 1]).
  - split; [exists {| session_id := 0; closed := false |}; split; reflexivity|reflexivity].
  - split.
    + apply set_eq. intros k. unfold ids_of, knows_A. cbn [_alerts omap list_omap entry p_id].
      rewrite dom_singleton. cbn. rewrite elem_of_union, elem_of_singleton.
      split; [auto|]. intros [H|H]; [exact H|]. exfalso. exact (not_elem_of_empty _ H).
    + repeat constructor. exists "A", 1, (record "A" 1 0). repeat split; reflexivity.
Defined.

(** X6: in a poll that fetched a non-empty snapshot of well-formed entries
    without repeated ids, a lift event is emitted exactly for the records
    known before the poll whose id is absent from the snapshot, once each,
    and a lifted id is no longer known after the poll.  [from_dict] is
    taken to keep the id of an entry, and the records of the client to be
    consistent. *)
Theorem lift_iff_known_and_absent {B} from_dict upstream retry (s : HTTPEEWClient B) data e :
  keeps_id from_dict -> consistent s -> fetch_returns upstream s (JArray data) ->
  Forall (well_formed from_dict) data -> NoDup (map p_id data) -> data <> [] ->
  let o := _get_request from_dict upstream retry s in
  ((Lift, e) ∈ events (tr o)
   <-> _alerts s !! eew_id e = Some e /\ eew_id e ∉ ids_of data) /\
  ((Lift, e) ∈ events (tr o) -> _alerts (st o) !! eew_id e = None) /\
  of_kind Lift (events (tr o)) = size (dom (_alerts s) ∖ ids_of data).
Proof.
  intros Hk Hs Hfetch Hwf Hnd Hne. cbv zeta.
  rewrite (get_request_truthy from_dict upstream retry s _ Hfetch)
    by (destruct data; [congruence|reflexivity]).
  cbv zeta. cbn [res st tr json_items].
  change (events (SessionGet :: ?t)) with (events t).
  set (s0 := set_requests (S (requests s)) s).
  assert (Hs0 : consistent s0) by (eapply consistent_same; [| |exact Hs]; reflexivity).
  destruct (process_sync from_dict Hk data s0 Hs0 Hwf Hnd) as (_ & P2 & _ & P4).
  change (_alerts s0) with (_alerts s) in P4.
  set (fin := dom (_alerts s) ∖ ids_of data) in *.
  assert (Hiff : (Lift, e) ∈ events (tr (process from_dict data s0))
                 <-> _alerts s !! eew_id e = Some e /\ eew_id e ∉ ids_of data).
  { transitivity ((Lift, e) ∈ filter (fun ke : EventKind * EEW => ke.1 = Lift)
                                (events (tr (process from_dict data s0)))).
    { rewrite list_elem_of_filter. cbn. tauto. }
    rewrite P4, list_elem_of_omap. split.
    - intros (id & Hin & Heq). destruct (_alerts s !! id) as [e'|] eqn:He'; [|discriminate].
      cbn in Heq. injection Heq as ->.
      destruct (consistent_lookup _ _ _ Hs He') as [<- _].
      apply elem_of_elements, elem_of_difference in Hin as [_ Hin]. auto.
    - intros [He Hni]. exists (eew_id e). split; [|rewrite He; reflexivity].
      apply elem_of_elements, elem_of_difference. split; [|exact Hni].
      apply elem_of_dom. eauto. }
  split; [exact Hiff|]. split.
  - intros Hin. apply Hiff in Hin as [_ Hni].
    destruct (_alerts (st (process from_dict data s0)) !! eew_id e) eqn:Hl; [|reflexivity].
    exfalso. apply Hni, P2. congruence.
  - unfold of_kind. rewrite P4. unfold size, set_size. cbn [compose].
    fold fin. generalize (elements fin) (fun k => proj1 (elem_of_elements fin k)).
    intros l Hl. induction l as [|id l IH]; [reflexivity|].
    cbn [omap list_omap].
    assert (Hid : id ∈ dom (_alerts s)).
    { specialize (Hl id ltac:(left)). apply elem_of_difference in Hl as [Hl _]. exact Hl. }
    apply elem_of_dom in Hid as [e' He']. rewrite He'. cbn. f_equal.
    apply IH. intros k Hk'. apply Hl. right. exact Hk'.
Qed.

Lemma lift_iff_known_and_absent_witness :
  let o := _get_request EEW_from_dict (fun _ => FetchReturns (JArray [entry "B" 1])) 3
             knows_A in
  ((Lift, record "A" 1 0) ∈ events (tr o)
   <-> _alerts knows_A !! eew_id (record "A" 1 0) = Some (record "A" 1 0) /\
       eew_id (record "A" 1 0) ∉ ids_of [entry "B" 1]) /\
  ((Lift, record "A" 1 0) ∈ events (tr o) ->
   _alerts (st o) !! eew_id (record "A" 1 0) = None) /\
  of_kind Lift (events (tr o)) = size (dom (_alerts knows_A) ∖ ids_of [entry "B" 1]).
Proof.
  apply (lift_iff_known_and_absent EEW_from_dict (fun _ => FetchReturns (JArray [entry "B" 1]))
           3 knows_A [entry "B" 1] (record "A" 1 0)).
  - exact EEW_from_dict_keeps_id.
  - exact knows_A_consistent.
  - split; [exists {| session_id := 0; closed := false |}; split; reflexivity|reflexivity].
  - repeat constructor; eexists; reflexivity.
  - cbn. repeat constructor. intros H. inversion H.
  - discriminate.
Defined.

(** X7: an entry without ["id"], or an entry of a known id without
    ["serial"], ends the poll with the [KeyError] of that key: the entries
    before it have been processed, the entries after it and the lifts are
    not.  (The serial of an entry whose id is unknown is not read by the
    diff.) *)
Theorem entry_without_key_aborts_poll {B} from_dict upstream retry
    (s : HTTPEEWClient B) pre d post key chk :
  fetch_returns upstream s (JArray (pre ++ d :: post)) ->
  res (for_data from_dict pre (dom (_alerts s)) (set_requests (S (requests s)) s)) = Ok chk ->
  missing_key
    (_alerts (st (for_data from_dict pre (dom (_alerts s)) (set_requests (S (requests s)) s))))
    d = Some key ->
  let o := for_data from_dict pre (dom (_alerts s)) (set_requests (S (requests s)) s) in
  _get_request from_dict upstream retry s
  = mkOut (Raise (KeyError key)) (st o) (SessionGet :: tr o).
Proof.
  intros Hfetch Hres Hkey. cbv zeta.
  rewrite (get_request_truthy from_dict upstream retry s _ Hfetch)
    by (destruct pre; reflexivity).
  cbv zeta. cbn [json_items]. unfold process. rewrite bind_gets.
  change (_alerts (set_requests (S (requests s)) s)) with (_alerts s).
  destruct (for_data from_dict pre (dom (_alerts s)) (set_requests (S (requests s)) s))
    as [r s1 t1] eqn:Ho.
  cbn [res st tr] in *. subst r.
  assert (Hfor : for_data from_dict (pre ++ d :: post) (dom (_alerts s))
                   (set_requests (S (requests s)) s)
                 = mkOut (Raise (KeyError key)) s1 t1).
  { rewrite for_data_app. erewrite bind_eq by exact Ho.
    rewrite (for_data_missing_key from_dict d post chk s1 key Hkey).
    cbn [res st tr]. rewrite app_nil_r. reflexivity. }
  erewrite bind_eq_raise by exact Hfor. reflexivity.
Qed.

Lemma entry_without_key_aborts_poll_witness :
  let o := for_data EEW_from_dict [entry "C" 1] (dom (_alerts knows_A))
             (set_requests (S (requests knows_A)) knows_A) in
  _get_request EEW_from_dict
    (fun _ => FetchReturns (JArray ([entry "C" 1] ++ anonymous_entry :: [entry "B" 1])))
    3 knows_A
  = mkOut (Raise (KeyError "id")) (st o) (SessionGet :: tr o).
Proof.
  apply (entry_without_key_aborts_poll EEW_from_dict
           (fun _ => FetchReturns (JArray ([entry "C" 1] ++ anonymous_entry :: [entry "B" 1])))
           3 knows_A [entry "C" 1] anonymous_entry [entry "B" 1] "id"
           (dom (_alerts knows_A) ∖ {["C"]})).
  - split; [exists {| session_id := 0; closed := false |}; split; reflexivity|reflexivity].
  - vm_compute. reflexivity.
  - reflexivity.
Defined.

Lemma of_kind_app k l1 l2 : of_kind k (l1 ++ l2) = (of_kind k l1 + of_kind k l2)%nat.
Proof. unfold of_kind. rewrite filter_app, length_app. reflexivity. Qed.

Section DeliveryFacts.

Context {B : Type}.
Variable from_dict : Payload -> Result EEW.
Variable upstream : nat -> FetchOutcome.

Lemma delivers_ret {A} (a : A) : delivers (B:=B) (ret a).
Proof. intros s. reflexivity. Qed.

Lemma delivers_raise {A} e : delivers (B:=B) (raise (A:=A) e).
Proof. intros s. reflexivity. Qed.

Lemma delivers_gets {A} (g : HTTPEEWClient B -> A) : delivers (gets g).
Proof. intros s. reflexivity. Qed.

Lemma delivers_modify (g : HTTPEEWClient B -> HTTPEEWClient B) :
  (forall s, _notification_client (g s) = _notification_client s) -> delivers (modify g).
Proof. intros Hg s. cbn. apply Hg. Qed.

Lemma delivers_call ev : event_of ev = None -> delivers (B:=B) (call ev).
Proof. intros H s. cbn [call st tr]. unfold events. cbn [omap list_omap]. rewrite H. reflexivity. Qed.

Lemma delivers_bind {A C} (m : M (HTTPEEWClient B) A) (f : A -> M (HTTPEEWClient B) C) :
  delivers m -> (forall a, delivers (f a)) -> delivers (bind m f).
Proof.
  intros Hm Hf s. unfold bind. destruct (res (m s)) as [a|x]; cbn [st tr].
  - rewrite events_app, foldl_app, <- Hm. apply Hf.
  - apply Hm.
Qed.

Lemma delivers_try {A} (m : M (HTTPEEWClient B) A) : delivers m -> delivers (try m).
Proof. intros Hm s. apply Hm. Qed.

(** An event is emitted and handed to every notification client. *)
Lemma delivers_emit {A} k e (a : A) :
  delivers (B:=B) (call (Emit k e) ;; broadcast (fun c => method k c e) ;; ret a).
Proof.
  intros s. rewrite bind_call. cbn [st tr].
  erewrite bind_eq by apply broadcast_eq. cbn [ret st tr].
  rewrite app_nil_r.
  change (events (Emit k e :: ?t)) with ((k, e) :: events t).
  pose proof (events_notify_trace (fun c => method k c e) (_notification_client s)) as Hn.
  unfold notify_trace in Hn. rewrite Hn. reflexivity.
Qed.

Ltac delivers_tac :=
  repeat match goal with
    | |- delivers (bind (call (Emit ?k _)) _) => apply (delivers_emit k)
    | |- delivers (ret _) => apply delivers_ret
    | |- delivers (raise _) => apply delivers_raise
    | |- delivers (gets _) => apply delivers_gets
    | |- delivers (modify _) => apply delivers_modify; intros ?; reflexivity
    | |- delivers (call _) => apply delivers_call; reflexivity
    | |- delivers (try _) => apply delivers_try
    | |- delivers (match ?x with _ => _ end) => destruct x
    | |- delivers (bind _ _) => apply delivers_bind; [|intros ?]
    end.

Lemma new_alert_delivers d : delivers (new_alert (B:=B) from_dict d).
Proof. unfold new_alert, calc_all_data_in_executor, lift_result. delivers_tac. Qed.

Lemma update_alert_delivers d : delivers (update_alert (B:=B) from_dict d).
Proof.
  unfold update_alert, calc_all_data_in_executor, lift_result, cancel_calc_task.
  delivers_tac.
Qed.

Lemma lift_alert_delivers e : delivers (lift_alert (B:=B) e).
Proof. unfold lift_alert. delivers_tac. Qed.

Lemma for_data_delivers data : forall chk, delivers (for_data (B:=B) from_dict data chk).
Proof.
  induction data as [|d data IH]; intros chk; cbn [for_data]; [apply delivers_ret|].
  unfold getitem.
  repeat first
    [ apply IH | apply new_alert_delivers | apply update_alert_delivers
    | progress delivers_tac ].
Qed.

Lemma for_finished_delivers ids : delivers (for_finished (B:=B) ids).
Proof.
  induction ids as [|id ids IH]; cbn [for_finished]; [apply delivers_ret|].
  repeat first [ apply IH | apply lift_alert_delivers | progress delivers_tac ].
Qed.

Lemma process_delivers data : delivers (process (B:=B) from_dict data).
Proof.
  unfold process.
  repeat first
    [ apply for_data_delivers | apply for_finished_delivers | progress delivers_tac ].
Qed.

Lemma session_get_delivers : delivers (session_get (B:=B) upstream).
Proof.
  unfold session_get. apply delivers_bind; [apply delivers_gets|]. intros [ss|]; [|delivers_tac].
  destruct (closed ss); [delivers_tac|].
  repeat (apply delivers_bind; [delivers_tac|intros ?]).
  destruct (upstream _); delivers_tac.
Qed.

Lemma recreate_session_delivers : delivers (recreate_session (B:=B)).
Proof. unfold recreate_session. delivers_tac. Qed.

Lemma get_request_delivers retry : delivers (_get_request (B:=B) from_dict upstream retry).
Proof.
  induction retry as [|retry IH]; cbn [_get_request];
    (apply delivers_bind; [apply delivers_try, session_get_delivers|]);
    intros [data|x].
  - destruct (json_truthy data); cbn [negb]; [apply process_delivers|apply delivers_ret].
  - delivers_tac.
  - destruct (json_truthy data); cbn [negb]; [apply process_delivers|apply delivers_ret].
  - apply delivers_bind; [apply recreate_session_delivers|]. intros _. apply IH.
Qed.

Lemma loop_delivers ticks : delivers (_loop (B:=B) from_dict upstream ticks).
Proof.
  induction ticks as [|ticks IH]; cbn [_loop]; [apply delivers_ret|].
  apply delivers_bind; [apply delivers_try, get_request_delivers|]. intros r.
  apply delivers_bind; [delivers_tac|]. intros _. apply IH.
Qed.

Lemma start_delivers ticks : delivers (start (B:=B) from_dict upstream ticks).
Proof.
  unfold start. apply delivers_bind; [apply recreate_session_delivers|].
  intros _. apply loop_delivers.
Qed.

End DeliveryFacts.

(** X8: after a poll, and after any run of the client, the notification
    clients are in the state that the delivery of the emitted events, one
    after the other and in their order, leaves them in: every event
    reaches every client exactly once, whatever the other clients do or
    raise. *)
Theorem events_are_delivered_in_order {B} from_dict upstream retry ticks
    (s : HTTPEEWClient B) :
  let o1 := _get_request from_dict upstream retry s in
  let o := start from_dict upstream ticks s in
  _notification_client (st o1) = foldl deliver (_notification_client s) (events (tr o1)) /\
  _notification_client (st o) = foldl deliver (_notification_client s) (events (tr o)).
Proof.
  split; [apply get_request_delivers|apply start_delivers].
Qed.

Section CancelFacts.

Context {B : Type}.
Variable from_dict : Payload -> Result EEW.
Variable upstream : nat -> FetchOutcome.
Hypothesis from_dict_keeps_id : keeps_id from_dict.

Lemma cancels_ret {A} (a : A) : cancels_per_update (B:=B) (ret a).
Proof. intros s. reflexivity. Qed.

Lemma cancels_raise {A} e : cancels_per_update (B:=B) (raise (A:=A) e).
Proof. intros s. reflexivity. Qed.

Lemma cancels_gets {A} (g : HTTPEEWClient B -> A) : cancels_per_update (gets g).
Proof. intros s. reflexivity. Qed.

Lemma cancels_modify (g : HTTPEEWClient B -> HTTPEEWClient B) : cancels_per_update (modify g).
Proof. intros s. reflexivity. Qed.

Lemma cancels_call ev :
  is_cancel ev = false -> event_of ev = None -> cancels_per_update (B:=B) (call ev).
Proof.
  intros H1 H2 s. cbn [call tr]. rewrite count_cons, H1. unfold events. cbn [omap list_omap].
  rewrite H2. reflexivity.
Qed.

Lemma cancels_bind {A C} (m : M (HTTPEEWClient B) A) (f : A -> M (HTTPEEWClient B) C) :
  cancels_per_update m -> (forall a, cancels_per_update (f a)) -> cancels_per_update (bind m f).
Proof.
  intros Hm Hf s. unfold bind. destruct (res (m s)) as [a|x]; cbn [tr].
  - rewrite count_app, events_app, of_kind_app, Hm, Hf. reflexivity.
  - apply Hm.
Qed.

Lemma cancels_try {A} (m : M (HTTPEEWClient B) A) :
  cancels_per_update m -> cancels_per_update (try m).
Proof. intros Hm s. apply Hm. Qed.

Lemma count_cancel_notify_trace (m : NotificationClient B -> M B unit) cs :
  count is_cancel (notify_trace m cs) = 0%nat.
Proof.
  apply (count_none _ is_notify); [|intros [] H; (discriminate || reflexivity)].
  unfold notify_trace. apply Forall_concat_imap. intros i cb.
  apply Forall_fmap, Forall_forall. intros ev _. reflexivity.
Qed.

(** An event other than an update is emitted and handed to every
    notification client. *)
Lemma cancels_emit {A} k e (a : A) :
  k <> Update ->
  cancels_per_update (B:=B) (call (Emit k e) ;; broadcast (fun c => method k c e) ;; ret a).
Proof.
  intros Hk s. rewrite bind_call. cbn [tr].
  erewrite bind_eq by apply broadcast_eq. cbn [ret tr]. rewrite app_nil_r.
  fold (notify_trace (fun c => method k c e) (_notification_client s)).
  rewrite count_cons, count_cancel_notify_trace. cbn [is_cancel].
  change (events (Emit k e :: ?t)) with ((k, e) :: events t).
  rewrite (events_notify_trace (fun c => method k c e)).
  unfold of_kind. rewrite filter_cons_False by exact Hk. reflexivity.
Qed.

Ltac cancels_tac :=
  repeat match goal with
    | |- cancels_per_update (bind (call (Emit ?k _)) _) =>
        apply (cancels_emit k); discriminate
    | |- cancels_per_update (ret _) => apply cancels_ret
    | |- cancels_per_update (raise _) => apply cancels_raise
    | |- cancels_per_update (gets _) => apply cancels_gets
    | |- cancels_per_update (modify _) => apply cancels_modify
    | |- cancels_per_update (call _) => apply cancels_call; reflexivity
    | |- cancels_per_update (try _) => apply cancels_try
    | |- cancels_per_update (match ?x with _ => _ end) => destruct x
    | |- cancels_per_update (bind _ _) => apply cancels_bind; [|intros ?]
    end.

Lemma new_alert_cancels d : cancels_per_update (new_alert (B:=B) from_dict d).
Proof. unfold new_alert, calc_all_data_in_executor, lift_result. cancels_tac. Qed.

Lemma lift_alert_cancels e : cancels_per_update (lift_alert (B:=B) e).
Proof. unfold lift_alert. cancels_tac. Qed.

(** [update_alert] for an id that is known: the computation of the record
    it replaces is cancelled when the update is emitted, and only then. *)
Lemma update_alert_cancels d e old (s : HTTPEEWClient B) :
  from_dict d = Ok e -> _alerts s !! eew_id e = Some old ->
  count is_cancel (tr (update_alert from_dict d s))
  = of_kind Update (events (tr (update_alert from_dict d s))).
Proof.
  intros Hfd Hold. destruct (_calc_task (eew_earthquake old)) as [t|] eqn:Ht.
  - rewrite (update_alert_eq from_dict d e old t s Hfd Hold Ht). cbn [tr].
    rewrite events_update, !count_cons, count_cancel_notify_trace. reflexivity.
  - unfold update_alert. rewrite Hfd. cbn [lift_result].
    rewrite bind_ret, bind_gets, bind_modify, Hold. unfold cancel_calc_task. rewrite Ht.
    reflexivity.
Qed.

Lemma for_data_cancels data : forall chk,
  cancels_per_update (for_data (B:=B) from_dict data chk).
Proof.
  induction data as [|d data IH]; intros chk s; [reflexivity|].
  cbn [for_data]. unfold getitem.
  destruct (p_id d) as [id|] eqn:Hid; [|reflexivity].
  rewrite bind_ret, bind_gets.
  destruct (_alerts s !! id) as [old|] eqn:Hold.
  - destruct (p_serial d) as [n|]; [|reflexivity].
    rewrite bind_ret. case_bool_decide; [|apply IH].
    assert (Hu : count is_cancel (tr (update_alert from_dict d s))
                 = of_kind Update (events (tr (update_alert from_dict d s)))).
    { destruct (from_dict d) as [e|x] eqn:Hfd.
      - pose proof (from_dict_keeps_id _ _ Hfd) as Hk. rewrite Hid in Hk. injection Hk as ->.
        apply (update_alert_cancels d e old s Hfd Hold).
      - rewrite (update_alert_raise from_dict d x s Hfd). reflexivity. }
    unfold bind. destruct (res (update_alert from_dict d s)); cbn [tr]; [|exact Hu].
    rewrite count_app, events_app, of_kind_app, Hu, IH. reflexivity.
  - exact (cancels_bind _ _ (new_alert_cancels d) (fun _ => IH _) s).
Qed.

Lemma for_finished_cancels ids : cancels_per_update (for_finished (B:=B) ids).
Proof.
  induction ids as [|id ids IH]; cbn [for_finished]; [apply cancels_ret|].
  repeat first [ apply IH | apply lift_alert_cancels | progress cancels_tac ].
Qed.

Lemma process_cancels data : cancels_per_update (process (B:=B) from_dict data).
Proof.
  unfold process.
  repeat first
    [ apply for_data_cancels | apply for_finished_cancels | progress cancels_tac ].
Qed.

Lemma session_get_cancels : cancels_per_update (session_get (B:=B) upstream).
Proof.
  unfold session_get. apply cancels_bind; [apply cancels_gets|]. intros [ss|]; [|cancels_tac].
  destruct (closed ss); [cancels_tac|].
  repeat (apply cancels_bind; [cancels_tac|intros ?]).
  destruct (upstream _); cancels_tac.
Qed.

Lemma recreate_session_cancels : cancels_per_update (recreate_session (B:=B)).
Proof. unfold recreate_session. cancels_tac. Qed.

Lemma get_request_cancels retry :
  cancels_per_update (_get_request (B:=B) from_dict upstream retry).
Proof.
  induction retry as [|retry IH]; cbn [_get_request];
    (apply cancels_bind; [apply cancels_try, session_get_cancels|]);
    intros [data|x].
  - destruct (json_truthy data); cbn [negb]; [apply process_cancels|apply cancels_ret].
  - cancels_tac.
  - destruct (json_truthy data); cbn [negb]; [apply process_cancels|apply cancels_ret].
  - apply cancels_bind; [apply recreate_session_cancels|]. intros _. apply IH.
Qed.

Lemma loop_cancels ticks : cancels_per_update (_loop (B:=B) from_dict upstream ticks).
Proof.
  induction ticks as [|ticks IH]; cbn [_loop]; [apply cancels_ret|].
  apply cancels_bind; [apply cancels_try, get_request_cancels|]. intros r.
  apply cancels_bind; [cancels_tac|]. intros _. apply IH.
Qed.

Lemma start_cancels ticks : cancels_per_update (start (B:=B) from_dict upstream ticks).
Proof.
  unfold start. apply cancels_bind; [apply recreate_session_cancels|].
  intros _. apply loop_cancels.
Qed.

End CancelFacts.

(** X9: over any run of the client, the number of computations cancelled
    is the number of update events: a computation is cancelled when its
    alert is updated and only then; lifting an alert cancels nothing.
    [from_dict] is taken to keep the id of an entry. *)
Theorem one_cancel_per_update {B} from_dict upstream ticks (s : HTTPEEWClient B) :
  keeps_id from_dict ->
  let t := tr (start from_dict upstream ticks s) in
  count is_cancel t = of_kind Update (events t).
Proof. intros Hk. apply (start_cancels from_dict upstream Hk). Qed.

Lemma one_cancel_per_update_witness :
  let t := tr (start (B:=unit) EEW_from_dict scenario_feed 3 (init [])) in
  count is_cancel t = of_kind Update (events t).
Proof.
  apply (one_cancel_per_update (B:=unit) EEW_from_dict scenario_feed 3 (init [])).
  exact EEW_from_dict_keeps_id.
Defined.

(** ** The Discord client *)

Section DictFacts.
Context {V : Type}.
Implicit Types (d : list (string * V)) (k : string) (v : V).

Lemma dict_get_set_ne k k' v d : k' <> k -> dict_get k' (dict_set k v d) = dict_get k' d.
Proof.
  intros Hne. induction d as [|[k0 v0] d IH]; cbn [dict_set dict_get].
  - destruct (String.eqb_spec k' k); [contradiction|reflexivity].
  - destruct (String.eqb_spec k k0) as [->|Hk]; cbn [dict_get].
    + destruct (String.eqb_spec k' k0); [contradiction|reflexivity].
    + destruct (String.eqb k' k0); [reflexivity|exact IH].
Qed.

Lemma dict_get_None k d : dict_get k d = None <-> k ∉ map fst d.
Proof.
  induction d as [|[k0 v0] d IH]; cbn [dict_get map fst].
  - split; [intros _; apply not_elem_of_nil|reflexivity].
  - rewrite not_elem_of_cons. destruct (String.eqb_spec k k0) as [->|Hne].
    + split; [discriminate|]. intros [H _]. contradiction.
    + rewrite IH. tauto.
Qed.

Lemma dict_set_keys_known k v d :
  dict_get k d <> None -> map fst (dict_set k v d) = map fst d.
Proof.
  induction d as [|[k0 v0] d IH]; cbn [dict_get dict_set map fst]; [congruence|].
  destruct (String.eqb_spec k k0) as [->|Hne]; cbn [map fst]; [reflexivity|].
  intros H. rewrite (IH H). reflexivity.
Qed.

Lemma dict_set_keys_new k v d :
  dict_get k d = None -> map fst (dict_set k v d) = map fst d ++ [k].
Proof.
  induction d as [|[k0 v0] d IH]; cbn [dict_get dict_set map fst app]; [reflexivity|].
  destruct (String.eqb_spec k k0) as [->|Hne]; cbn [map fst]; [discriminate|].
  intros H. rewrite (IH H). reflexivity.
Qed.

Lemma dict_set_is_dict k v d : is_dict d -> is_dict (dict_set k v d).
Proof.
  unfold is_dict. intros Hd. destruct (dict_get k d) eqn:Hk.
  - rewrite dict_set_keys_known by congruence. exact Hd.
  - rewrite (dict_set_keys_new _ _ _ Hk). apply NoDup_app. split; [exact Hd|].
    split; [|apply NoDup_singleton].
    intros x Hx Hx'. apply list_elem_of_singleton in Hx' as ->.
    apply dict_get_None in Hk. contradiction.
Qed.

Lemma dict_pop_keys k d : map fst (dict_pop k d) ⊆ map fst d.
Proof.
  induction d as [|[k0 v0] d IH]; cbn [dict_pop map fst]; [reflexivity|].
  destruct (String.eqb k k0); cbn [map fst].
  - intros x Hx. right. exact Hx.
  - intros x Hx. apply elem_of_cons in Hx as [->|Hx]; [left|right; apply IH, Hx].
Qed.

Lemma dict_pop_is_dict k d : is_dict d -> is_dict (dict_pop k d).
Proof.
  unfold is_dict. induction d as [|[k0 v0] d IH]; cbn [dict_pop map fst]; [auto|].
  intros Hd. apply NoDup_cons in Hd as [Hn Hd].
  destruct (String.eqb k k0); cbn [map fst]; [exact Hd|].
  apply NoDup_cons. split; [|apply IH, Hd]. intros Hin. apply Hn, (dict_pop_keys k d), Hin.
Qed.

Lemma dict_get_pop_eq k d : is_dict d -> dict_get k (dict_pop k d) = None.
Proof.
  unfold is_dict. induction d as [|[k0 v0] d IH]; cbn [dict_pop map fst]; [reflexivity|].
  intros Hd. apply NoDup_cons in Hd as [Hn Hd].
  destruct (String.eqb_spec k k0) as [->|Hne]; cbn [dict_get].
  - apply dict_get_None. exact Hn.
  - destruct (String.eqb_spec k k0); [contradiction|]. apply IH, Hd.
Qed.

Lemma dict_get_pop_ne k k' d : k' <> k -> dict_get k' (dict_pop k d) = dict_get k' d.
Proof.
  intros Hne. induction d as [|[k0 v0] d IH]; cbn [dict_pop dict_get]; [reflexivity|].
  destruct (String.eqb_spec k k0) as [->|Hk]; cbn [dict_get].
  - destruct (String.eqb_spec k' k0); [contradiction|reflexivity].
  - destruct (String.eqb k' k0); [reflexivity|exact IH].
Qed.

End DictFacts.

Lemma sent_to_app t1 t2 : sent_to (t1 ++ t2) = sent_to t1 ++ sent_to t2.
Proof. unfold sent_to. apply omap_app. Qed.

Lemma sent_to_sends {X} (f : X -> nat) g h i (l : list X) :
  sent_to (map (fun d => ChannelSend (f d) (g d) (h d) (i d)) l) = map f l.
Proof. induction l as [|x l IH]; [reflexivity|]. cbn. f_equal. exact IH. Qed.

Lemma filter_none_map {X Y} (f : X -> option Y) (l : list X) :
  Discord.filter_none (map f l) = omap f l.
Proof.
  unfold Discord.filter_none. induction l as [|x l IH]; [reflexivity|].
  cbn [map omap list_omap]. destruct (f x); rewrite IH; reflexivity.
Qed.

(** X10: [EEWMessages.send] never raises and tries every destination once,
    in order, whatever the platform answers; the set it returns holds the
    messages of the sends that were accepted, in that order, and no cached
    URL. *)
Theorem sends_are_isolated {St} (P : Discord.Platform) (e : EEW)
    (chans : list Discord.Destination) (s : St) :
  let o := Discord.send P e chans s in
  exists m, res o = Ok m /\ st o = s /\
    sent_to (tr o) = map Discord.channel chans /\
    length (tr o) = length chans /\
    Discord.messages m
    = omap (fun d => Discord.channel_send P e (Discord.channel d)) chans /\
    Discord.eew m = e /\ Discord.map_url m = None.
Proof.
  cbv zeta. rewrite send_eq. cbn [res st tr]. eexists. split; [reflexivity|].
  split; [reflexivity|]. split; [apply sent_to_sends|]. split; [apply length_map|].
  split; [|split; reflexivity]. cbn. apply filter_none_map.
Qed.

Section RegistryMoreFacts.

Import Discord.

Variable P : Platform.

Lemma lift_eew_eq e (s : DiscordNotification) :
  lift_eew e s = mkOut (Ok tt) (set_alerts (dict_pop (eew_id e) (alerts s)) s) [].
Proof. reflexivity. Qed.

(** [update_eew] for an alert of the registry. *)
Lemma update_eew_known e m (s : DiscordNotification) :
  dict_get (eew_id e) (alerts s) = Some m ->
  update_eew P e s =
  mkOut (Ok tt)
        (set_alerts
           (dict_set (eew_id e)
              (set_info_embed (Some (InfoEmbed (eew_serial e) (eew_final e)))
                 (set_map_url None (set_eew e m)))
              (alerts s)) s)
        [CalcCityMaxIntensity (eew_id e) (eew_serial e); DrawMap (eew_id e) (eew_serial e)].
Proof.
  intros Hm. unfold update_eew. rewrite bind_gets, Hm. unfold on_alert.
  rewrite update_eew_data_eq. reflexivity.
Qed.

(** [update_eew] for an alert that is not in the registry. *)
Lemma update_eew_unknown e (s : DiscordNotification) :
  dict_get (eew_id e) (alerts s) = None ->
  update_eew P e s =
  mkOut (Ok tt) (st (send_eew P e s)) (tr (send_eew P e s)).
Proof.
  intros Hm. unfold update_eew. rewrite bind_gets, Hm.
  unfold bind. rewrite send_eew_eq. cbn [res st tr ret]. rewrite app_nil_r. reflexivity.
Qed.

Lemma edit_all_app now l1 l2 : forall (s : DiscordNotification),
  edit_all P now (l1 ++ l2) s = bind (edit_all P now l1) (fun _ => edit_all P now l2) s.
Proof.
  induction l1 as [|[id m] l1 IH]; intros s.
  - cbn [app edit_all]. rewrite bind_ret. reflexivity.
  - cbn [app edit_all]. rewrite bind_assoc. apply bind_ext. intros _ s1. apply IH.
Qed.

(** The sets of a tick are edited one after the other as long as the edits
    complete. *)
Lemma edit_all_ok now entries : forall (s : DiscordNotification),
  Forall (fun im => res (edit P now im.2) = Ok tt) entries ->
  res (edit_all P now entries s) = Ok tt /\
  tr (edit_all P now entries s) = concat (map (fun im => tr (edit P now im.2)) entries).
Proof.
  induction entries as [|[id m] entries IH]; intros s Hall; [split; reflexivity|].
  apply Forall_cons in Hall as [Hm Hall]. cbn [snd] in Hm.
  assert (Ho : on_alert id m (edit P now) s
               = mkOut (Ok tt) (set_alerts (dict_set id (st (edit P now m)) (alerts s)) s)
                       (tr (edit P now m))).
  { unfold on_alert. rewrite Hm. reflexivity. }
  cbn [edit_all map concat snd]. erewrite bind_eq by exact Ho. cbn [res tr].
  destruct (IH (set_alerts (dict_set id (st (edit P now m)) (alerts s)) s) Hall) as [I1 I2].
  rewrite I1, I2. split; reflexivity.
Qed.

(** What a tick leaves of the registry: its keys, the destinations and
    the state of the loop. *)
Lemma edit_all_frame now entries : forall (s : DiscordNotification),
  Forall (fun im => dict_get im.1 (alerts s) <> None) entries ->
  let o := edit_all P now entries s in
  map fst (alerts (st o)) = map fst (alerts s) /\
  notification_channels (st o) = notification_channels s /\
  loop_running (st o) = loop_running s.
Proof.
  induction entries as [|[id m] entries IH]; intros s Hall; cbv zeta; [repeat split|].
  apply Forall_cons in Hall as [Hm Hall]. cbn [fst] in Hm.
  cbn [edit_all]. unfold bind, on_alert. cbn [res st tr].
  set (s1 := set_alerts (dict_set id (st (edit P now m)) (alerts s)) s).
  assert (Hk : map fst (alerts s1) = map fst (alerts s))
    by (apply dict_set_keys_known, Hm).
  destruct (res (edit P now m)); cbn [st]; [|repeat split; exact Hk].
  destruct (IH s1) as (I1 & I2 & I3).
  { eapply Forall_impl; [exact Hall|]. intros [id' m'] Hd. cbn [fst] in *.
    rewrite dict_get_None in Hd |- *. rewrite Hk. exact Hd. }
  cbv zeta in I1, I2, I3. rewrite I1, I2, I3. repeat split. exact Hk.
Qed.

Lemma entries_are_keys {V} (d : list (string * V)) :
  is_dict d -> Forall (fun im => dict_get im.1 d <> None) d.
Proof.
  intros _. apply Forall_forall. intros [k v] Hin. cbn [fst].
  rewrite dict_get_None. intros Hn. apply Hn.
  apply list_elem_of_fmap. exists (k, v). split; [reflexivity|exact Hin].
Qed.

Lemma run_op_registry_ok op (s : DiscordNotification) :
  registry_ok s -> res (run_op P op s) = Ok tt -> registry_ok (st (run_op P op s)).
Proof.
  intros [Hd Hl] Hres. destruct op as [e|e|e|now]; cbn [run_op] in *.
  - unfold bind. rewrite send_eew_eq. cbn [res st tr ret].
    split; [apply dict_set_is_dict, Hd|right; reflexivity].
  - destruct (dict_get (eew_id e) (alerts s)) as [m|] eqn:Hm.
    + rewrite (update_eew_known e m s Hm). cbn [st alerts set_alerts loop_running].
      split; [apply dict_set_is_dict, Hd|].
      destruct Hl as [Hl|Hl]; [rewrite Hl in Hm; discriminate|right; exact Hl].
    + rewrite (update_eew_unknown e s Hm), send_eew_eq. cbn [res st tr ret].
      split; [apply dict_set_is_dict, Hd|right; reflexivity].
  - rewrite lift_eew_eq. cbn [st alerts set_alerts loop_running].
    split; [apply dict_pop_is_dict, Hd|].
    destruct Hl as [Hl|Hl]; [left; rewrite Hl; reflexivity|right; exact Hl].
  - unfold update_eew_messages_loop in *. rewrite bind_gets in *.
    destruct (alerts s) as [|p l] eqn:Ha.
    + split; [cbn; rewrite Ha; exact Hd|left; cbn; exact Ha].
    + destruct (edit_all_frame now (p :: l) s) as (F1 & _ & F3).
      { rewrite <- Ha. apply entries_are_keys. rewrite Ha. exact Hd. }
      cbv zeta in F1, F3. unfold registry_ok, is_dict. rewrite F1, F3, Ha.
      split; [exact Hd|]. destruct Hl as [Hl|Hl]; [discriminate|right; exact Hl].
Qed.

Lemma run_ops_registry_ok ops : forall (s : DiscordNotification),
  registry_ok s -> res (run_ops P ops s) = Ok tt -> registry_ok (st (run_ops P ops s)).
Proof.
  induction ops as [|op ops IH]; intros s Hs Hres; [exact Hs|].
  cbn [run_ops] in *. unfold bind in *.
  destruct (res (run_op P op s)) as [[]|x] eqn:Hop; cbn [res st] in *; [|discriminate].
  apply IH; [apply run_op_registry_ok; assumption|exact Hres].
Qed.

End RegistryMoreFacts.

(** X11: [update_eew] returns normally and leaves, under the id of the
    alert, a set for the new version, with the cache of the map cleared and
    the info embed rendered again.  For an id of the registry the set keeps
    its destination messages, no message is sent and the keys of the
    registry are unchanged; for another id the alert is sent to every
    destination. *)
Theorem update_registers_new_version (P : Discord.Platform) (e : EEW)
    (s : Discord.DiscordNotification) :
  let o := Discord.update_eew P e s in
  res o = Ok tt /\
  exists m,
    dict_get (eew_id e) (Discord.alerts (st o)) = Some m /\
    Discord.eew m = e /\ Discord.map_url m = None /\
    Discord._info_embed m = Some (InfoEmbed (eew_serial e) (eew_final e)) /\
    match dict_get (eew_id e) (Discord.alerts s) with
    | Some old =>
        Discord.messages m = Discord.messages old /\ sent_to (tr o) = [] /\
        map fst (Discord.alerts (st o)) = map fst (Discord.alerts s)
    | None => sent_to (tr o) = map Discord.channel (Discord.notification_channels s)
    end.
Proof.
  cbv zeta. destruct (dict_get (eew_id e) (Discord.alerts s)) as [old|] eqn:Hm.
  - rewrite (update_eew_known P e old s Hm). cbn [res st tr].
    split; [reflexivity|]. eexists. split; [apply dict_get_set|].
    repeat split. apply dict_set_keys_known. congruence.
  - rewrite (update_eew_unknown P e s Hm), send_eew_eq. cbn [res st tr].
    split; [reflexivity|]. eexists. split; [apply dict_get_set|].
    repeat split. rewrite sent_to_app, sent_to_sends.
    destruct (Discord.loop_running s); cbn; rewrite app_nil_r; reflexivity.
Qed.

(** X12: [lift_eew] never raises and calls nothing: it removes the id of
    the alert from the registry, leaves the other ids as they are (all of
    them when the id is not in the registry), and does not touch the
    refresh loop. *)
Theorem lift_removes_only_that_alert (e : EEW) (s : Discord.DiscordNotification) (id : string) :
  is_dict (Discord.alerts s) ->
  let o := Discord.lift_eew e s in
  res o = Ok tt /\ tr o = [] /\
  dict_get id (Discord.alerts (st o))
  = (if String.eqb id (eew_id e) then None else dict_get id (Discord.alerts s)) /\
  is_dict (Discord.alerts (st o)) /\
  Discord.loop_running (st o) = Discord.loop_running s.
Proof.
  intros Hd. cbv zeta. rewrite lift_eew_eq. cbn [res st tr].
  split; [reflexivity|]. split; [reflexivity|]. split; [|split; [|reflexivity]].
  - cbn. destruct (String.eqb_spec id (eew_id e)) as [->|Hne].
    + apply dict_get_pop_eq, Hd.
    + apply dict_get_pop_ne, Hne.
  - cbn. apply dict_pop_is_dict, Hd.
Qed.

Lemma registry_A_B_is_dict : is_dict (Discord.alerts registry_A_B).
Proof.
  unfold is_dict. cbn. repeat constructor.
  - intros H. apply list_elem_of_singleton in H. discriminate.
  - apply not_elem_of_nil.
Qed.

Lemma lift_removes_only_that_alert_witness :
  let o := Discord.lift_eew (record "A" 1 0) registry_A_B in
  res o = Ok tt /\ tr o = [] /\
  dict_get "B" (Discord.alerts (st o))
  = (if String.eqb "B" (eew_id (record "A" 1 0)) then None
     else dict_get "B" (Discord.alerts registry_A_B)) /\
  is_dict (Discord.alerts (st o)) /\
  Discord.loop_running (st o) = Discord.loop_running registry_A_B.
Proof.
  apply (lift_removes_only_that_alert (record "A" 1 0) registry_A_B "B").
  exact registry_A_B_is_dict.
Defined.

(** X13: a refresh tick edits the sets of the registry in insertion order
    and stops at the first set whose edit raises: the tick raises that
    exception, and the sets registered after it are not edited in that
    tick. *)
Theorem tick_stops_at_first_failing_set (P : Discord.Platform) now
    (s : Discord.DiscordNotification) pre id m post x :
  Discord.alerts s = pre ++ (id, m) :: post ->
  Forall (fun im => res (Discord.edit P now im.2) = Ok tt) pre ->
  res (Discord.edit P now m) = Raise x ->
  let o := Discord.update_eew_messages_loop P now s in
  res o = Raise x /\
  tr o = concat (map (fun im => tr (Discord.edit P now im.2)) pre) ++ tr (Discord.edit P now m).
Proof.
  intros Ha Hpre Hm. cbv zeta. unfold Discord.update_eew_messages_loop. rewrite bind_gets, Ha.
  destruct (pre ++ (id, m) :: post) as [|p l] eqn:Hl; [destruct pre; discriminate|].
  rewrite <- Hl, edit_all_app.
  destruct (edit_all_ok P now pre s Hpre) as [H1 H2].
  destruct (Discord.edit_all P now pre s) as [r s1 t1] eqn:He. cbn [res tr] in H1, H2. subst r t1.
  erewrite bind_eq by exact He. cbn [Discord.edit_all res tr].
  unfold bind, Discord.on_alert. cbn [res st tr]. rewrite Hm. split; reflexivity.
Qed.

Lemma tick_stops_at_first_failing_set_witness :
  let o := Discord.update_eew_messages_loop platform_one_down 0 registry_A_B in
  res o = Raise HTTPException /\
  tr o = concat (map (fun im : string * Discord.EEWMessages =>
                        tr (Discord.edit platform_one_down 0 im.2)) [])
         ++ tr (Discord.edit platform_one_down 0 two_messages).
Proof.
  apply (tick_stops_at_first_failing_set platform_one_down 0 registry_A_B [] "A" two_messages
           (tl (Discord.alerts registry_A_B)) HTTPException).
  - reflexivity.
  - constructor.
  - reflexivity.
Defined.

(** X14: over any sequence of [send_eew], [update_eew], [lift_eew] and
    refresh ticks that complete, the registry stays a dict and the refresh
    loop is running whenever the registry holds an alert. *)
Theorem refresh_loop_runs_while_alerts_registered (P : Discord.Platform) (ops : list Op)
    (s : Discord.DiscordNotification) :
  registry_ok s -> res (run_ops P ops s) = Ok tt ->
  registry_ok (st (run_ops P ops s)).
Proof. apply run_ops_registry_ok. Qed.

Lemma refresh_loop_runs_while_alerts_registered_witness :
  registry_ok
    (st (run_ops platform_up
           [OpSend (record "A" 1 0); OpTick 0; OpUpdate (record "A" 2 1); OpTick 1;
            OpSend (record "B" 1 2); OpLift (record "A" 2 1); OpTick 2]
           two_channels)).
Proof.
  apply (refresh_loop_runs_while_alerts_registered platform_up
           [OpSend (record "A" 1 0); OpTick 0; OpUpdate (record "A" 2 1); OpTick 1;
            OpSend (record "B" 1 2); OpLift (record "A" 2 1); OpTick 2]
           two_channels).
  - split; [constructor|left; reflexivity].
  - vm_compute. reflexivity.
Defined.

(** ** The start of the Discord bot *)

Lemma substring_all s : String.substring 0 (String.length s) s = s.
Proof. induction s as [|c s IH]; [reflexivity|]. cbn. rewrite IH. reflexivity. Qed.

Lemma removeprefix_at s :
  String.append "@" (removeprefix "@" s) = if String.prefix "@" s then s else String.append "@" s.
Proof.
  unfold removeprefix. destruct (String.prefix "@" s) eqn:Hp; [|reflexivity].
  destruct s as [|c s]; [discriminate|]. cbn [String.prefix] in Hp.
  destruct (Ascii.ascii_dec _ c) as [<-|]; [|discriminate].
  cbn [String.length Nat.sub String.substring]. rewrite Nat.sub_0_r, substring_all. reflexivity.
Qed.

Section ReadyFacts.

Import Ready.

Variable G : Gateway.

Lemma get_or_fetch_channel_default id d (s : Bot) :
  get_or_fetch_channel G id (Some d) s =
  match get_channel G id with
  | Some c => mkOut (Ok (Some c)) s []
  | None =>
      mkOut (Ok (match fetch_channel G id with Ok c => Some c | Raise _ => d end))
            (log_fetch id s) []
  end.
Proof.
  unfold get_or_fetch_channel. destruct (get_channel G id) as [c|]; [reflexivity|].
  unfold bind, try, of_result. cbn [modify ret raise res st tr].
  destruct (fetch_channel G id); reflexivity.
Qed.

Lemma for_channels_spec channels : forall (s : Bot),
  Forall (fun data => is_Some (data_id data)) channels ->
  for_channels G channels s =
  mkOut (Ok tt)
        {| notification :=
             {| Discord.alerts := Discord.alerts (notification s);
                Discord.notification_channels :=
                  Discord.notification_channels (notification s) ++ omap (resolve G) channels;
                Discord.loop_running := Discord.loop_running (notification s) |};
           _client_ready := _client_ready s;
           fetched := fetched s ++ omap (asked G) channels;
           ignored := ignored s ++ omap (fun data => match resolve G data with
                                                   | None => data_id data
                                                   | Some _ => None
                                                   end) channels |}
        [].
Proof.
  induction channels as [|data channels IH]; intros s Hall.
  - cbn. rewrite !app_nil_r. destruct s as [[] ? ? ?]. reflexivity.
  - apply Forall_cons in Hall as [[id Hid] Hall].
    cbn [for_channels]. rewrite Hid. unfold item. rewrite bind_ret.
    pose proof (get_or_fetch_channel_default id None s) as Hg.
    assert (Hr : resolve G data
                 = match get_channel G id, fetch_channel G id with
                   | Some c, _ | None, Ok c =>
                       Some {| Discord.channel := c;
                               Discord.mention := mention_of (data_mention data) |}
                   | None, Raise _ => None
                   end) by (unfold resolve; rewrite Hid; reflexivity).
    assert (Ha : asked G data = match get_channel G id with Some _ => None | None => Some id end)
      by (unfold asked; rewrite Hid; reflexivity).
    cbn [omap list_omap]. rewrite Hr, Ha, Hid. clear Hr Ha.
    destruct (get_channel G id) as [c|].
    + erewrite bind_eq by exact Hg. cbn [res st tr app].
      rewrite bind_modify, IH by exact Hall. cbn. rewrite <- !app_assoc. reflexivity.
    + erewrite bind_eq by exact Hg. cbn [res st tr app].
      destruct (fetch_channel G id) as [c|x]; rewrite bind_modify, IH by exact Hall; cbn;
        rewrite <- ?app_assoc; reflexivity.
Qed.

End ReadyFacts.

(** X15: the mention made of a name is the name with one ["@"] put before
    it unless it starts with one; the result always starts with ["@"] and
    is left as it is when used as a name again.  An empty name gives no
    mention. *)
Theorem mention_is_normalised (s : string) :
  Ready.mention_of (Some (Ready.Name s))
  = (if String.eqb s "" then None
     else Some (if String.prefix "@" s then s else String.append "@" s)) /\
  forall r, Ready.mention_of (Some (Ready.Name s)) = Some r ->
            String.prefix "@" r = true /\ Ready.mention_of (Some (Ready.Name r)) = Some r.
Proof.
  assert (H1 : Ready.mention_of (Some (Ready.Name s))
               = (if String.eqb s "" then None
                  else Some (if String.prefix "@" s then s else String.append "@" s))).
  { cbn [Ready.mention_of]. destruct (String.eqb s ""); [reflexivity|].
    rewrite removeprefix_at. reflexivity. }
  split; [exact H1|]. intros r Hr. rewrite H1 in Hr.
  destruct (String.eqb s ""); [discriminate|]. injection Hr as Hr.
  assert (Hp : String.prefix "@" r = true).
  { destruct (String.prefix "@" s) eqn:Hs; subst r; [exact Hs|].
    apply String.prefix_correct. cbn. destruct s; reflexivity. }
  split; [exact Hp|]. cbn [Ready.mention_of].
  destruct (String.eqb_spec r "") as [->|_]; [discriminate|].
  rewrite removeprefix_at, Hp. reflexivity.
Qed.

(** X16: the first [on_ready], on a configuration whose elements all have
    an id, returns normally and appends to [notification_channels], in the
    order of the configuration, the channels found in the cache or through
    the API, each with its mention; the API is asked only for the channels
    missing from the cache, and a channel that is not found is left out: a
    later alert is sent to the channels registered, and to no other. *)
Theorem on_ready_registers_resolvable_channels (G : Ready.Gateway)
    (channels : list Ready.ChannelData) (s : Ready.Bot) :
  Forall (fun data => is_Some (Ready.data_id data)) channels ->
  Ready._client_ready s = false ->
  let o := Ready.on_ready G channels s in
  res o = Ok tt /\ Ready._client_ready (st o) = true /\
  Discord.notification_channels (Ready.notification (st o))
  = Discord.notification_channels (Ready.notification s) ++ omap (resolve G) channels /\
  Ready.fetched (st o) = Ready.fetched s ++ omap (asked G) channels /\
  Discord.alerts (Ready.notification (st o)) = Discord.alerts (Ready.notification s) /\
  forall P e,
    sent_to (tr (Discord.send_eew P e (Ready.notification (st o))))
    = map Discord.channel
        (Discord.notification_channels (Ready.notification s) ++ omap (resolve G) channels).
Proof.
  intros Hall Hready. cbv zeta. unfold Ready.on_ready. rewrite bind_gets, Hready.
  erewrite bind_eq by (apply for_channels_spec; exact Hall). cbn [res st tr modify].
  do 5 (split; [reflexivity|]). intros P e. rewrite send_eew_eq. cbn [tr].
  rewrite sent_to_app, sent_to_sends.
  cbn [Ready.notification Ready.set_client_ready Discord.notification_channels
       Discord.loop_running].
  destruct (Discord.loop_running _); cbn [sent_to omap list_omap]; rewrite app_nil_r;
    reflexivity.
Qed.

Lemma on_ready_registers_resolvable_channels_witness :
  let o := Ready.on_ready gateway_7_8 channels_7_8_9 new_bot in
  res o = Ok tt /\ Ready._client_ready (st o) = true /\
  Discord.notification_channels (Ready.notification (st o))
  = Discord.notification_channels (Ready.notification new_bot)
    ++ omap (resolve gateway_7_8) channels_7_8_9 /\
  Ready.fetched (st o) = Ready.fetched new_bot ++ omap (asked gateway_7_8) channels_7_8_9 /\
  Discord.alerts (Ready.notification (st o)) = Discord.alerts (Ready.notification new_bot) /\
  forall P e,
    sent_to (tr (Discord.send_eew P e (Ready.notification (st o))))
    = map Discord.channel
        (Discord.notification_channels (Ready.notification new_bot)
         ++ omap (resolve gateway_7_8) channels_7_8_9).
Proof.
  apply (on_ready_registers_resolvable_channels gateway_7_8 channels_7_8_9 new_bot).
  - repeat constructor; eexists; reflexivity.
  - reflexivity.
Defined.

Example on_ready_of_three_channels :
  let s := st (Ready.on_ready gateway_7_8 channels_7_8_9 new_bot) in
  Discord.notification_channels (Ready.notification s)
  = [ {| Discord.channel := 7; Discord.mention := Some "@everyone" |};
      {| Discord.channel := 8; Discord.mention := Some "<@&42>" |} ] /\
  Ready.fetched s = [8%nat; 9%nat] /\ Ready.ignored s = [9%nat].
Proof. vm_compute. repeat split; reflexivity. Qed.

(** X17: once [on_ready] has completed, another [on_ready] does nothing:
    no channel is looked up and none is appended a second time. *)
Theorem on_ready_runs_once (G G' : Ready.Gateway) (channels channels' : list Ready.ChannelData)
    (s : Ready.Bot) :
  res (Ready.on_ready G channels s) = Ok tt ->
  Ready.on_ready G' channels' (st (Ready.on_ready G channels s))
  = mkOut (Ok tt) (st (Ready.on_ready G channels s)) [].
Proof.
  intros Hres.
  assert (Hr : Ready._client_ready (st (Ready.on_ready G channels s)) = true).
  { revert Hres. unfold Ready.on_ready. rewrite bind_gets.
    destruct (Ready._client_ready s) eqn:Hs; [intros _; exact Hs|].
    unfold bind. destruct (res (Ready.for_channels G channels s)); cbn [res st];
      [reflexivity|discriminate]. }
  unfold Ready.on_ready at 1. rewrite bind_gets, Hr. reflexivity.
Qed.

Lemma on_ready_runs_once_witness :
  Ready.on_ready gateway_7_8 channels_7_8_9
    (st (Ready.on_ready gateway_7_8 channels_7_8_9 new_bot))
  = mkOut (Ok tt) (st (Ready.on_ready gateway_7_8 channels_7_8_9 new_bot)) [].
Proof.
  apply (on_ready_runs_once gateway_7_8 gateway_7_8 channels_7_8_9 channels_7_8_9 new_bot).
  vm_compute. reflexivity.
Defined.

(** ** The LINE client *)

Section LineFacts.

Import Line.

Variable api : Api.
Variable magnitude : EarthquakeData -> Result Z.
Variable self : LineNotification.

Lemma push_all_accepted channels m : forall (w : World),
  Forall (fun c => push_message api (access_token self) c = None) channels ->
  push_all api self channels m w =
  mkOut (Ok tt)
        {| notification_channels := notification_channels w;
           pushed := pushed w ++ map (fun c => (access_token self, c, m)) channels;
           errors := errors w |}
        [].
Proof.
  induction channels as [|c channels IH]; intros w Hall.
  - cbn. rewrite app_nil_r. destruct w; reflexivity.
  - apply Forall_cons in Hall as [Hc Hall].
    cbn [push_all]. unfold push at 1. rewrite Hc, bind_modify, (IH _ Hall).
    cbn. rewrite <- app_assoc. reflexivity.
Qed.

Lemma push_all_rejected c rest m x (w : World) :
  push_message api (access_token self) c = Some x ->
  push_all api self (c :: rest) m w = mkOut (Raise x) w [].
Proof. intros Hx. cbn [push_all]. unfold push. rewrite Hx. reflexivity. Qed.

Lemma push_all_app l1 l2 m : forall (w : World),
  push_all api self (l1 ++ l2) m w
  = bind (push_all api self l1 m) (fun _ => push_all api self l2 m) w.
Proof.
  induction l1 as [|c l1 IH]; intros w.
  - cbn [app push_all]. rewrite bind_ret. reflexivity.
  - cbn [app push_all]. rewrite bind_assoc. apply bind_ext. intros _ w1. apply IH.
Qed.

Lemma append_channels_eq channels : forall (w : World),
  append_channels channels w =
  mkOut (Ok tt)
        {| notification_channels := notification_channels w ++ channels;
           pushed := pushed w; errors := errors w |}
        [].
Proof.
  induction channels as [|c channels IH]; intros w.
  - cbn. rewrite app_nil_r. destruct w; reflexivity.
  - cbn [append_channels]. rewrite bind_modify, IH. cbn. rewrite <- app_assoc. reflexivity.
Qed.

Lemma send_eew_accepted e mag (w : World) :
  magnitude (eew_earthquake e) = Ok mag ->
  Forall (fun c => push_message api (access_token self) c = None) (notification_channels w) ->
  pushed (st (send_eew api magnitude self e w))
  = pushed w ++ pushes_of (access_token self) (notification_channels w) mag /\
  notification_channels (st (send_eew api magnitude self e w)) = notification_channels w /\
  res (send_eew api magnitude self e w) = Ok tt.
Proof.
  intros Hm Hall. unfold send_eew. rewrite bind_gets.
  destruct (notification_channels w) as [|c l] eqn:Hc.
  - cbn. rewrite app_nil_r, Hc. auto.
  - cbn [length Nat.eqb]. rewrite Hm. cbn [of_result]. rewrite bind_ret.
    rewrite push_all_accepted by exact Hall. cbn [res st pushed notification_channels].
    rewrite Hc. auto.
Qed.

End LineFacts.

(** X18: [send_eew] pushes the message to the channels one after the
    other and stops at the first push that the API rejects: the exception
    leaves [send_eew], the channels before that one have received the
    message and those after it have not. *)
Theorem line_pushes_stop_at_first_failure (api : Line.Api) magnitude
    (self : Line.LineNotification) (e : EEW) (w : Line.World) pre c post x mag :
  Line.notification_channels w = pre ++ c :: post ->
  magnitude (eew_earthquake e) = Ok mag ->
  Forall (fun c' => Line.push_message api (Line.access_token self) c' = None) pre ->
  Line.push_message api (Line.access_token self) c = Some x ->
  let o := Line.send_eew api magnitude self e w in
  res o = Raise x /\
  Line.pushed (st o) = Line.pushed w ++ pushes_of (Line.access_token self) pre mag.
Proof.
  intros Hc Hm Hpre Hx. cbv zeta. unfold Line.send_eew. rewrite bind_gets, Hc.
  replace (length (pre ++ c :: post) =? 0)%nat with false
    by (destruct pre; reflexivity).
  rewrite Hm. cbn [of_result]. rewrite bind_ret, push_all_app.
  erewrite bind_eq by (apply push_all_accepted; exact Hpre).
  rewrite (push_all_rejected api self c post _ x _ Hx). cbn [res st tr Line.pushed].
  split; reflexivity.
Qed.

Lemma line_pushes_stop_at_first_failure_witness :
  let o := Line.send_eew api_U2_down (fun q => Ok (mag_of q)) line_bot (record "A" 1 0)
             line_world in
  res o = Raise HTTPException /\
  Line.pushed (st o)
  = Line.pushed line_world ++ pushes_of (Line.access_token line_bot) ["U1"] 62.
Proof.
  apply (line_pushes_stop_at_first_failure api_U2_down (fun q => Ok (mag_of q)) line_bot
           (record "A" 1 0) line_world ["U1"] "U2" ["U3"] HTTPException 62).
  - reflexivity.
  - reflexivity.
  - repeat constructor.
  - reflexivity.
Defined.

(** X19: every client that [register] creates appends its channels to the
    one list that all the clients share, so that a client pushes an alert
    also to the channels configured for another; without both credentials
    [register] creates no client and leaves the list as it is. *)
Theorem line_instances_share_channels (api : Line.Api) magnitude env1 env2 t1 t2 c1 c2
    (w : Line.World) :
  Line.LINEBOT_ACCESS_TOKEN env1 = Some t1 -> is_Some (Line.LINEBOT_CHANNEL_SECRET env1) ->
  Line.LINEBOT_ACCESS_TOKEN env2 = Some t2 -> is_Some (Line.LINEBOT_CHANNEL_SECRET env2) ->
  let o1 := Line.register env1 c1 w in
  let o2 := Line.register env2 c2 (st o1) in
  res o1 = Ok (Some {| Line.access_token := t1 |}) /\
  res o2 = Ok (Some {| Line.access_token := t2 |}) /\
  Line.notification_channels (st o2) = Line.notification_channels w ++ c1 ++ c2 /\
  (forall e mag,
     magnitude (eew_earthquake e) = Ok mag ->
     (forall c, Line.push_message api t1 c = None) ->
     Line.pushed (st (Line.send_eew api magnitude {| Line.access_token := t1 |} e (st o2)))
     = Line.pushed w ++ pushes_of t1 (Line.notification_channels w ++ c1 ++ c2) mag) /\
  forall env,
    Line.LINEBOT_ACCESS_TOKEN env = None \/ Line.LINEBOT_CHANNEL_SECRET env = None ->
    Line.register env c1 w = mkOut (Ok None) (Line.log_error w) [].
Proof.
  intros Ht1 [x1 Hs1] Ht2 [x2 Hs2]. cbv zeta. unfold Line.register.
  rewrite Ht1, Hs1, Ht2, Hs2. unfold Line.__init__.
  rewrite !bind_assoc.
  erewrite bind_eq by apply append_channels_eq. rewrite !bind_ret. cbn [ret res st tr].
  erewrite bind_eq by apply append_channels_eq. rewrite !bind_ret.
  cbn [ret res st tr Line.notification_channels].
  split; [reflexivity|]. split; [reflexivity|].
  split; [rewrite app_assoc; reflexivity|]. split.
  - intros e mag Hm Hall.
    destruct (send_eew_accepted api magnitude {| Line.access_token := t1 |} e mag
                {| Line.notification_channels := (Line.notification_channels w ++ c1) ++ c2;
                   Line.pushed := Line.pushed w; Line.errors := Line.errors w |} Hm)
      as (H1 & _ & _).
    { apply Forall_forall. intros c _. apply Hall. }
    cbn [Line.pushed Line.errors Line.notification_channels Line.access_token] in *.
    rewrite H1, <- app_assoc. reflexivity.
  - intros env [He|He].
    + rewrite He. reflexivity.
    + rewrite He. destruct (Line.LINEBOT_ACCESS_TOKEN env); reflexivity.
Qed.

Lemma line_instances_share_channels_witness :
  let o1 := Line.register line_env ["U1"] line_nowhere in
  let o2 := Line.register line_env ["U2"; "U3"] (st o1) in
  res o1 = Ok (Some {| Line.access_token := "token" |}) /\
  res o2 = Ok (Some {| Line.access_token := "token" |}) /\
  Line.notification_channels (st o2)
  = Line.notification_channels line_nowhere ++ ["U1"] ++ ["U2"; "U3"] /\
  (forall e mag,
     (fun q => Ok (mag_of q)) (eew_earthquake e) = Ok mag ->
     (forall c, Line.push_message api_up "token" c = None) ->
     Line.pushed (st (Line.send_eew api_up (fun q => Ok (mag_of q))
                        {| Line.access_token := "token" |} e (st o2)))
     = Line.pushed line_nowhere
       ++ pushes_of "token" (Line.notification_channels line_nowhere ++ ["U1"] ++ ["U2"; "U3"])
            mag) /\
  forall env,
    Line.LINEBOT_ACCESS_TOKEN env = None \/ Line.LINEBOT_CHANNEL_SECRET env = None ->
    Line.register env ["U1"] line_nowhere = mkOut (Ok None) (Line.log_error line_nowhere) [].
Proof.
  apply (line_instances_share_channels api_up (fun q => Ok (mag_of q)) line_env line_env
           "token" "token" ["U1"] ["U2"; "U3"] line_nowhere).
  - reflexivity.
  - eexists. reflexivity.
  - reflexivity.
  - eexists. reflexivity.
Defined.

Lemma line_deliveries (api : Line.Api) (mag : EarthquakeData -> Z)
    (self : Line.LineNotification) evs : forall (w : Line.World),
  (forall c, Line.push_message api (Line.access_token self) c = None) ->
  exists w',
    foldl deliver [(Line.client api (fun q => Ok (mag q)) self, w)] evs
    = [(Line.client api (fun q => Ok (mag q)) self, w')] /\
    Line.notification_channels w' = Line.notification_channels w /\
    Line.pushed w'
    = Line.pushed w
      ++ pushes_of_events (Line.access_token self) (Line.notification_channels w) mag evs.
Proof.
  induction evs as [|[k e] evs IH]; intros w Hall.
  - exists w. cbn. rewrite app_nil_r. auto.
  - cbn [foldl]. unfold deliver at 2, notified. cbn [map fst snd].
    destruct k; cbn [method send_eew update_eew lift_eew Line.client].
    + destruct (send_eew_accepted api (fun q => Ok (mag q)) self e (mag (eew_earthquake e)) w
                  eq_refl) as (H1 & H2 & _).
      { apply Forall_forall. intros c _. apply Hall. }
      destruct (IH (st (Line.send_eew api (fun q => Ok (mag q)) self e w)) Hall)
        as (w' & I1 & I2 & I3).
      exists w'. split; [exact I1|]. split; [congruence|].
      rewrite I3, H1, H2. unfold pushes_of_events. cbn [map concat fst snd].
      rewrite <- app_assoc. reflexivity.
    + destruct (IH w Hall) as (w' & I1 & I2 & I3). exists w'. auto.
    + destruct (IH w Hall) as (w' & I1 & I2 & I3). exists w'. auto.
Qed.

(** X20: over any run of the polling client with a LINE client whose
    pushes are all accepted, the API receives, for each new alert and in
    the order of the events, one message per channel, and nothing for an
    update or a lift. *)
Theorem line_pushes_new_alerts_only (api : Line.Api) (mag : EarthquakeData -> Z)
    (self : Line.LineNotification) from_dict upstream ticks (w : Line.World) :
  (forall c, Line.push_message api (Line.access_token self) c = None) ->
  let client := Line.client api (fun q => Ok (mag q)) self in
  let o := start from_dict upstream ticks (init [(client, w)]) in
  exists w',
    _notification_client (st o) = [(client, w')] /\
    Line.notification_channels w' = Line.notification_channels w /\
    Line.pushed w'
    = Line.pushed w
      ++ pushes_of_events (Line.access_token self) (Line.notification_channels w) mag
           (events (tr o)).
Proof.
  intros Hall. cbv zeta.
  rewrite (start_delivers from_dict upstream ticks). cbn [init _notification_client].
  apply line_deliveries, Hall.
Qed.

Lemma line_pushes_new_alerts_only_witness :
  let client := Line.client api_up (fun q => Ok (mag_of q)) line_bot in
  let o := start EEW_from_dict scenario_feed 3 (init [(client, line_world)]) in
  exists w',
    _notification_client (st o) = [(client, w')] /\
    Line.notification_channels w' = Line.notification_channels line_world /\
    Line.pushed w'
    = Line.pushed line_world
      ++ pushes_of_events (Line.access_token line_bot) (Line.notification_channels line_world)
           mag_of (events (tr o)).
Proof.
  apply (line_pushes_new_alerts_only api_up mag_of line_bot EEW_from_dict scenario_feed 3
           line_world).
  reflexivity.
Defined.

Example line_run_of_the_scenario :
  let o := start EEW_from_dict scenario_feed 3
             (init [(Line.client api_up (fun q => Ok (mag_of q)) line_bot, line_world)]) in
  map (fun p => p.1.2) (concat (map (fun cw => Line.pushed cw.2) (_notification_client (st o))))
  = ["U1"; "U2"; "U3"; "U1"; "U2"; "U3"] /\
  kinds (events (tr o)) = [(New, "A"); (Update, "A"); (New, "B"); (Lift, "A")].
Proof. vm_compute. split; reflexivity. Qed.

(** ** The Discord client under the polling client *)

Lemma dict_get_set_iff {V} k k' (v : V) d :
  dict_get k' (dict_set k v d) <> None <-> k' = k \/ dict_get k' d <> None.
Proof.
  destruct (decide (k' = k)) as [->|Hne].
  - rewrite dict_get_set. split; [auto|congruence].
  - rewrite dict_get_set_ne by exact Hne. tauto.
Qed.

Lemma dict_get_pop_iff {V} k k' (d : list (string * V)) :
  is_dict d -> (dict_get k' (dict_pop k d) <> None <-> k' <> k /\ dict_get k' d <> None).
Proof.
  intros Hd. destruct (decide (k' = k)) as [->|Hne].
  - rewrite dict_get_pop_eq by exact Hd. tauto.
  - rewrite dict_get_pop_ne by exact Hne. tauto.
Qed.

(** The registry after the delivery of events that follow the lifecycle. *)
Lemma discord_deliveries (P : Discord.Platform) evs :
  forall (a a' : gset string) (reg : Discord.DiscordNotification),
    is_dict (Discord.alerts reg) -> registers reg a -> lifecycle a evs = Some a' ->
    exists reg',
      foldl deliver [(Discord.client P, reg)] evs = [(Discord.client P, reg')] /\
      is_dict (Discord.alerts reg') /\ registers reg' a'.
Proof.
  induction evs as [|[k e] evs IH]; intros a a' reg Hd Hr Hl.
  - injection Hl as <-. exists reg. auto.
  - cbn [foldl]. unfold deliver at 2, notified. cbn [map fst snd].
    destruct k; cbn [lifecycle] in Hl; case_decide as Hin; try discriminate;
      cbn [method send_eew update_eew lift_eew Discord.client].
    + eapply IH; [| |exact Hl].
      * unfold bind. rewrite send_eew_eq. cbn [res st ret]. apply dict_set_is_dict, Hd.
      * unfold bind. rewrite send_eew_eq. cbn [res st ret]. intros id.
        cbn [Discord.alerts Discord.set_alerts Discord.set_loop_running].
        rewrite dict_get_set_iff, elem_of_union, elem_of_singleton, (Hr id). tauto.
    + apply Hr in Hin. destruct (dict_get (eew_id e) (Discord.alerts reg)) as [m|] eqn:Hm;
        [|congruence].
      eapply IH; [| |exact Hl]; rewrite (update_eew_known P e m reg Hm); cbn [st].
      * apply dict_set_is_dict, Hd.
      * intros id. cbn [Discord.alerts Discord.set_alerts].
        rewrite dict_get_set_iff, <- (Hr id). split; [|auto].
        intros [->|H]; [congruence|exact H].
    + eapply IH; [| |exact Hl]; rewrite lift_eew_eq; cbn [st].
      * apply dict_pop_is_dict, Hd.
      * intros id. cbn [Discord.alerts Discord.set_alerts].
        rewrite (dict_get_pop_iff _ _ _ Hd), elem_of_difference, elem_of_singleton, (Hr id).
        tauto.
Qed.

(** X21: after any run of the polling client with a Discord client
    started on an empty registry, the ids of the registry are the ids of
    the alerts known to the polling client.  [from_dict] is taken to keep
    the id of an entry. *)
Theorem discord_registry_mirrors_known_alerts (P : Discord.Platform) from_dict upstream ticks
    (reg : Discord.DiscordNotification) :
  keeps_id from_dict -> Discord.alerts reg = [] ->
  let o := start from_dict upstream ticks (init [(Discord.client P, reg)]) in
  exists reg',
    _notification_client (st o) = [(Discord.client P, reg')] /\
    is_dict (Discord.alerts reg') /\
    forall id, dict_get id (Discord.alerts reg') <> None <-> id ∈ dom (_alerts (st o)).
Proof.
  intros Hk Hreg. cbv zeta.
  destruct (start_in_order from_dict upstream Hk ticks (init [(Discord.client P, reg)])
              (init_consistent _)) as [_ Hl].
  cbn [init _alerts] in Hl. rewrite dom_empty_L in Hl.
  rewrite (start_delivers from_dict upstream ticks). cbn [init _notification_client].
  eapply (discord_deliveries P _ ∅); [| |exact Hl].
  - unfold is_dict. rewrite Hreg. constructor.
  - intros id. rewrite Hreg. cbn. split; [congruence|]. intros H.
    exfalso. exact (not_elem_of_empty _ H).
Qed.

Lemma discord_registry_mirrors_known_alerts_witness :
  let o := start EEW_from_dict scenario_feed 3 (init [(Discord.client platform_up, two_channels)]) in
  exists reg',
    _notification_client (st o) = [(Discord.client platform_up, reg')] /\
    is_dict (Discord.alerts reg') /\
    forall id, dict_get id (Discord.alerts reg') <> None <-> id ∈ dom (_alerts (st o)).
Proof.
  apply (discord_registry_mirrors_known_alerts platform_up EEW_from_dict scenario_feed 3
           two_channels).
  - exact EEW_from_dict_keeps_id.
  - reflexivity.
Defined.
